(** * SDL_Tutorials: the Window Demo and the Points/Ship Demo

    A shallow embedding of [BasicWindowTutorial.cpp] and
    [SDL_Test_File.cpp].  C [float] is IEEE 754 binary32, modelled bit for
    bit by the standard library's [SpecFloat] operations at precision 24
    and maximal exponent 128.  Calls into SDL are modelled by their
    documented contracts and recorded in explicit traces. *)

From Stdlib Require Import ZArith Lia List Bool String Reals Lra.
From Stdlib Require Import Floats.SpecFloat.
From stdpp Require Import base option list gmap.

Local Open Scope Z_scope.

(** ** Binary32 arithmetic *)

Module Binary32.

Definition prec : Z := 24.
Definition emax : Z := 128.

Abbreviation float32 := spec_float.

Definition fadd : float32 -> float32 -> float32 := SFadd prec emax.
Definition fsub : float32 -> float32 -> float32 := SFsub prec emax.
Definition fmul : float32 -> float32 -> float32 := SFmul prec emax.
Definition fdiv : float32 -> float32 -> float32 := SFdiv prec emax.
Definition fsqrt : float32 -> float32 := SFsqrt prec emax.

(** Conversion of an integer to [float], rounding to nearest even. *)
Definition of_Z (z : Z) : float32 := binary_normalize prec emax z 0 false.

(** A decimal literal [n / d] written with the suffix [f]: the binary32
    number nearest to the quotient. *)
Definition of_ratio (n d : Z) : float32 := fdiv (of_Z n) (of_Z d).

(** *** Comparison

    The C comparison operators compare the values two floats denote; a NaN
    operand makes every ordered comparison false.  The value of a finite
    float is [m * 2 ^ e]; two values are compared after being brought to
    the smaller of the two exponents. *)

Definition Zscale (c m e : Z) : Z := m * 2 ^ (e - c).

Definition Fcmp (m1 e1 m2 e2 : Z) : comparison :=
  let c := Z.min e1 e2 in Zscale c m1 e1 ?= Zscale c m2 e2.

Definition mant (x : float32) : Z :=
  match x with
  | S754_finite false m _ => Zpos m
  | S754_finite true m _ => Zneg m
  | _ => 0
  end.

Definition expo (x : float32) : Z :=
  match x with
  | S754_finite _ _ e => e
  | _ => 0
  end.

(** The real number a float denotes: [m * 2 ^ e] for a finite float, zero
    for the zeros.  Infinities and NaN denote no number; [is_finite] rules
    them out wherever [to_R] is used. *)
Definition to_R (x : float32) : R := (IZR (mant x) * powerRZ 2 (expo x))%R.

Definition is_finite (x : float32) : bool :=
  match x with
  | S754_zero _ | S754_finite _ _ _ => true
  | _ => false
  end.

Definition fcompare (x y : float32) : option comparison :=
  match x, y with
  | S754_nan, _ | _, S754_nan => None
  | S754_infinity s1, S754_infinity s2 =>
      Some (match s1, s2 with
            | true, false => Lt
            | false, true => Gt
            | _, _ => Eq
            end)
  | S754_infinity s, _ => Some (if s then Lt else Gt)
  | _, S754_infinity s => Some (if s then Gt else Lt)
  | _, _ => Some (Fcmp (mant x) (expo x) (mant y) (expo y))
  end.

Definition flt (x y : float32) : bool :=
  match fcompare x y with Some Lt => true | _ => false end.
Definition fle (x y : float32) : bool :=
  match fcompare x y with Some (Lt | Eq) => true | _ => false end.
Definition fgt (x y : float32) : bool := flt y x.
Definition fge (x y : float32) : bool := fle y x.
Definition feq (x y : float32) : bool :=
  match fcompare x y with Some Eq => true | _ => false end.

(** Conversion of a [float] to an integer type truncates toward zero; it is
    undefined in C for NaN and the infinities, which give [None] here. *)
Definition ftrunc (x : float32) : option Z :=
  match x with
  | S754_zero _ => Some 0
  | S754_finite false m e => Some (Z.shiftl (Zpos m) e)
  | S754_finite true m e => Some (- Z.shiftl (Zpos m) e)
  | _ => None
  end.

(** Sign bit clear and finite: [+0] or a positive finite number. *)
Definition nonneg_finite (x : float32) : bool :=
  match x with
  | S754_zero false | S754_finite false _ _ => true
  | _ => false
  end.

(** Sign bit clear and not a NaN: the above or [+infinity]. *)
Definition nonneg (x : float32) : bool :=
  match x with
  | S754_zero false | S754_finite false _ _ | S754_infinity false => true
  | _ => false
  end.

(** Structural equality of floats. *)
Definition same_float (x y : float32) : bool :=
  match x, y with
  | S754_zero s, S754_zero s' => Bool.eqb s s'
  | S754_infinity s, S754_infinity s' => Bool.eqb s s'
  | S754_nan, S754_nan => true
  | S754_finite s m e, S754_finite s' m' e' => Bool.eqb s s' && Pos.eqb m m' && Z.eqb e e'
  | _, _ => false
  end.

(** A well-formed binary32 number in [[0, 1)] with its sign bit clear. *)
Definition is_unit (x : float32) : bool :=
  nonneg_finite x && valid_binary prec emax x && flt x (of_Z 1).

End Binary32.

Import Binary32.

(** ** The arithmetic the demo is written in

    [rotate_point] and the ship geometry only add, subtract, multiply and
    call sine and cosine.  They are written once over this interface; the
    program runs them on binary32, and the exact reading over the real
    numbers is what a statement "up to floating-point tolerance" is about. *)

Class Arith (F : Type) := {
  add : F -> F -> F;
  sub : F -> F -> F;
  mul : F -> F -> F;
  sinf : F -> F;
  cosf : F -> F
}.

(** Binary32, with [SDL_sinf] and [SDL_cosf] supplied by the library. *)
Definition binary32_arith (SDL_sinf SDL_cosf : float32 -> float32) : Arith float32 :=
  {| add := fadd; sub := fsub; mul := fmul; sinf := SDL_sinf; cosf := SDL_cosf |}.

Definition real_arith : Arith R :=
  {| add := Rplus; sub := Rminus; mul := Rmult; sinf := sin; cosf := cos |}.

(** [rotate_point] updates [*x] and [*y] in place; the new pair is returned. *)
Definition rotate_point {F : Type} {A : Arith F} (cx cy : F) (xy : F * F) (angle : F) : F * F :=
  let s := sinf angle in
  let c := cosf angle in
  (* translate point back to origin *)
  let tx := sub (fst xy) cx in
  let ty := sub (snd xy) cy in
  (* rotate *)
  let rx := sub (mul tx c) (mul ty s) in
  let ry := add (mul tx s) (mul ty c) in
  (* translate back *)
  (add rx cx, add ry cy).

(** The three ship vertices before rotation: apex, then the two base
    vertices. *)
Definition ship_vertices {F : Type} {A : Arith F} (cx cy size : F)
    : (F * F) * (F * F) * (F * F) :=
  ((cx, sub cy size), (sub cx size, add cy size), (add cx size, add cy size)).

(** Euclidean distance over the reals. *)
Definition distance (p q : R * R) : R :=
  sqrt ((fst p - fst q) * (fst p - fst q) + (snd p - snd q) * (snd p - snd q)).

(** The point of the plane a pair of finite floats denotes. *)
Definition point_to_R (p : float32 * float32) : R * R := (to_R (fst p), to_R (snd p)).

Definition point_is_finite (p : float32 * float32) : bool :=
  is_finite (fst p) && is_finite (snd p).

(** ** The Window Demo ([BasicWindowTutorial.cpp]) *)

Module WindowDemo.

(** The calls the program makes into SDL, in order. *)
Inductive sdl_call :=
| Call_Init
| Call_Log (msg : string)
| Call_CreateWindow (title : string) (w h : Z) (flags : Z)
| Call_Delay (ms : Z)
| Call_Quit.

(** What the library answers: whether [SDL_Init] succeeds and the window
    [SDL_CreateWindow] returns ([None] is the null pointer). *)
Record outcomes := {
  init_succeeds : bool;
  created_window : option positive
}.

Record world := {
  answers : outcomes;
  calls : list sdl_call
}.

Definition prog (A : Type) : Type := world -> A * world.

#[export] Instance prog_ret : MRet prog := fun A a w => (a, w).
#[export] Instance prog_bind : MBind prog :=
  fun A B k m w => let '(a, w') := m w in k a w'.

Definition call {A : Type} (c : sdl_call) (answer : outcomes -> A) : prog A :=
  fun w => (answer (answers w), {| answers := answers w; calls := calls w ++ [c] |}).

Definition SDL_WINDOW_RESIZABLE : Z := 32.

Definition SDL_Init : prog bool := call Call_Init init_succeeds.
Definition SDL_Log (msg : string) : prog unit := call (Call_Log msg) (fun _ => tt).
Definition SDL_CreateWindow (title : string) (w h : Z) (flags : Z) : prog (option positive) :=
  call (Call_CreateWindow title w h flags) created_window.
Definition SDL_Delay (ms : Z) : prog unit := call (Call_Delay ms) (fun _ => tt).
Definition SDL_Quit : prog unit := call Call_Quit (fun _ => tt).

Definition main : prog Z :=
  ok ← SDL_Init;
  if negb ok then
    SDL_Log "Failed!";;
    mret (-1)
  else
    window ← SDL_CreateWindow "Cavan - SDL3" 320 240 SDL_WINDOW_RESIZABLE;
    SDL_Delay 5000;;
    SDL_Quit;;
    mret 0.

(** Running the program against given library answers: exit status and the
    calls made. *)
Definition run_main (o : outcomes) : Z * list sdl_call :=
  let '(status, w) := main {| answers := o; calls := [] |} in (status, calls w).

Definition is_create_window (c : sdl_call) : bool :=
  match c with Call_CreateWindow _ _ _ _ => true | _ => false end.
Definition is_delay (c : sdl_call) : bool :=
  match c with Call_Delay _ => true | _ => false end.
Definition is_log (c : sdl_call) : bool :=
  match c with Call_Log _ => true | _ => false end.

End WindowDemo.

(** ** The Points/Ship Demo ([SDL_Test_File.cpp]) *)

Module PointsDemo.

Definition WINDOW_WIDTH : Z := 640.
Definition WINDOW_HEIGHT : Z := 480.
Definition NUM_POINTS : nat := 500.
Definition MIN_PIXELS_PER_SECOND : Z := 30.
Definition MAX_PIXELS_PER_SECOND : Z := 960.

(** [SDL_PI_F], the binary32 number nearest to pi. *)
Definition SDL_PI_F : float32 := S754_finite false 13176795 (-22).

Inductive SDL_AppResult := SDL_APP_CONTINUE | SDL_APP_SUCCESS | SDL_APP_FAILURE.

Record SDL_FPoint := { x : float32; y : float32 }.
Record SDL_FRect := { rect_x : float32; rect_y : float32; rect_w : float32; rect_h : float32 }.
Record SDL_FColor := { col_r : float32; col_g : float32; col_b : float32; col_a : float32 }.
Record SDL_Vertex := { position : SDL_FPoint; color : SDL_FColor; tex_coord : SDL_FPoint }.

(** An 8-bit RGBA pixel or draw colour. *)
Record rgba := { red : Z; green : Z; blue : Z; alpha : Z }.

Inductive SDL_BlendMode := SDL_BLENDMODE_NONE | SDL_BLENDMODE_ADD.

(** A texture: its size, blend mode, global alpha modulation and pixels.
    [SDL_CreateTexture] starts the alpha modulation at 255; a texture
    pointer is an [option], [None] being [NULL]. *)
Record SDL_Texture := {
  tex_w : Z;
  tex_h : Z;
  blend_mode : SDL_BlendMode;
  alpha_mod : Z;
  pixels : gmap (Z * Z) rgba
}.

(** Commands queued for the window.  A texture copy is queued with the
    blend mode and alpha modulation the texture has when
    [SDL_RenderTexture] is called. *)
Inductive render_cmd :=
| Cmd_Clear (c : rgba)
| Cmd_Points (c : rgba) (pts : list SDL_FPoint)
| Cmd_Geometry (vs : list SDL_Vertex)
| Cmd_Texture (blend : SDL_BlendMode) (amod : Z) (dst : SDL_FRect).

(** The renderer: current draw colour, the texture bound as render target
    (none: the window), the commands queued for the window and the frames
    presented so far. *)
Record SDL_Renderer := {
  draw_color : rgba;
  target : option SDL_Texture;
  queue : list render_cmd;
  presented : list (list render_cmd)
}.

(** *** The random source

    [SDL_randf] returns a float in [[0, 1)] and [SDL_rand n] an integer in
    [[0, n)].  The source is an arbitrary sequence of draws; each call
    consumes the next one. *)

Record unit_float := { uf_val : float32; uf_ok : is_unit uf_val = true }.

Record draw := { as_int : Z; as_float : unit_float }.

Record rand_state := { source : nat -> draw; cursor : nat }.

Definition next (gen : rand_state) : rand_state :=
  {| source := source gen; cursor := S (cursor gen) |}.

Definition SDL_rand (n : Z) (gen : rand_state) : Z * rand_state :=
  (as_int (source gen (cursor gen)) mod n, next gen).

Definition SDL_randf (gen : rand_state) : float32 * rand_state :=
  (uf_val (as_float (source gen (cursor gen))), next gen).

(** *** Renderer calls *)

(** [SDL_CreateTexture] returns the new texture, or [NULL] when the
    library cannot create one: always when a side is not positive, and
    otherwise as the library answers ([created]). *)
Definition SDL_CreateTexture (created : bool) (w h : Z) : option SDL_Texture :=
  if created && (0 <? w) && (0 <? h)
  then Some {| tex_w := w; tex_h := h; blend_mode := SDL_BLENDMODE_NONE; alpha_mod := 255;
               pixels := ∅ |}
  else None.

Definition SDL_SetTextureBlendMode (tex : SDL_Texture) (m : SDL_BlendMode) : SDL_Texture :=
  {| tex_w := tex_w tex; tex_h := tex_h tex; blend_mode := m;
     alpha_mod := alpha_mod tex; pixels := pixels tex |}.

Definition SDL_SetTextureAlphaMod (tex : SDL_Texture) (am : Z) : SDL_Texture :=
  {| tex_w := tex_w tex; tex_h := tex_h tex; blend_mode := blend_mode tex;
     alpha_mod := am; pixels := pixels tex |}.

Definition set_pixel (tex : SDL_Texture) (px py : Z) (c : rgba) : SDL_Texture :=
  {| tex_w := tex_w tex; tex_h := tex_h tex; blend_mode := blend_mode tex;
     alpha_mod := alpha_mod tex; pixels := <[(px, py) := c]> (pixels tex) |}.

Definition SDL_SetRenderTarget (rd : SDL_Renderer) (tex : option SDL_Texture) : SDL_Renderer :=
  {| draw_color := draw_color rd; target := tex; queue := queue rd;
     presented := presented rd |}.

Definition SDL_SetRenderDrawColor (rd : SDL_Renderer) (cr cg cb ca : Z) : SDL_Renderer :=
  {| draw_color := {| red := cr; green := cg; blue := cb; alpha := ca |};
     target := target rd; queue := queue rd; presented := presented rd |}.

Definition enqueue (rd : SDL_Renderer) (c : render_cmd) : SDL_Renderer :=
  {| draw_color := draw_color rd; target := target rd; queue := queue rd ++ [c];
     presented := presented rd |}.

(** [SDL_RenderPoint] takes [float] coordinates.  Drawing a point into a
    bound texture stores the draw colour (the renderer's draw blend mode is
    never changed from "none") at the pixel the point falls in; with no
    texture bound the point is queued for the window. *)
Definition SDL_RenderPoint (rd : SDL_Renderer) (fx fy : float32) : SDL_Renderer :=
  match target rd with
  | Some tex =>
      match ftrunc fx, ftrunc fy with
      | Some px, Some py =>
          {| draw_color := draw_color rd;
             target := Some (set_pixel tex px py (draw_color rd));
             queue := queue rd; presented := presented rd |}
      | _, _ => rd
      end
  | None =>
      enqueue rd (Cmd_Points (draw_color rd) [ {| x := fx; y := fy |} ])
  end.

Definition SDL_RenderClear (rd : SDL_Renderer) : SDL_Renderer :=
  enqueue rd (Cmd_Clear (draw_color rd)).
Definition SDL_RenderPoints (rd : SDL_Renderer) (pts : list SDL_FPoint) : SDL_Renderer :=
  enqueue rd (Cmd_Points (draw_color rd) pts).
Definition SDL_RenderGeometry (rd : SDL_Renderer) (vs : list SDL_Vertex) : SDL_Renderer :=
  enqueue rd (Cmd_Geometry vs).
Definition SDL_RenderTexture (rd : SDL_Renderer) (tex : SDL_Texture) (dst : SDL_FRect) : SDL_Renderer :=
  enqueue rd (Cmd_Texture (blend_mode tex) (alpha_mod tex) dst).
Definition SDL_RenderPresent (rd : SDL_Renderer) : SDL_Renderer :=
  {| draw_color := draw_color rd; target := target rd; queue := [];
     presented := presented rd ++ [queue rd] |}.

(** *** The glow texture *)

(** The cast [(Uint8)] of a float: truncation toward zero.  The cast is
    undefined in C outside [[0, 255]] and for non-finite values; the
    theorems show that it is only ever applied inside that range. *)
Definition Uint8_of_float (f : float32) : Z :=
  match ftrunc f with
  | Some z => z mod 256
  | None => 0
  end.

(** The clamped, normalised distance of pixel [(px, py)] from the centre. *)
Definition glow_dist (radius px py : Z) : float32 :=
  let dx := of_Z (px - radius) in
  let dy := of_Z (py - radius) in
  let dist := fdiv (fsqrt (fadd (fmul dx dx) (fmul dy dy))) (of_Z radius) in
  if fgt dist (of_Z 1) then of_Z 1 else dist.

(** The float that the pixel's alpha is cast from. *)
Definition glow_level (radius px py : Z) : float32 :=
  fmul (fsub (of_Z 1) (glow_dist radius px py)) (of_Z 255).

Definition glow_alpha (radius px py : Z) : Z :=
  Uint8_of_float (glow_level radius px py).

Definition glow_pixel (radius : Z) (rd : SDL_Renderer) (py px : Z) : SDL_Renderer :=
  let alpha := glow_alpha radius px py in
  let rd := SDL_SetRenderDrawColor rd 255 255 200 alpha in
  SDL_RenderPoint rd (of_Z px) (of_Z py).

(** The colour that pass of the loop stores at [(px, py)]. *)
Definition glow_color (radius px py : Z) : rgba :=
  {| red := 255; green := 255; blue := 200; alpha := glow_alpha radius px py |}.

Definition glow_row (radius : Z) (rd : SDL_Renderer) (py : Z) : SDL_Renderer :=
  foldl (fun rd px => glow_pixel radius rd py px) rd (seqZ 0 (radius * 2)).

(** [create_glow_texture], given the answer of its [SDL_CreateTexture]
    call.  The result is not checked: with [NULL] the blend mode call
    fails, [SDL_SetRenderTarget(r, NULL)] selects the window, the loops draw
    on the window and [NULL] is returned. *)
Definition create_glow_texture_with (created : bool) (rd : SDL_Renderer) (radius : Z)
    : option SDL_Texture * SDL_Renderer :=
  let tex := SDL_CreateTexture created (radius * 2) (radius * 2) in
  let tex := (fun t => SDL_SetTextureBlendMode t SDL_BLENDMODE_ADD) <$> tex in
  let rd := SDL_SetRenderTarget rd tex in
  let rd := foldl (glow_row radius) rd (seqZ 0 (radius * 2)) in
  (target rd, SDL_SetRenderTarget rd None).

(** The call in which the library has a texture to give. *)
Definition create_glow_texture (rd : SDL_Renderer) (radius : Z) : option SDL_Texture * SDL_Renderer :=
  create_glow_texture_with true rd radius.

(** The square of a pixel's distance from the centre, in pixels. *)
Definition sqdist (radius px py : Z) : Z :=
  (px - radius) * (px - radius) + (py - radius) * (py - radius).

(** The clamped distance and the alpha as the loop body computes them from
    a pixel at squared distance [n]. *)
Definition dist_by_sq (radius n : Z) : float32 :=
  let dist := fdiv (fsqrt (of_Z n)) (of_Z radius) in
  if fgt dist (of_Z 1) then of_Z 1 else dist.

Definition alpha_by_sq (radius n : Z) : Z :=
  Uint8_of_float (fmul (fsub (of_Z 1) (dist_by_sq radius n)) (of_Z 255)).

(** An integer that orders finite floats of exponent at least -149 as
    their values do. *)
Definition fkey (f : float32) : Z := Zscale (-149) (mant f) (expo f).

Definition keyed (f : float32) : bool :=
  match f with
  | S754_zero _ => true
  | S754_finite _ _ e => -149 <=? e
  | _ => false
  end.

(** What is checked of one pixel: the float cast to [Uint8] is finite with
    its sign bit clear and truncates into [[0, 255]], and distance and
    alpha are those of the pixel's squared distance. *)
Definition glow_pixel_check (radius px py : Z) : bool :=
  nonneg_finite (glow_level radius px py) &&
  match ftrunc (glow_level radius px py) with
  | Some t => (0 <=? t) && (t <=? 255) && (glow_alpha radius px py =? t)
  | None => false
  end &&
  (glow_alpha radius px py =? alpha_by_sq radius (sqdist radius px py)) &&
  keyed (glow_dist radius px py) &&
  (fkey (glow_dist radius px py) =? fkey (dist_by_sq radius (sqdist radius px py))).

(** What is checked of one squared distance against the next. *)
Definition glow_step_check (radius n : Z) : bool :=
  (alpha_by_sq radius (n + 1) <=? alpha_by_sq radius n) &&
  keyed (dist_by_sq radius n) &&
  (fkey (dist_by_sq radius n) <=? fkey (dist_by_sq radius (n + 1))) &&
  ((n <? radius * radius) || (alpha_by_sq radius n =? 0)).

(** *** Application state *)

Record app_state := {
  renderer : SDL_Renderer;
  last_time : Z;
  points : list SDL_FPoint;
  point_speeds : list float32;
  glowTex : option SDL_Texture;
  rand : rand_state
}.

Definition Uint64_of (z : Z) : Z := z mod 2 ^ 64.

Definition zero : float32 := S754_zero false.

(** The program's static storage before [SDL_AppInit] runs. *)
Definition static_state (gen : rand_state) : app_state :=
  {| renderer := {| draw_color := {| red := 0; green := 0; blue := 0; alpha := 0 |};
                    target := None; queue := []; presented := [] |};
     last_time := 0;
     points := replicate NUM_POINTS {| x := zero; y := zero |};
     point_speeds := replicate NUM_POINTS zero;
     glowTex := None;
     rand := gen |}.

Definition with_renderer (st : app_state) (rd : SDL_Renderer) : app_state :=
  {| renderer := rd; last_time := last_time st; points := points st;
     point_speeds := point_speeds st; glowTex := glowTex st; rand := rand st |}.

Definition with_last_time (st : app_state) (t : Z) : app_state :=
  {| renderer := renderer st; last_time := t; points := points st;
     point_speeds := point_speeds st; glowTex := glowTex st; rand := rand st |}.

Definition with_glowTex (st : app_state) (tex : option SDL_Texture) : app_state :=
  {| renderer := renderer st; last_time := last_time st; points := points st;
     point_speeds := point_speeds st; glowTex := tex; rand := rand st |}.

Definition with_stars (st : app_state) (pts : list SDL_FPoint) (speeds : list float32)
    (gen : rand_state) : app_state :=
  {| renderer := renderer st; last_time := last_time st; points := pts;
     point_speeds := speeds; glowTex := glowTex st; rand := gen |}.

(** [MIN_PIXELS_PER_SECOND + (SDL_randf() * (MAX_PIXELS_PER_SECOND -
    MIN_PIXELS_PER_SECOND))], the expression both assignments to
    [point_speeds[i]] evaluate. *)
Definition random_speed (u : float32) : float32 :=
  fadd (of_Z MIN_PIXELS_PER_SECOND)
       (fmul u (of_Z (MAX_PIXELS_PER_SECOND - MIN_PIXELS_PER_SECOND))).

(** One pass of the seeding loop of [SDL_AppInit]. *)
Definition seed_point (st : app_state) (i : nat) : app_state :=
  let '(u1, g1) := SDL_randf (rand st) in
  let '(u2, g2) := SDL_randf g1 in
  let '(u3, g3) := SDL_randf g2 in
  with_stars st
    (<[i := {| x := fmul u1 (of_Z WINDOW_WIDTH); y := fmul u2 (of_Z WINDOW_HEIGHT) |}]> (points st))
    (<[i := random_speed u3]> (point_speeds st))
    g3.

(** What the library answers during [SDL_AppInit]. *)
Record init_outcomes := {
  init_succeeds : bool;
  window_and_renderer_created : bool;
  texture_created : bool
}.

Definition SDL_AppInit (o : init_outcomes) (ticks : Z) (st : app_state)
    : SDL_AppResult * app_state :=
  if negb (init_succeeds o) then (SDL_APP_FAILURE, st)
  else if negb (window_and_renderer_created o) then (SDL_APP_FAILURE, st)
  else
    let '(tex, rd) := create_glow_texture_with (texture_created o) (renderer st) 40 in
    let st := with_glowTex (with_renderer st rd) tex in
    (* set up the data for a bunch of points. *)
    let st := foldl seed_point st (seq 0 NUM_POINTS) in
    let st := with_last_time st (Uint64_of ticks) in
    (SDL_APP_CONTINUE, st).

(** *** Events *)

Definition SDL_EVENT_QUIT : Z := 256.

Record SDL_Event := { type : Z }.

Definition SDL_AppEvent (st : app_state) (event : SDL_Event) : SDL_AppResult :=
  if type event =? SDL_EVENT_QUIT then SDL_APP_SUCCESS
  else SDL_APP_CONTINUE.

(** *** One frame *)

(** The time step: [((float)(now - last_time)) / 1000.0f] on [Uint64]
    tick counts. *)
Definition elapsed_seconds (now last : Z) : float32 :=
  fdiv (of_Z (Uint64_of (now - last))) (of_Z 1000).

(** The wrap test on an advanced point. *)
Definition out_of_window (p : SDL_FPoint) : bool :=
  fge (x p) (of_Z WINDOW_WIDTH) || fge (y p) (of_Z WINDOW_HEIGHT).

(** The point after [points[i].x += distance; points[i].y += distance]. *)
Definition advance (p : SDL_FPoint) (dist : float32) : SDL_FPoint :=
  {| x := fadd (x p) dist; y := fadd (y p) dist |}.

(** One pass of the "Move stars" loop. *)
Definition move_star (elapsed : float32) (st : app_state) (i : nat) : app_state :=
  match points st !! i, point_speeds st !! i with
  | Some p, Some speed =>
      let dist := fmul elapsed speed in
      let p1 := advance p dist in
      if out_of_window p1 then
        let '(side, g1) := SDL_rand 2 (rand st) in
        let '(u, g2) := SDL_randf g1 in
        let p2 :=
          if negb (side =? 0)
          then {| x := fmul u (of_Z WINDOW_WIDTH); y := zero |}
          else {| x := zero; y := fmul u (of_Z WINDOW_HEIGHT) |} in
        let '(u', g3) := SDL_randf g2 in
        with_stars st (<[i := p2]> (points st)) (<[i := random_speed u']> (point_speeds st)) g3
      else
        with_stars st (<[i := p1]> (points st)) (point_speeds st) (rand st)
  | _, _ => st
  end.

Definition move_stars (elapsed : float32) (st : app_state) : app_state :=
  foldl (move_star elapsed) st (seq 0 NUM_POINTS).

Section Frame.
(** [SDL_sinf] and [SDL_cosf] belong to the library. *)
Variables SDL_sinf SDL_cosf : float32 -> float32.

Definition vertex (p : float32 * float32) (cr cg cb ca : Z) : SDL_Vertex :=
  {| position := {| x := fst p; y := snd p |};
     color := {| col_r := of_Z cr; col_g := of_Z cg; col_b := of_Z cb; col_a := of_Z ca |};
     tex_coord := {| x := of_Z 0; y := of_Z 0 |} |}.

Definition square (px py side : float32) : SDL_FRect :=
  {| rect_x := px; rect_y := py; rect_w := side; rect_h := side |}.

(** A copy of the glow texture; a null texture draws nothing. *)
Definition render_glow (rd : SDL_Renderer) (tex : option SDL_Texture) (dst : SDL_FRect)
    : SDL_Renderer :=
  match tex with
  | Some t => SDL_RenderTexture rd t dst
  | None => rd
  end.

(** The drawing half of [SDL_AppIterate], after the stars have moved. *)
Definition draw_frame (now : Z) (st : app_state) : app_state :=
  let F32 := binary32_arith SDL_sinf SDL_cosf in
  (* Clear screen *)
  let rd := SDL_SetRenderDrawColor (renderer st) 0 0 0 255 in
  let rd := SDL_RenderClear rd in
  (* Draw stars *)
  let rd := SDL_SetRenderDrawColor rd 255 255 255 255 in
  let rd := SDL_RenderPoints rd (points st) in
  (* Ship center *)
  let cx := fmul (of_Z WINDOW_WIDTH) (of_ratio 1 2) in
  let cy := fmul (of_Z WINDOW_HEIGHT) (of_ratio 1 2) in
  let size := of_Z 20 in
  (* Ship vertices (triangle) *)
  let '(p1, p2, p3) := ship_vertices (A := F32) cx cy size in
  (* Rotation + wobble *)
  let base_angle := fdiv (SFopp SDL_PI_F) (of_Z 4) in
  let wobble := fmul (SDL_sinf (fmul (of_Z now) (of_ratio 5 1000))) (of_ratio 1 10) in
  let angle := fadd base_angle wobble in
  let p1 := rotate_point (A := F32) cx cy p1 angle in
  let p2 := rotate_point (A := F32) cx cy p2 angle in
  let p3 := rotate_point (A := F32) cx cy p3 angle in
  (* Thruster position (middle of base) *)
  let tx := fmul (fadd (fst p2) (fst p3)) (of_ratio 1 2) in
  let ty := fmul (fadd (snd p2) (snd p3)) (of_ratio 1 2) in
  (* Thruster flame flicker animation *)
  let flame_len :=
    fadd (of_Z 25) (fmul (SDL_sinf (fmul (of_Z now) (of_ratio 2 100))) (of_Z 6)) in
  let fx := fsub tx (fmul (SDL_cosf angle) flame_len) in
  let fy := fsub ty (fmul (SDL_sinf angle) flame_len) in
  (* Flame triangle *)
  let flame :=
    [ vertex (tx, ty) 255 100 30 255; vertex p2 255 200 30 255; vertex p3 255 200 30 255 ] in
  let rd := SDL_RenderGeometry rd flame in
  (* Draw ship *)
  let ship :=
    [ vertex p1 0 255 0 255; vertex p2 0 200 0 255; vertex p3 0 200 0 255 ] in
  let rd := SDL_RenderGeometry rd ship in
  (* Thruster glow light *)
  let glowDest := square (fsub fx (of_Z 40)) (fsub fy (of_Z 40)) (of_Z 80) in
  let rd := render_glow rd (glowTex st) glowDest in
  (* Ship body glow (soft lighting) *)
  let shipGlow := square (fsub cx (of_Z 35)) (fsub cy (of_Z 35)) (of_Z 70) in
  let rd := render_glow rd (glowTex st) shipGlow in
  (* Ambient faint background bloom *)
  let ambient := square (fsub cx (of_Z 120)) (fsub cy (of_Z 120)) (of_Z 240) in
  let rd := render_glow rd (glowTex st) ambient in
  let tex := (fun t => SDL_SetTextureAlphaMod t 40) <$> glowTex st in
  let rd := SDL_RenderPresent rd in
  with_glowTex (with_renderer st rd) tex.

Definition SDL_AppIterate (ticks : Z) (st : app_state) : SDL_AppResult * app_state :=
  let now := Uint64_of ticks in
  let elapsed := elapsed_seconds now (last_time st) in
  (* Move stars *)
  let st := move_stars elapsed st in
  let st := with_last_time st now in
  (SDL_APP_CONTINUE, draw_frame now st).

(** *** The callback loop

    SDL calls [SDL_AppInit] once, then on every pass hands the pending
    events to [SDL_AppEvent] and calls [SDL_AppIterate], until a callback
    returns something other than [SDL_APP_CONTINUE]. *)

Record pass := { events : list SDL_Event; ticks_at : Z }.

Definition continues (res : SDL_AppResult) : bool :=
  match res with SDL_APP_CONTINUE => true | _ => false end.

Fixpoint main_loop (st : app_state) (passes : list pass) : app_state :=
  match passes with
  | [] => st
  | p :: rest =>
      if forallb (fun ev => continues (SDL_AppEvent st ev)) (events p) then
        let '(res, st') := SDL_AppIterate (ticks_at p) st in
        if continues res then main_loop st' rest else st'
      else st
  end.

(** A run, given what the library answers during [SDL_AppInit]: the loop
    is entered only when [SDL_AppInit] returns [SDL_APP_CONTINUE]. *)
Definition run_with (o : init_outcomes) (gen : rand_state) (ticks : Z) (passes : list pass)
    : app_state :=
  let '(res, st) := SDL_AppInit o ticks (static_state gen) in
  if continues res then main_loop st passes else st.

(** A run in which initialisation succeeds and the glow texture is
    created. *)
Definition run (gen : rand_state) (ticks : Z) (passes : list pass) : app_state :=
  main_loop
    (snd (SDL_AppInit {| init_succeeds := true; window_and_renderer_created := true;
                         texture_created := true |}
                      ticks (static_state gen)))
    passes.
End Frame.

(** The alpha modulation of each texture copy in a presented frame. *)
Definition copy_alphas (frame : list render_cmd) : list Z :=
  omap (fun c => match c with Cmd_Texture _ am _ => Some am | _ => None end) frame.

(** *** Properties of the stars *)

(** [0 <= c < bound] as the program's comparisons see it. *)
Definition within (bound : Z) (c : float32) : bool :=
  fle zero c && flt c (of_Z bound).

Definition in_window (p : SDL_FPoint) : bool :=
  within WINDOW_WIDTH (x p) && within WINDOW_HEIGHT (y p).

Definition speed_in_range (v : float32) : bool :=
  fle (of_Z MIN_PIXELS_PER_SECOND) v && fle v (of_Z MAX_PIXELS_PER_SECOND).

(** The coordinate is [+0] or positive finite, and below the bound. *)
Definition coord_ok (bound : Z) (c : float32) : bool :=
  nonneg_finite c && flt c (of_Z bound).

Definition point_ok (p : SDL_FPoint) : bool :=
  coord_ok WINDOW_WIDTH (x p) && coord_ok WINDOW_HEIGHT (y p).

(** The points a presented frame draws. *)
Definition frame_points (frame : list render_cmd) : list SDL_FPoint :=
  concat (omap (fun c => match c with Cmd_Points _ pts => Some pts | _ => None end) frame).

Record stars_ok (st : app_state) : Prop := {
  points_length : length (points st) = NUM_POINTS;
  speeds_length : length (point_speeds st) = NUM_POINTS;
  points_ok : Forall (fun p => point_ok p = true) (points st);
  speeds_ok : Forall (fun v => speed_in_range v = true) (point_speeds st);
  last_time_Uint64 : 0 <= last_time st < 2 ^ 64
}.

(** Nothing is left in the window's queue between frames, and every frame
    presented so far drew its points inside the window. *)
Record frames_ok (st : app_state) : Prop := {
  queue_empty : queue (renderer st) = [];
  frames_in_window :
    Forall (fun frame => Forall (fun p => in_window p = true) (frame_points frame))
           (presented (renderer st))
}.

(** The glow texture exists; before the first frame its alpha modulation
    is the one it was created with, afterwards it is 40 and every frame but
    the first copied the texture three times at 40. *)
Definition glow_ok (st : app_state) : Prop :=
  exists tex, glowTex st = Some tex /\
    match presented (renderer st) with
    | [] => alpha_mod tex = 255
    | _ :: later =>
        alpha_mod tex = 40 /\
        Forall (fun frame => copy_alphas frame = [40; 40; 40]) later
    end.

Record app_ok (st : app_state) : Prop := {
  ok_stars : stars_ok st;
  ok_frames : frames_ok st;
  ok_glow : glow_ok st
}.

(** The command a glow copy queues: none for a null texture. *)
Definition glow_cmds (tex : option SDL_Texture) (dst : SDL_FRect) : list render_cmd :=
  match tex with
  | Some t => [Cmd_Texture (blend_mode t) (alpha_mod t) dst]
  | None => []
  end.

(** A sample run: every draw is 1/2, sine and cosine are stand-ins. *)
Definition sample_unit : unit_float := {| uf_val := of_ratio 1 2; uf_ok := eq_refl |}.

Definition sample_gen : rand_state :=
  {| source := fun n => {| as_int := Z.of_nat n; as_float := sample_unit |}; cursor := 0 |}.

Definition no_trig (f : float32) : float32 := S754_zero false.

(** A sample state: every point at (10, 20) moving at 100 pixels per second. *)
Definition sample_state : app_state :=
  with_stars (static_state sample_gen)
    (replicate NUM_POINTS {| x := of_Z 10; y := of_Z 20 |})
    (replicate NUM_POINTS (of_Z 100))
    sample_gen.

Definition succeeds : init_outcomes :=
  {| init_succeeds := true; window_and_renderer_created := true; texture_created := true |}.

(** A source that seeds star 0 at [x = 30 + 2 ^ -15 + 2 ^ -19] with
    speed exactly 100. *)
Definition fine_unit : unit_float :=
  {| uf_val := S754_finite false 12582928 (-28); uf_ok := eq_refl |}.

Definition speed_100_unit : unit_float := {| uf_val := of_ratio 70 930; uf_ok := eq_refl |}.

Definition rounding_gen : rand_state :=
  {| source := fun n =>
       match n with
       | 0%nat => {| as_int := 0; as_float := fine_unit |}
       | 2%nat => {| as_int := 0; as_float := speed_100_unit |}
       | _ => {| as_int := Z.of_nat n; as_float := sample_unit |}
       end;
     cursor := 0 |}.

End PointsDemo.

(** ** Notions used in the proofs *)

Module Rounding.
Import Binary32.

(** What a right shift by [k] bits keeps of [M]: the quotient, the bit just
    below it and whether anything lies below that bit. *)
Definition shr_inv (M k : Z) (mrs : shr_record) : Prop :=
  0 <= shr_m mrs /\
  exists t, 0 <= t < 2 ^ k /\
    2 * M = 2 ^ k * (2 * shr_m mrs + Z.b2z (shr_r mrs)) + t /\
    (shr_s mrs = true <-> 0 < t).

(** The mantissa chosen by rounding to nearest, ties to even. *)
Definition rne (mrs : shr_record) : Z :=
  round_nearest_even (shr_m mrs) (loc_of_shr_record mrs).

(** The float built from a rounded mantissa and its exponent. *)
Definition pack (s : bool) (m e : Z) : spec_float :=
  match m with
  | 0 => S754_zero s
  | Zpos p => if e <=? emax - prec then S754_finite s p e else S754_infinity s
  | Zneg _ => S754_nan
  end.

(** The sign a sign bit stands for. *)
Definition sign_R (s : bool) : R := (if s then -1 else 1)%R.

End Rounding.

Module PointsNotions.
Import PointsDemo.

(** Two textures that differ at most in their pixels. *)
Definition same_header (t t' : SDL_Texture) : Prop :=
  tex_w t' = tex_w t /\ tex_h t' = tex_h t /\
  blend_mode t' = blend_mode t /\ alpha_mod t' = alpha_mod t.

End PointsNotions.

(** ** Notions used to describe the loops *)

Module StarNotions.
Import Binary32 PointsDemo.

(** The [k]-th float the random source hands out from the cursor on. *)
Definition draw_at (gen : rand_state) (k : nat) : float32 :=
  uf_val (as_float (source gen (cursor gen + k)%nat)).

(** What the seeding loop stores for star [i] when it starts from [gen]:
    three consecutive draws, for [x], [y] and the speed. *)
Definition seeded_point (gen : rand_state) (i : nat) : SDL_FPoint :=
  {| x := fmul (draw_at gen (3 * i)) (of_Z WINDOW_WIDTH);
     y := fmul (draw_at gen (3 * i + 1)) (of_Z WINDOW_HEIGHT) |}.

Definition seeded_speed (gen : rand_state) (i : nat) : float32 :=
  random_speed (draw_at gen (3 * i + 2)).

(** Whether a star at [fst pv] with speed [snd pv] fails the wrap test
    after [elapsed] seconds. *)
Definition wraps (elapsed : float32) (pv : SDL_FPoint * float32) : bool :=
  out_of_window (advance (fst pv) (fmul elapsed (snd pv))).

(** The number of stars of a state that wrap after [elapsed] seconds. *)
Definition wrapped_stars (elapsed : float32) (st : app_state) : nat :=
  length (List.filter (wraps elapsed) (zip (points st) (point_speeds st))).

(** Where the wrap branch puts a star: on the top edge when [SDL_rand(2)]
    is not zero, on the left edge otherwise. *)
Definition respawned (side : Z) (u : float32) : SDL_FPoint :=
  if negb (side =? 0)
  then {| x := fmul u (of_Z WINDOW_WIDTH); y := zero |}
  else {| x := zero; y := fmul u (of_Z WINDOW_HEIGHT) |}.

(** The vertex lists of the triangles a presented frame draws. *)
Definition frame_geometry (frame : list render_cmd) : list (list SDL_Vertex) :=
  omap (fun c => match c with Cmd_Geometry vs => Some vs | _ => None end) frame.

(** What the loops of [create_glow_texture] queue for the window when no
    texture is bound: one point per pass, row by row, each in the colour
    computed for it. *)
Definition glow_row_points (radius py : Z) : list render_cmd :=
  (fun px => Cmd_Points (glow_color radius px py) [ {| x := of_Z px; y := of_Z py |} ])
    <$> seqZ 0 (radius * 2).

Definition glow_points (radius : Z) : list render_cmd :=
  concat (glow_row_points radius <$> seqZ 0 (radius * 2)).

(** The library answers with which [SDL_Init] and the window succeed. *)
Definition started (created : bool) : init_outcomes :=
  {| init_succeeds := true; window_and_renderer_created := true; texture_created := created |}.

(** *** The ship, with its constants evaluated

    The window centre is (320, 240) and the ship's vertices before
    rotation are (320, 220), (300, 260) and (340, 260). *)

Section Ship.
Variables SDL_sinf SDL_cosf : float32 -> float32.

(** [base_angle + wobble] at tick count [now]. *)
Definition ship_angle (now : Z) : float32 :=
  fadd (fdiv (SFopp SDL_PI_F) (of_Z 4))
       (fmul (SDL_sinf (fmul (of_Z now) (of_ratio 5 1000))) (of_ratio 1 10)).

(** A point rotated about the window centre by the ship's angle. *)
Definition ship_vertex (now : Z) (p : float32 * float32) : float32 * float32 :=
  rotate_point (A := binary32_arith SDL_sinf SDL_cosf) (of_Z 320) (of_Z 240) p (ship_angle now).

Definition ship_apex (now : Z) : float32 * float32 := ship_vertex now (of_Z 320, of_Z 220).
Definition ship_base_left (now : Z) : float32 * float32 := ship_vertex now (of_Z 300, of_Z 260).
Definition ship_base_right (now : Z) : float32 * float32 := ship_vertex now (of_Z 340, of_Z 260).

(** [(tx, ty)]: the middle of the rotated base. *)
Definition thruster (now : Z) : float32 * float32 :=
  (fmul (fadd (fst (ship_base_left now)) (fst (ship_base_right now))) (of_ratio 1 2),
   fmul (fadd (snd (ship_base_left now)) (snd (ship_base_right now))) (of_ratio 1 2)).

Definition flame_len (now : Z) : float32 :=
  fadd (of_Z 25) (fmul (SDL_sinf (fmul (of_Z now) (of_ratio 2 100))) (of_Z 6)).

(** [(fx, fy)]: the flame tip. *)
Definition flame_tip (now : Z) : float32 * float32 :=
  (fsub (fst (thruster now)) (fmul (SDL_cosf (ship_angle now)) (flame_len now)),
   fsub (snd (thruster now)) (fmul (SDL_sinf (ship_angle now)) (flame_len now))).

Definition flame_triangle (now : Z) : list SDL_Vertex :=
  [ vertex (thruster now) 255 100 30 255;
    vertex (ship_base_left now) 255 200 30 255;
    vertex (ship_base_right now) 255 200 30 255 ].

Definition ship_triangle (now : Z) : list SDL_Vertex :=
  [ vertex (ship_apex now) 0 255 0 255;
    vertex (ship_base_left now) 0 200 0 255;
    vertex (ship_base_right now) 0 200 0 255 ].

(** The 80 by 80 rectangle centred on the flame tip. *)
Definition thruster_glow (now : Z) : SDL_FRect :=
  square (fsub (fst (flame_tip now)) (of_Z 40)) (fsub (snd (flame_tip now)) (of_Z 40)) (of_Z 80).

(** The commands one call of [SDL_AppIterate] queues, given the stars it
    draws and the glow texture it finds. *)
Definition frame_of (now : Z) (stars : list SDL_FPoint) (tex : option SDL_Texture)
    : list render_cmd :=
  [ Cmd_Clear {| red := 0; green := 0; blue := 0; alpha := 255 |};
    Cmd_Points {| red := 255; green := 255; blue := 255; alpha := 255 |} stars;
    Cmd_Geometry (flame_triangle now);
    Cmd_Geometry (ship_triangle now) ] ++
  glow_cmds tex (thruster_glow now) ++
  glow_cmds tex (square (of_Z 285) (of_Z 205) (of_Z 70)) ++
  glow_cmds tex (square (of_Z 200) (of_Z 120) (of_Z 240)).

End Ship.

(** The alpha modulation of the glow texture once these frames have been
    presented: 255 as created, 40 from the first frame on. *)
Definition glow_alpha_mod_after (frames : list (list render_cmd)) : Z :=
  match frames with
  | [] => 255
  | _ :: _ => 40
  end.

(** What is queued for the window between two frames of a run that
    entered the loop, given the frames presented so far: nothing, except
    before the first frame when the glow texture could not be created;
    then the points [create_glow_texture] drew on the window are. *)
Definition pending (created : bool) (frames : list (list render_cmd)) : list render_cmd :=
  match frames with
  | [] => if created then [] else glow_points 40
  | _ :: _ => []
  end.

(** Whether a pass of the callback loop delivers a quit event. *)
Definition has_quit (p : pass) : bool :=
  existsb (fun ev => type ev =? SDL_EVENT_QUIT) (events p).

(** The number of passes before the first one that delivers a quit event. *)
Fixpoint passes_before_quit (passes : list pass) : nat :=
  match passes with
  | [] => 0
  | p :: rest => if has_quit p then 0 else S (passes_before_quit rest)
  end.

(** The mantissa fits in 24 bits and the exponent is not below the
    smallest binary32 exponent (zeros, infinities and NaN pass). *)
Definition representable (f : float32) : bool :=
  match f with
  | S754_finite _ m e => (Zpos m <? 2 ^ 24) && (-149 <=? e)
  | _ => true
  end.

Definition point_representable (p : SDL_FPoint) : bool :=
  representable (x p) && representable (y p).

End StarNotions.

(** * Proofs *)

Import Binary32.

Module Binary32Facts.
Import Rounding.

Lemma digits2_pos_bounds (p : positive) :
  2 ^ (Zpos (digits2_pos p) - 1) <= Zpos p < 2 ^ Zpos (digits2_pos p).
Proof.
  induction p as [p IH | p IH |]; cbn [digits2_pos].
  - rewrite Pos2Z.inj_succ, Z.pow_succ_r by lia.
    replace (Z.succ (Zpos (digits2_pos p)) - 1) with (Z.succ (Zpos (digits2_pos p) - 1)) by lia.
    rewrite Z.pow_succ_r by lia. lia.
  - rewrite Pos2Z.inj_succ, Z.pow_succ_r by lia.
    replace (Z.succ (Zpos (digits2_pos p)) - 1) with (Z.succ (Zpos (digits2_pos p) - 1)) by lia.
    rewrite Z.pow_succ_r by lia. lia.
  - cbn. lia.
Qed.

Lemma pow2_pos (k : Z) : 0 <= k -> 0 < 2 ^ k.
Proof. intros; apply Z.pow_pos_nonneg; lia. Qed.

Lemma pow2_add (a b : Z) : 0 <= a -> 0 <= b -> 2 ^ (a + b) = 2 ^ a * 2 ^ b.
Proof. intros; apply Z.pow_add_r; lia. Qed.

Lemma pow2_le (a b : Z) : 0 <= a <= b -> 2 ^ a <= 2 ^ b.
Proof. intros; apply Z.pow_le_mono_r; lia. Qed.

Lemma pow2_lt (a b : Z) : 0 <= a < b -> 2 ^ a < 2 ^ b.
Proof. intros; apply Z.pow_lt_mono_r; lia. Qed.

Lemma shr_inv_init (M : Z) :
  0 <= M -> shr_inv M 0 (shr_record_of_loc M loc_Exact).
Proof.
  intros HM; split; [exact HM|]. exists 0; cbn. repeat split; try lia; discriminate.
Qed.

Lemma shr_1_inv (M k : Z) (mrs : shr_record) :
  0 <= k -> shr_inv M k mrs -> shr_inv M (k + 1) (shr_1 mrs).
Proof.
  intros Hk [Hm (t & Ht & HM & Hs)].
  destruct mrs as [m r s]; unfold shr_inv; cbn [shr_m shr_r shr_s] in *.
  rewrite pow2_add by lia. change (2 ^ 1) with 2.
  pose proof (pow2_pos k Hk) as HK.
  assert (Hs' : orb r s = true <-> 0 < 2 ^ k * Z.b2z r + t).
  { destruct r, s; cbn [orb Z.b2z];
      (split; intros H;
       [ first [ lia | assert (0 < t) by (apply Hs; reflexivity); lia | discriminate ]
       | first [ reflexivity | apply Hs; lia ] ]). }
  destruct m as [| [p | p |] | p]; cbn [shr_1 shr_m shr_r shr_s Z.b2z]; try lia.
  - split; [lia|]. exists (2 ^ k * Z.b2z r + t).
    repeat split; try apply Hs'; destruct r; cbn in *; lia.
  - split; [lia|]. exists (2 ^ k * Z.b2z r + t).
    repeat split; try apply Hs'; destruct r; cbn in *; lia.
  - split; [lia|]. exists (2 ^ k * Z.b2z r + t).
    repeat split; try apply Hs'; destruct r; cbn in *; lia.
  - split; [lia|]. exists (2 ^ k * Z.b2z r + t).
    repeat split; try apply Hs'; destruct r; cbn in *; lia.
Qed.

Lemma iter_pos_shr_inv (p : positive) :
  forall (M k : Z) (mrs : shr_record),
    0 <= k -> shr_inv M k mrs -> shr_inv M (k + Zpos p) (SpecFloat.iter_pos shr_1 p mrs).
Proof.
  induction p as [p IH | p IH |]; intros M k mrs Hk H; cbn [SpecFloat.iter_pos].
  - replace (k + Zpos p~1) with (k + 1 + Zpos p + Zpos p) by lia.
    apply IH; [lia|]. apply IH; [lia|]. now apply shr_1_inv.
  - replace (k + Zpos p~0) with (k + Zpos p + Zpos p) by lia.
    apply IH; [lia|]. now apply IH.
  - now apply shr_1_inv.
Qed.

Lemma rne_cases (mrs : shr_record) :
  (shr_r mrs = false /\ rne mrs = shr_m mrs) \/
  (shr_r mrs = true /\ shr_s mrs = true /\ rne mrs = shr_m mrs + 1) \/
  (shr_r mrs = true /\ shr_s mrs = false /\
   (rne mrs = shr_m mrs \/ rne mrs = shr_m mrs + 1)).
Proof.
  destruct mrs as [m [] []]; unfold rne; cbn; auto.
  destruct (Z.even m); auto 6.
Qed.

Lemma rne_upper (M k : Z) (mrs : shr_record) (G : Z) :
  0 <= k -> shr_inv M k mrs -> 2 * M < (2 * G + 1) * 2 ^ k -> rne mrs <= G.
Proof.
  intros Hk [Hm (t & Ht & HM & Hs)] HG.
  pose proof (pow2_pos k Hk) as HK.
  assert (H2 : 2 * shr_m mrs + Z.b2z (shr_r mrs) < 2 * G + 1) by nia.
  destruct (rne_cases mrs) as [[Hr ->] | [(Hr & _ & ->) | (Hr & _ & [-> | ->])]];
    rewrite Hr in H2; cbn in H2; lia.
Qed.

Lemma rne_lower (M k : Z) (mrs : shr_record) (G : Z) :
  0 <= k -> shr_inv M k mrs -> (2 * G - 1) * 2 ^ k < 2 * M -> G <= rne mrs.
Proof.
  intros Hk [Hm (t & Ht & HM & Hs)] HG.
  pose proof (pow2_pos k Hk) as HK.
  destruct (rne_cases mrs) as [[Hr ->] | [(Hr & _ & ->) | (Hr & Hs' & Hcase)]];
    rewrite Hr in HM; cbn [Z.b2z] in HM.
  - nia.
  - nia.
  - assert (t = 0).
    { destruct (Z.eq_dec t 0) as [|Hne]; [assumption|].
      assert (shr_s mrs = true) by (apply Hs; lia). congruence. }
    subst t. assert (G <= shr_m mrs) by nia. lia.
Qed.

Lemma fexp_eq (x : Z) : fexp prec emax x = Z.max (x - 24) (-149).
Proof. reflexivity. Qed.

Lemma Zdigits2_bounds (M : Z) :
  0 < M -> 0 < Zdigits2 M /\ 2 ^ (Zdigits2 M - 1) <= M < 2 ^ Zdigits2 M.
Proof.
  destruct M as [|p|p]; try lia. intros _. cbn [Zdigits2].
  split; [lia | apply digits2_pos_bounds].
Qed.

Lemma shr_fexp_exact (M e : Z) :
  0 < M -> e <= fexp prec emax (Zdigits2 M + e) ->
  exists mrs,
    shr_fexp prec emax M e loc_Exact = (mrs, fexp prec emax (Zdigits2 M + e)) /\
    shr_inv M (fexp prec emax (Zdigits2 M + e) - e) mrs.
Proof.
  intros HM Hpre. unfold shr_fexp, shr.
  set (E := fexp prec emax (Zdigits2 M + e)) in *.
  destruct (E - e) as [|p|p] eqn:Hk; try lia.
  - exists (shr_record_of_loc M loc_Exact). split; [f_equal; lia|].
    apply shr_inv_init; lia.
  - exists (SpecFloat.iter_pos shr_1 p (shr_record_of_loc M loc_Exact)).
    split; [f_equal; lia|].
    change (Zpos p) with (0 + Zpos p). apply iter_pos_shr_inv; [lia|].
    apply shr_inv_init; lia.
Qed.

Lemma shr_fexp_renorm (mr E : Z) :
  0 <= mr <= 2 ^ 24 -> -149 <= E ->
  shr_fexp prec emax mr E loc_Exact =
    if mr =? 2 ^ 24 then (Build_shr_record (2 ^ 23) false false, E + 1)
    else (Build_shr_record mr false false, E).
Proof.
  intros Hmr HE. destruct (Z.eqb_spec mr (2 ^ 24)) as [-> | Hne].
  - unfold shr_fexp. change (Zdigits2 (2 ^ 24)) with 25. rewrite fexp_eq.
    replace (Z.max (25 + E - 24) (-149) - E) with 1 by lia. reflexivity.
  - unfold shr_fexp, shr. rewrite fexp_eq.
    assert (Hd : Zdigits2 mr <= 24).
    { destruct (Z.eq_dec mr 0) as [-> | H0]; [cbn; lia|].
      destruct (Zdigits2_bounds mr) as [Hd0 [Hlo _]]; [lia|].
      destruct (Z_le_gt_dec (Zdigits2 mr) 24) as [|Hgt]; [assumption|exfalso].
      assert (2 ^ 24 <= 2 ^ (Zdigits2 mr - 1)) by (apply pow2_le; lia). lia. }
    destruct (Z.max (Zdigits2 mr + E - 24) (-149) - E) eqn:Hk; try lia; reflexivity.
Qed.

(** Rounding an exact positive integer mantissa: the mantissa kept lies
    within half a unit of the shifted input, never exceeds [2 ^ 24], and is
    normal whenever the exponent is above the smallest one. *)
Lemma round_aux_spec (s : bool) (M e : Z) :
  0 < M -> e <= fexp prec emax (Zdigits2 M + e) ->
  exists mr,
    0 <= mr <= 2 ^ 24 /\
    (-149 < fexp prec emax (Zdigits2 M + e) -> 2 ^ 23 <= mr) /\
    (forall G, 2 * M < (2 * G + 1) * 2 ^ (fexp prec emax (Zdigits2 M + e) - e) -> mr <= G) /\
    (forall G, (2 * G - 1) * 2 ^ (fexp prec emax (Zdigits2 M + e) - e) < 2 * M -> G <= mr) /\
    binary_round_aux prec emax s M e loc_Exact =
      if mr =? 2 ^ 24 then pack s (2 ^ 23) (fexp prec emax (Zdigits2 M + e) + 1)
      else pack s mr (fexp prec emax (Zdigits2 M + e)).
Proof.
  intros HM Hpre.
  destruct (shr_fexp_exact M e HM Hpre) as (mrs & Hshr & Hinv).
  destruct (Zdigits2_bounds M HM) as (Hd0 & Hlo & Hhi).
  set (E := fexp prec emax (Zdigits2 M + e)) in *.
  assert (HE : E = Z.max (Zdigits2 M + e - 24) (-149)) by reflexivity.
  set (k := E - e) in *.
  assert (Hk : 0 <= k) by (unfold k; lia).
  pose proof (pow2_pos k Hk) as HK.
  assert (Hup : forall G, 2 * M < (2 * G + 1) * 2 ^ k -> rne mrs <= G)
    by (intros G; now apply rne_upper).
  assert (Hlw : forall G, (2 * G - 1) * 2 ^ k < 2 * M -> G <= rne mrs)
    by (intros G; now apply rne_lower).
  assert (H24 : rne mrs <= 2 ^ 24).
  { apply Hup.
    assert (2 ^ Zdigits2 M <= 2 ^ (k + 24)) by (apply pow2_le; unfold k; lia).
    rewrite pow2_add in H by lia. lia. }
  assert (H0 : 0 <= rne mrs).
  { apply Hlw. lia. }
  exists (rne mrs). repeat split; try assumption.
  - intros Hnorm. apply Hlw.
    assert (Zdigits2 M - 1 = k + 23) by (unfold k; lia).
    rewrite H, pow2_add in Hlo by lia. lia.
  - unfold binary_round_aux. rewrite Hshr. fold (rne mrs).
    rewrite shr_fexp_renorm by lia.
    destruct (rne mrs =? 2 ^ 24); reflexivity.
Qed.

(** *** Comparison at a common exponent *)

Lemma Zscale_base (c c' m e : Z) :
  c' <= c <= e -> Zscale c' m e = Zscale c m e * 2 ^ (c - c').
Proof.
  intros H. unfold Zscale.
  replace (e - c') with ((e - c) + (c - c')) by lia.
  rewrite pow2_add by lia. ring.
Qed.

Lemma Zscale_trans (c c' m e : Z) :
  c' <= c <= e -> Zscale c' (Zscale c m e) c = Zscale c' m e.
Proof.
  intros H. unfold Zscale.
  replace (e - c') with ((e - c) + (c - c')) by lia.
  rewrite pow2_add by lia. ring.
Qed.

Lemma Fcmp_base (c m1 e1 m2 e2 : Z) :
  c <= e1 -> c <= e2 ->
  Fcmp m1 e1 m2 e2 = (Zscale c m1 e1 ?= Zscale c m2 e2).
Proof.
  intros H1 H2. unfold Fcmp.
  rewrite (Zscale_base (Z.min e1 e2) c m1 e1), (Zscale_base (Z.min e1 e2) c m2 e2) by lia.
  apply Zmult_compare_compat_r.
  apply Z.lt_gt, pow2_pos; lia.
Qed.

Lemma Zscale_pos (c m e : Z) : c <= e -> 0 < m -> 0 < Zscale c m e.
Proof.
  intros Hc Hm. unfold Zscale.
  apply Z.mul_pos_pos; [assumption | apply pow2_pos; lia].
Qed.

Lemma fle_finite (c : Z) (m1 : positive) (e1 : Z) (m2 : positive) (e2 : Z) :
  c <= e1 -> c <= e2 ->
  fle (S754_finite false m1 e1) (S754_finite false m2 e2) = true <->
  Zscale c (Zpos m1) e1 <= Zscale c (Zpos m2) e2.
Proof.
  intros H1 H2. unfold fle, fcompare, mant, expo.
  rewrite (Fcmp_base c) by assumption.
  destruct (Z.compare_spec (Zscale c (Zpos m1) e1) (Zscale c (Zpos m2) e2));
    split; intros; try reflexivity; try lia; discriminate.
Qed.

Lemma flt_finite (c : Z) (m1 : positive) (e1 : Z) (m2 : positive) (e2 : Z) :
  c <= e1 -> c <= e2 ->
  flt (S754_finite false m1 e1) (S754_finite false m2 e2) = true <->
  Zscale c (Zpos m1) e1 < Zscale c (Zpos m2) e2.
Proof.
  intros H1 H2. unfold flt, fcompare, mant, expo.
  rewrite (Fcmp_base c) by assumption.
  destruct (Z.compare_spec (Zscale c (Zpos m1) e1) (Zscale c (Zpos m2) e2));
    split; intros; try reflexivity; try lia; discriminate.
Qed.

Lemma flt_zero_finite (s : bool) (m : positive) (e : Z) :
  flt (S754_zero s) (S754_finite false m e) = true.
Proof.
  unfold flt, fcompare, mant, expo. rewrite (Fcmp_base (Z.min 0 e)) by lia.
  pose proof (Zscale_pos (Z.min 0 e) (Zpos m) e). unfold Zscale at 1.
  destruct (Z.compare_spec (0 * 2 ^ (0 - Z.min 0 e)) (Zscale (Z.min 0 e) (Zpos m) e));
    try reflexivity; lia.
Qed.

Lemma flt_fle (x y : spec_float) : flt x y = true -> fle x y = true.
Proof. unfold flt, fle. destruct (fcompare x y) as [[]|]; easy. Qed.

(** *** Rounding stays on the right side of a representable bound *)

Section RoundBounds.
Variables (M e : Z) (Bm : positive) (Be : Z).
Hypothesis HM : 0 < M.
Hypothesis Hpre : e <= fexp prec emax (Zdigits2 M + e).
Hypothesis HBm : 2 ^ 23 <= Zpos Bm < 2 ^ 24.
Hypothesis HBe : -149 <= Be <= 104.

Let c := Z.min e Be.
Let E := fexp prec emax (Zdigits2 M + e).

Lemma round_aux_le :
  2 * Zscale c M e < Zscale c (2 * Zpos Bm + 1) Be ->
  nonneg_finite (binary_round_aux prec emax false M e loc_Exact) = true /\
  fle (binary_round_aux prec emax false M e loc_Exact) (S754_finite false Bm Be) = true.
Proof.
  intros Hv.
  destruct (round_aux_spec false M e HM Hpre) as (mr & Hmr & Hnorm & Hup & _ & Hres).
  destruct (Zdigits2_bounds M HM) as (Hd0 & Hlo & Hhi).
  fold E in Hnorm, Hup, Hres.
  assert (HE : E = Z.max (Zdigits2 M + e - 24) (-149)) by reflexivity.
  assert (Hce : c <= e) by (unfold c; lia).
  assert (HcB : c <= Be) by (unfold c; lia).
  unfold Zscale in Hv.
  pose proof (pow2_pos (e - c) ltac:(lia)) as Ha.
  pose proof (pow2_pos (Be - c) ltac:(lia)) as Hb.
  pose proof (pow2_pos (E - e) ltac:(lia)) as Hk.
  assert (HEc : 2 ^ (E - c) = 2 ^ (E - e) * 2 ^ (e - c)).
  { rewrite <- pow2_add by lia. f_equal; lia. }
  (* the rounded exponent cannot exceed the bound's *)
  assert (HEB : E <= Be).
  { destruct (Z_le_gt_dec E Be) as [|Hgt]; [assumption|exfalso].
    assert (Hd : Zdigits2 M - 1 = (E - e) + 23) by lia.
    rewrite Hd, pow2_add in Hlo by lia.
    assert (HV : 2 ^ (E - c) = 2 ^ (E - Be) * 2 ^ (Be - c)).
    { rewrite <- pow2_add by lia. f_equal; lia. }
    assert (2 ^ 1 <= 2 ^ (E - Be)) by (apply pow2_le; lia).
    change (2 ^ 1) with 2 in *. change (2 ^ 23) with 8388608 in *.
    change (2 ^ 24) with 16777216 in *.
    assert (8388608 * 2 ^ (E - c) <= M * 2 ^ (e - c)) by (rewrite HEc; nia).
    assert (16777216 * 2 ^ (Be - c) <= 8388608 * 2 ^ (E - c)) by (rewrite HV; nia).
    nia. }
  (* value of the kept mantissa against the bound, at exponent [c] *)
  assert (Hval : mr * 2 ^ (E - c) <= Zpos Bm * 2 ^ (Be - c) /\ (mr = 2 ^ 24 -> E < Be)).
  { destruct (Z.eq_dec E Be) as [Heq | Hne].
    - assert (mr <= Zpos Bm).
      { apply Hup. rewrite <- Heq, HEc in Hv. nia. }
      split; [rewrite <- Heq; nia | lia].
    - assert (HV : 2 ^ (Be - e) = 2 ^ (Be - E - 1) * 2 * 2 ^ (E - e)).
      { change 2 with (2 ^ 1) at 3. rewrite <- !pow2_add by lia. f_equal; lia. }
      pose proof (pow2_pos (Be - E - 1) ltac:(lia)) as Hq.
      assert (HG : mr <= 2 ^ 23 * (2 ^ (Be - E - 1) * 2)).
      { apply Hup.
        assert (2 ^ Zdigits2 M <= 2 ^ ((E - e) + 24)) by (apply pow2_le; lia).
        rewrite pow2_add in H by lia.
        change (2 ^ 23) with 8388608. change (2 ^ 24) with 16777216 in *. nia. }
      split; [|lia].
      assert (HW : 2 ^ (Be - c) = 2 ^ (Be - E - 1) * 2 * 2 ^ (E - c)).
      { change 2 with (2 ^ 1) at 3. rewrite <- !pow2_add by lia. f_equal; lia. }
      rewrite HW. pose proof (pow2_pos (E - c) ltac:(lia)).
      change (2 ^ 23) with 8388608 in *. nia. }
  destruct Hval as [Hval Hcarry].
  rewrite Hres. destruct (Z.eqb_spec mr (2 ^ 24)) as [Heq | Hne].
  - specialize (Hcarry Heq). unfold pack. change (2 ^ 23) with 8388608.
    destruct (Z.leb_spec (E + 1) (emax - prec)) as [_|Hbad];
      [|unfold emax, prec in Hbad; lia].
    split; [reflexivity|]. apply (fle_finite c); [lia | lia |].
    unfold Zscale. replace (E + 1 - c) with (1 + (E - c)) by lia.
    rewrite pow2_add by lia. subst mr. change (2 ^ 24) with 16777216 in *.
    change (2 ^ 1) with 2. lia.
  - unfold pack. destruct mr as [|p|p]; try lia.
    + split; [reflexivity|]. apply flt_fle, flt_zero_finite.
    + destruct (Z.leb_spec E (emax - prec)) as [_|Hbad];
        [|unfold emax, prec in Hbad; lia].
      split; [reflexivity|]. apply (fle_finite c); [lia | lia | exact Hval].
Qed.

Lemma round_aux_ge :
  Zscale c (Zpos Bm) Be <= Zscale c M e ->
  nonneg (binary_round_aux prec emax false M e loc_Exact) = true /\
  fle (S754_finite false Bm Be) (binary_round_aux prec emax false M e loc_Exact) = true.
Proof.
  intros Hv.
  destruct (round_aux_spec false M e HM Hpre) as (mr & Hmr & Hnorm & _ & Hlw & Hres).
  destruct (Zdigits2_bounds M HM) as (Hd0 & Hlo & Hhi).
  fold E in Hnorm, Hlw, Hres.
  assert (HE : E = Z.max (Zdigits2 M + e - 24) (-149)) by reflexivity.
  assert (Hce : c <= e) by (unfold c; lia).
  assert (HcB : c <= Be) by (unfold c; lia).
  unfold Zscale in Hv.
  pose proof (pow2_pos (e - c) ltac:(lia)) as Ha.
  pose proof (pow2_pos (Be - c) ltac:(lia)) as Hb.
  pose proof (pow2_pos (E - e) ltac:(lia)) as Hk.
  pose proof (pow2_pos (E - c) ltac:(lia)) as Hec.
  assert (HEc : 2 ^ (E - c) = 2 ^ (E - e) * 2 ^ (e - c)).
  { rewrite <- pow2_add by lia. f_equal; lia. }
  assert (Hval : Zpos Bm * 2 ^ (Be - c) <= mr * 2 ^ (E - c)).
  { destruct (Z_le_gt_dec E Be) as [Hle|Hgt].
    - assert (HW : 2 ^ (Be - c) = 2 ^ (Be - E) * 2 ^ (E - c)).
      { rewrite <- pow2_add by lia. f_equal; lia. }
      pose proof (pow2_pos (Be - E) ltac:(lia)) as Hq.
      assert (Zpos Bm * 2 ^ (Be - E) <= mr).
      { apply Hlw. rewrite HW, HEc in Hv. nia. }
      rewrite HW. nia.
    - assert (HV : 2 ^ (E - c) = 2 ^ (E - Be - 1) * 2 * 2 ^ (Be - c)).
      { change 2 with (2 ^ 1) at 3. rewrite <- !pow2_add by lia. f_equal; lia. }
      pose proof (pow2_pos (E - Be - 1) ltac:(lia)) as Hq.
      specialize (Hnorm ltac:(lia)). rewrite HV.
      change (2 ^ 23) with 8388608 in *. change (2 ^ 24) with 16777216 in *. nia. }
  assert (Hmr0 : 0 < mr) by nia.
  rewrite Hres. destruct (Z.eqb_spec mr (2 ^ 24)) as [Heq | Hne].
  - unfold pack. change (2 ^ 23) with 8388608.
    destruct (Z.leb_spec (E + 1) (emax - prec)) as [_|_]; [|split; reflexivity].
    split; [reflexivity|]. apply (fle_finite c); [lia | lia |].
    unfold Zscale. replace (E + 1 - c) with (1 + (E - c)) by lia.
    rewrite pow2_add by lia. subst mr. change (2 ^ 24) with 16777216 in *.
    change (2 ^ 1) with 2. lia.
  - unfold pack. destruct mr as [|p|p]; try lia.
    destruct (Z.leb_spec E (emax - prec)) as [_|_]; [|split; reflexivity].
    split; [reflexivity|]. apply (fle_finite c); [lia | lia | exact Hval].
Qed.
End RoundBounds.

(** *** Signs *)

Lemma shr_1_nonneg (mrs : shr_record) : 0 <= shr_m mrs -> 0 <= shr_m (shr_1 mrs).
Proof. destruct mrs as [[|[p|p|]|p] r s]; cbn; lia. Qed.

Lemma iter_pos_shr_nonneg (p : positive) :
  forall mrs, 0 <= shr_m mrs -> 0 <= shr_m (SpecFloat.iter_pos shr_1 p mrs).
Proof.
  induction p as [p IH | p IH |]; intros mrs H; cbn [SpecFloat.iter_pos];
    auto using shr_1_nonneg.
Qed.

Lemma shr_fexp_nonneg (m e : Z) (l : location) :
  0 <= m -> 0 <= shr_m (fst (shr_fexp prec emax m e l)).
Proof.
  intros Hm. unfold shr_fexp, shr.
  assert (H0 : 0 <= shr_m (shr_record_of_loc m l)) by (destruct l as [|[]]; exact Hm).
  destruct (fexp prec emax (Zdigits2 m + e) - e); cbn [fst]; auto using iter_pos_shr_nonneg.
Qed.

Lemma round_nearest_even_nonneg (m : Z) (l : location) :
  0 <= m -> 0 <= round_nearest_even m l.
Proof.
  intros Hm. destruct l as [|[]]; cbn; try lia. destruct (Z.even m); lia.
Qed.

Lemma round_aux_nonneg (m e : Z) (l : location) :
  0 <= m -> nonneg (binary_round_aux prec emax false m e l) = true.
Proof.
  intros Hm. unfold binary_round_aux.
  pose proof (shr_fexp_nonneg m e l Hm) as H1.
  destruct (shr_fexp prec emax m e l) as [mrs' e'] eqn:E1. cbn [fst] in H1.
  pose proof (shr_fexp_nonneg (round_nearest_even (shr_m mrs') (loc_of_shr_record mrs'))
                e' loc_Exact (round_nearest_even_nonneg _ _ H1)) as H2.
  destruct (shr_fexp prec emax _ e' loc_Exact) as [mrs'' e''] eqn:E2. cbn [fst] in H2.
  destruct (shr_m mrs'') as [|p|p]; try lia; [reflexivity|].
  destruct (e'' <=? emax - prec); reflexivity.
Qed.

Lemma binary_round_nonneg (m : positive) (e : Z) :
  nonneg (binary_round prec emax false m e) = true.
Proof.
  unfold binary_round. destruct (shl_align m e _) as [mz ez].
  apply round_aux_nonneg; lia.
Qed.

Lemma of_Z_nonneg (z : Z) : 0 <= z -> nonneg (of_Z z) = true.
Proof.
  intros Hz. unfold of_Z, binary_normalize. destruct z as [|p|p]; try lia;
    [reflexivity | apply binary_round_nonneg].
Qed.

Lemma fmul_nonneg (u : spec_float) (m : positive) (e : Z) :
  nonneg u = true -> nonneg (fmul u (S754_finite false m e)) = true.
Proof.
  destruct u as [[]|[]| |[] mu eu]; try discriminate; intros _; try reflexivity.
  apply round_aux_nonneg; lia.
Qed.

Lemma fadd_nonneg (u v : spec_float) :
  nonneg_finite u = true -> nonneg v = true -> nonneg (fadd u v) = true.
Proof.
  destruct u as [[]|[]| |[] mu eu]; try discriminate; intros _;
    destruct v as [[]|[]| |[] mv ev]; try discriminate; intros _; try reflexivity.
  unfold fadd, SFadd, cond_Zopp, binary_normalize. cbn [Z.add].
  apply binary_round_nonneg.
Qed.

Lemma fdiv_nonneg (u : spec_float) (m : positive) (e : Z) :
  nonneg u = true -> nonneg (fdiv u (S754_finite false m e)) = true.
Proof.
  destruct u as [[]|[]| |[] mu eu]; try discriminate; intros _; try reflexivity.
  unfold fdiv, SFdiv, SFdiv_core_binary.
  set (m' := match _ - _ with 0 => Zpos mu | Zpos _ => _ | Zneg _ => 0 end).
  assert (Hm' : 0 <= m').
  { unfold m'. destruct (_ - _); try lia. apply Z.shiftl_nonneg; lia. }
  pose proof (Z.div_pos m' (Zpos m) Hm' ltac:(lia)) as Hq.
  unfold Z.div in Hq. destruct (Z.div_eucl m' (Zpos m)) as [q rm].
  cbn [xorb]. apply round_aux_nonneg. exact Hq.
Qed.

(** *** Ordering facts *)

Lemma fle_finite_zero (m : positive) (e : Z) (s : bool) :
  fle (S754_finite false m e) (S754_zero s) = false.
Proof.
  unfold fle, fcompare, mant, expo. rewrite (Fcmp_base (Z.min 0 e)) by lia.
  pose proof (Zscale_pos (Z.min 0 e) (Zpos m) e). unfold Zscale at 2.
  destruct (Z.compare_spec (Zscale (Z.min 0 e) (Zpos m) e) (0 * 2 ^ (0 - Z.min 0 e)));
    try reflexivity; lia.
Qed.

Lemma fle_zero_nonneg_finite (u : spec_float) :
  nonneg_finite u = true -> fle (S754_zero false) u = true.
Proof.
  destruct u as [[]|[]| |[] mu eu]; try discriminate; intros _; [reflexivity|].
  apply flt_fle, flt_zero_finite.
Qed.

(** A value with its sign bit clear that is not [>=] a positive bound is
    finite and below the bound. *)
Lemma not_fge_flt (u : spec_float) (m : positive) (e : Z) :
  nonneg u = true -> fge u (S754_finite false m e) = false ->
  nonneg_finite u = true /\ flt u (S754_finite false m e) = true.
Proof.
  unfold fge.
  destruct u as [[]|[]| |[] mu eu]; try discriminate; intros _ H.
  - split; [reflexivity | apply flt_zero_finite].
  - split; [reflexivity|].
    apply (flt_finite (Z.min eu e)); try lia.
    destruct (Z_lt_ge_dec (Zscale (Z.min eu e) (Zpos mu) eu) (Zscale (Z.min eu e) (Zpos m) e))
      as [|Hge]; [assumption|exfalso].
    assert (fle (S754_finite false m e) (S754_finite false mu eu) = true)
      by (apply (fle_finite (Z.min eu e)); lia).
    congruence.
Qed.

Lemma flt_not_fge (u : spec_float) (m : positive) (e : Z) :
  nonneg_finite u = true -> flt u (S754_finite false m e) = true ->
  fge u (S754_finite false m e) = false.
Proof.
  unfold fge.
  destruct u as [[]|[]| |[] mu eu]; try discriminate; intros _ H.
  - apply fle_finite_zero.
  - apply (flt_finite (Z.min eu e)) in H; try lia.
    destruct (fle _ _) eqn:Hle; [|reflexivity].
    apply (fle_finite (Z.min eu e)) in Hle; lia.
Qed.

Lemma fle_flt_pred (u : spec_float) (m : positive) (e : Z) :
  1 < Zpos m ->
  nonneg_finite u = true -> fle u (S754_finite false (Pos.pred m) e) = true ->
  flt u (S754_finite false m e) = true.
Proof.
  intros Hm.
  destruct u as [[]|[]| |[] mu eu]; try discriminate; intros _ H.
  - apply flt_zero_finite.
  - apply (fle_finite (Z.min eu e)) in H; try lia.
    apply (flt_finite (Z.min eu e)); try lia.
    unfold Zscale in *. rewrite Pos2Z.inj_pred in H by lia.
    pose proof (pow2_pos (e - Z.min eu e) ltac:(lia)). nia.
Qed.

(** *** Multiplying by a number drawn from [[0, 1)] *)

Lemma unit_finite_bounds (m : positive) (e : Z) :
  is_unit (S754_finite false m e) = true ->
  e < 0 /\ Zpos m + 1 <= 2 ^ (- e) /\ Zpos m + 1 <= 2 ^ 24.
Proof.
  unfold is_unit. cbn [nonneg_finite valid_binary andb].
  intros H. apply andb_prop in H as [Hv Hlt].
  unfold bounded, canonical_mantissa in Hv. apply andb_prop in Hv as [Hc _].
  apply Z.eqb_eq in Hc. rewrite fexp_eq in Hc.
  destruct (digits2_pos_bounds m) as [_ Hhi].
  assert (H24 : Zpos m < 2 ^ 24).
  { assert (2 ^ Zpos (digits2_pos m) <= 2 ^ 24) by (apply pow2_le; lia). lia. }
  change (of_Z 1) with (S754_finite false 8388608 (-23)) in Hlt.
  apply (flt_finite (Z.min e (-23))) in Hlt; try lia. unfold Zscale in Hlt.
  destruct (Z_lt_ge_dec e (-23)) as [Hlo | Hhi'].
  - rewrite Z.min_l in Hlt by lia.
    replace (e - e) with 0 in Hlt by lia.
    assert (Hp : 2 ^ (- e) = 2 ^ 23 * 2 ^ (-23 - e)).
    { rewrite <- pow2_add by lia. f_equal; lia. }
    change (2 ^ 0) with 1 in Hlt. change (2 ^ 23) with 8388608 in Hp. lia.
  - rewrite Z.min_r in Hlt by lia.
    replace (-23 - -23) with 0 in Hlt by lia. change (2 ^ 0) with 1 in Hlt.
    pose proof (pow2_pos (e - -23) ltac:(lia)) as Hq.
    assert (He : e < 0).
    { destruct (Z_lt_ge_dec e 0) as [|Hpos]; [assumption|exfalso].
      assert (2 ^ 23 <= 2 ^ (e - -23)) by (apply pow2_le; lia).
      change (2 ^ 23) with 8388608 in *. nia. }
    assert (Hp : 2 ^ 23 = 2 ^ (e - -23) * 2 ^ (- e)).
    { rewrite <- pow2_add by lia. f_equal; lia. }
    pose proof (pow2_pos (- e) ltac:(lia)).
    change (2 ^ 23) with 8388608 in *. repeat split; try lia. nia.
Qed.

(** The product of a number in [[0, 1)] with a normal float that is not a
    power of two rounds to a float strictly below that factor. *)
Lemma fmul_unit_lt (u : spec_float) (Bm : positive) (Be : Z) :
  is_unit u = true ->
  2 ^ 23 < Zpos Bm < 2 ^ 24 -> -149 <= Be <= 104 ->
  nonneg_finite (fmul u (S754_finite false Bm Be)) = true /\
  flt (fmul u (S754_finite false Bm Be)) (S754_finite false Bm Be) = true.
Proof.
  intros Hu HBm HBe.
  destruct u as [[]|[]| |[] m e]; try discriminate Hu.
  - split; [reflexivity | apply flt_zero_finite].
  - destruct (unit_finite_bounds m e Hu) as (He & HmP & Hm24).
    change (2 ^ 23) with 8388608 in *. change (2 ^ 24) with 16777216 in *.
    unfold fmul, SFmul. cbn [xorb].
    assert (HM : 0 < Zpos (m * Bm)) by lia.
    assert (Hpre : e + Be <= fexp prec emax (Zdigits2 (Zpos (m * Bm)) + (e + Be))).
    { rewrite fexp_eq. destruct (Zdigits2_bounds _ HM) as (_ & _ & Hhi).
      assert (23 < Zdigits2 (Zpos (m * Bm))); [|lia].
      destruct (Z_lt_ge_dec 23 (Zdigits2 (Zpos (m * Bm)))) as [|Hsmall]; [assumption|exfalso].
      destruct (Zdigits2_bounds _ HM) as (Hd0 & _ & _).
      assert (2 ^ Zdigits2 (Zpos (m * Bm)) <= 2 ^ 23) by (apply pow2_le; lia).
      change (2 ^ 23) with 8388608 in *. rewrite Pos2Z.inj_mul in *. nia. }
    assert (HBp : 2 ^ 23 <= Zpos (Pos.pred Bm) < 2 ^ 24).
    { rewrite Pos2Z.inj_pred by lia.
      change (2 ^ 23) with 8388608. change (2 ^ 24) with 16777216. lia. }
    destruct (round_aux_le (Zpos (m * Bm)) (e + Be) (Pos.pred Bm) Be HM Hpre HBp HBe)
      as [Hfin Hle].
    { rewrite Z.min_l by lia. unfold Zscale.
      replace (e + Be - (e + Be)) with 0 by lia.
      replace (Be - (e + Be)) with (- e) by lia.
      change (2 ^ 0) with 1. rewrite Pos2Z.inj_pred, Pos2Z.inj_mul by lia.
      destruct (Z_le_gt_dec (- e) 24) as [Hs | Hb].
      - assert (2 ^ (- e) <= 2 ^ 24) by (apply pow2_le; lia).
        change (2 ^ 24) with 16777216 in *. nia.
      - assert (2 ^ 25 <= 2 ^ (- e)) by (apply pow2_le; lia).
        change (2 ^ 25) with 33554432 in *. nia. }
    split; [exact Hfin|]. apply fle_flt_pred; [lia | exact Hfin | exact Hle].
Qed.

(** *** Aligning and adding *)

Lemma iter_xO_spec (m d : positive) :
  Zpos (Pos.iter xO m d) = Zpos m * 2 ^ Zpos d /\
  digits2_pos (Pos.iter xO m d) = (digits2_pos m + d)%positive.
Proof.
  induction d as [|d IH] using Pos.peano_ind.
  - cbn [Pos.iter]. split; [change (2 ^ 1) with 2; lia|].
    cbn [digits2_pos]. lia.
  - rewrite Pos.iter_succ. destruct IH as [IH1 IH2]. split.
    + rewrite Pos2Z.inj_xO, IH1, Pos2Z.inj_succ, Z.pow_succ_r by lia. ring.
    + cbn [digits2_pos]. rewrite IH2. lia.
Qed.

Lemma shl_align_spec (m : positive) (e e' : Z) :
  let '(mz, ez) := shl_align m e e' in
  ez <= e /\ Zpos mz = Zscale ez (Zpos m) e /\
  Zpos (digits2_pos mz) + ez = Zpos (digits2_pos m) + e /\
  (e' <= e -> ez = e') /\ (e <= e' -> ez = e).
Proof.
  unfold shl_align, Zscale. destruct (e' - e) as [|d|d] eqn:Hd.
  - replace (e - e) with 0 by lia. change (2 ^ 0) with 1. lia.
  - replace (e - e) with 0 by lia. change (2 ^ 0) with 1. lia.
  - destruct (iter_xO_spec m d) as [H1 H2].
    rewrite H1, H2. replace (e - e') with (Zpos d) by lia. lia.
Qed.

Section BinaryRoundBounds.
Variables (m : positive) (e : Z) (Bm : positive) (Be : Z).
Hypothesis HBm : 2 ^ 23 <= Zpos Bm < 2 ^ 24.
Hypothesis HBe : -149 <= Be <= 104.

Let c := Z.min e Be.

Lemma binary_round_le :
  2 * Zscale c (Zpos m) e < Zscale c (2 * Zpos Bm + 1) Be ->
  nonneg_finite (binary_round prec emax false m e) = true /\
  fle (binary_round prec emax false m e) (S754_finite false Bm Be) = true.
Proof.
  intros Hv. unfold binary_round.
  pose proof (shl_align_spec m e (fexp prec emax (Zpos (digits2_pos m) + e))) as Hs.
  destruct (shl_align m e _) as [mz ez]. destruct Hs as (Hez & Hmz & Hdig & Hdn & Hup).
  assert (Hc : Z.min ez Be <= c) by (unfold c; lia).
  apply round_aux_le; try assumption; try lia.
  - cbn [Zdigits2]. rewrite Hdig.
    destruct (Z_le_gt_dec (fexp prec emax (Zpos (digits2_pos m) + e)) e); lia.
  - rewrite Hmz, Zscale_trans by lia.
    rewrite (Zscale_base c (Z.min ez Be) (Zpos m) e),
      (Zscale_base c (Z.min ez Be) (2 * Zpos Bm + 1) Be) by (unfold c; lia).
    pose proof (pow2_pos (c - Z.min ez Be) ltac:(lia)). nia.
Qed.

Lemma binary_round_ge :
  Zscale c (Zpos Bm) Be <= Zscale c (Zpos m) e ->
  nonneg (binary_round prec emax false m e) = true /\
  fle (S754_finite false Bm Be) (binary_round prec emax false m e) = true.
Proof.
  intros Hv. unfold binary_round.
  pose proof (shl_align_spec m e (fexp prec emax (Zpos (digits2_pos m) + e))) as Hs.
  destruct (shl_align m e _) as [mz ez]. destruct Hs as (Hez & Hmz & Hdig & Hdn & Hup).
  assert (Hc : Z.min ez Be <= c) by (unfold c; lia).
  apply round_aux_ge; try assumption; try lia.
  - cbn [Zdigits2]. rewrite Hdig.
    destruct (Z_le_gt_dec (fexp prec emax (Zpos (digits2_pos m) + e)) e); lia.
  - rewrite Hmz, Zscale_trans by lia.
    rewrite (Zscale_base c (Z.min ez Be) (Zpos m) e),
      (Zscale_base c (Z.min ez Be) (Zpos Bm) Be) by (unfold c; lia).
    pose proof (pow2_pos (c - Z.min ez Be) ltac:(lia)). nia.
Qed.
End BinaryRoundBounds.

Lemma fadd_finite (mx : positive) (ex : Z) (my : positive) (ey : Z) :
  exists S : positive,
    fadd (S754_finite false mx ex) (S754_finite false my ey) =
      binary_round prec emax false S (Z.min ex ey) /\
    Zpos S = Zscale (Z.min ex ey) (Zpos mx) ex + Zscale (Z.min ex ey) (Zpos my) ey.
Proof.
  unfold fadd, SFadd, cond_Zopp, binary_normalize. cbn [Z.add].
  pose proof (shl_align_spec mx ex (Z.min ex ey)) as Hx.
  pose proof (shl_align_spec my ey (Z.min ex ey)) as Hy.
  destruct (shl_align mx ex _) as [ax ez1], (shl_align my ey _) as [ay ez2].
  destruct Hx as (_ & Hx & _ & Hx' & _), Hy as (_ & Hy & _ & Hy' & _).
  rewrite Hx' in Hx by lia. rewrite Hy' in Hy by lia. cbn [fst].
  exists (ax + ay)%positive. split; [reflexivity|]. lia.
Qed.

Lemma Zscale_same (c m : Z) : Zscale c m c = m.
Proof. unfold Zscale. rewrite Z.sub_diag. change (2 ^ 0) with 1. lia. Qed.

(** *** Integers that convert exactly *)

(** A mantissa already at its exponent is kept as it is. *)
Lemma round_aux_exact (s : bool) (M e : Z) :
  0 < M -> e = fexp prec emax (Zdigits2 M + e) ->
  binary_round_aux prec emax s M e loc_Exact = pack s M e.
Proof.
  intros HM He.
  destruct (round_aux_spec s M e HM ltac:(lia)) as (mr & Hmr & _ & Hup & Hlw & ->).
  rewrite <- He, Z.sub_diag in *. change (2 ^ 0) with 1 in *.
  assert (Hm : mr = M).
  { apply Z.le_antisymm; [apply Hup | apply Hlw]; lia. }
  subst mr. destruct (Z.eqb_spec M (2 ^ 24)) as [Heq | Hne]; [exfalso | reflexivity].
  destruct (Zdigits2_bounds M HM) as (Hd0 & Hlo & Hhi). rewrite fexp_eq in He.
  assert (24 < Zdigits2 M); [|lia].
  destruct (Z_lt_ge_dec 24 (Zdigits2 M)) as [|Hsmall]; [assumption|exfalso].
  assert (2 ^ Zdigits2 M <= 2 ^ 24) by (apply pow2_le; lia). lia.
Qed.

(** Every integer of [[0, 2 ^ 24)] is a binary32 number: converting it to
    [float] and back loses nothing. *)
Lemma of_Z_exact (z : Z) : 0 <= z < 2 ^ 24 -> ftrunc (of_Z z) = Some z.
Proof.
  intros Hz. destruct z as [|p|p]; try lia; [reflexivity|].
  unfold of_Z, binary_normalize, binary_round.
  pose proof (shl_align_spec p 0 (fexp prec emax (Zpos (digits2_pos p) + 0))) as Hs.
  destruct (shl_align p 0 _) as [mz ez]. destruct Hs as (Hez & Hmz & Hdig & Hdn & _).
  destruct (digits2_pos_bounds p) as [Hlo Hhi].
  assert (Hd : Zpos (digits2_pos p) <= 24).
  { destruct (Z_le_gt_dec (Zpos (digits2_pos p)) 24) as [|Hgt]; [assumption|exfalso].
    assert (2 ^ 24 <= 2 ^ (Zpos (digits2_pos p) - 1)) by (apply pow2_le; lia). lia. }
  rewrite fexp_eq in Hdn. specialize (Hdn ltac:(lia)).
  rewrite round_aux_exact; [|lia|].
  - unfold pack. destruct (Z.leb_spec ez (emax - prec)) as [_|Hbad];
      [|unfold emax, prec in Hbad; lia].
    cbn [ftrunc]. f_equal. rewrite Z.shiftl_div_pow2 by lia.
    rewrite Hmz. unfold Zscale. replace (0 - ez) with (- ez) by lia.
    apply Z.div_mul. pose proof (pow2_pos (- ez) ltac:(lia)). lia.
  - cbn [Zdigits2]. rewrite Hdig, fexp_eq. lia.
Qed.

End Binary32Facts.

Module PointsFacts.
Import Binary32Facts PointsDemo PointsNotions.

(** Every speed the program assigns is a positive finite float in
    [[30, 960]]. *)
Lemma random_speed_range (u : spec_float) :
  is_unit u = true ->
  (exists m e, random_speed u = S754_finite false m e) /\
  fle (of_Z MIN_PIXELS_PER_SECOND) (random_speed u) = true /\
  fle (random_speed u) (of_Z MAX_PIXELS_PER_SECOND) = true.
Proof.
  intros Hu. unfold random_speed.
  change (of_Z MIN_PIXELS_PER_SECOND) with (S754_finite false 15728640 (-19)).
  change (of_Z MAX_PIXELS_PER_SECOND) with (S754_finite false 15728640 (-14)).
  change (of_Z (MAX_PIXELS_PER_SECOND - MIN_PIXELS_PER_SECOND))
    with (S754_finite false 15237120 (-14)).
  destruct (fmul_unit_lt u 15237120 (-14) Hu) as [Hfin Hlt];
    [change (2 ^ 23) with 8388608; change (2 ^ 24) with 16777216; lia | lia |].
  destruct (fmul u _) as [[]|[]| |[] mt et]; try discriminate Hfin.
  - split; [eexists _, _; reflexivity|]. split; reflexivity.
  - destruct (fadd_finite 15728640 (-19) mt et) as (S & -> & HS).
    set (ez := Z.min (-19) et) in *.
    apply (flt_finite ez) in Hlt; try (unfold ez; lia).
    unfold Zscale in Hlt, HS.
    assert (Hp : 2 ^ (-14 - ez) = 32 * 2 ^ (-19 - ez)).
    { change 32 with (2 ^ 5). rewrite <- pow2_add by (unfold ez; lia). f_equal; lia. }
    pose proof (pow2_pos (-19 - ez) ltac:(unfold ez; lia)) as Hq.
    pose proof (pow2_pos (et - ez) ltac:(unfold ez; lia)) as Hq'.
    destruct (binary_round_le S ez 15728640 (-14)) as [Hfin' Hle];
      [change (2 ^ 23) with 8388608; change (2 ^ 24) with 16777216; lia | lia | |].
    { rewrite Z.min_l by (unfold ez; lia). rewrite Zscale_same. unfold Zscale. lia. }
    destruct (binary_round_ge S ez 15728640 (-19)) as [_ Hge];
      [change (2 ^ 23) with 8388608; change (2 ^ 24) with 16777216; lia | lia | |].
    { rewrite Z.min_l by (unfold ez; lia). rewrite Zscale_same. unfold Zscale. lia. }
    split; [|split; assumption].
    destruct (binary_round prec emax false S ez) as [[]|[]| |[] mv ev];
      try discriminate Hfin'; [|eexists _, _; reflexivity].
    rewrite fle_finite_zero in Hge. discriminate Hge.
Qed.

Lemma speed_in_range_finite (v : spec_float) :
  speed_in_range v = true -> exists m e, v = S754_finite false m e.
Proof.
  unfold speed_in_range.
  change (of_Z MIN_PIXELS_PER_SECOND) with (S754_finite false 15728640 (-19)).
  change (of_Z MAX_PIXELS_PER_SECOND) with (S754_finite false 15728640 (-14)).
  intros H. apply andb_prop in H as [Hlo Hhi].
  destruct v as [s|[]| |[] m e]; try discriminate.
  - exfalso. unfold fle, fcompare, mant, expo in Hlo.
    rewrite (Fcmp_base (Z.min (-19) e)) in Hlo by lia.
    pose proof (Zscale_pos (Z.min (-19) e) 15728640 (-19) ltac:(lia) ltac:(lia)) as H1.
    assert (H2 : Zscale (Z.min (-19) e) (Zneg m) e < 0).
    { unfold Zscale. pose proof (pow2_pos (e - Z.min (-19) e) ltac:(lia)). nia. }
    destruct (Z.compare_spec (Zscale (Z.min (-19) e) 15728640 (-19))
                (Zscale (Z.min (-19) e) (Zneg m) e)); try discriminate; lia.
  - eauto.
Qed.

Lemma coord_ok_within (bound : Z) (c : spec_float) :
  coord_ok bound c = true -> within bound c = true.
Proof.
  unfold coord_ok, within. intros H. apply andb_prop in H as [H1 H2].
  rewrite H2, andb_true_r. now apply fle_zero_nonneg_finite.
Qed.

Lemma point_ok_in_window (p : SDL_FPoint) : point_ok p = true -> in_window p = true.
Proof.
  unfold point_ok, in_window. intros H. apply andb_prop in H as [H1 H2].
  now rewrite !coord_ok_within.
Qed.

Lemma width_float : of_Z WINDOW_WIDTH = S754_finite false 10485760 (-14).
Proof. reflexivity. Qed.

Lemma height_float : of_Z WINDOW_HEIGHT = S754_finite false 15728640 (-15).
Proof. reflexivity. Qed.

Lemma coord_ok_zero (bound : positive) (mb : positive) (eb : Z) :
  of_Z (Zpos bound) = S754_finite false mb eb -> coord_ok (Zpos bound) zero = true.
Proof. intros H. unfold coord_ok. rewrite H. apply flt_zero_finite. Qed.

Lemma respawn_x_ok (u : unit_float) :
  coord_ok WINDOW_WIDTH (fmul (uf_val u) (of_Z WINDOW_WIDTH)) = true.
Proof.
  unfold coord_ok. rewrite width_float.
  destruct (fmul_unit_lt (uf_val u) 10485760 (-14) (uf_ok u)) as [-> ->];
    [change (2 ^ 23) with 8388608; change (2 ^ 24) with 16777216; lia | lia | reflexivity].
Qed.

Lemma respawn_y_ok (u : unit_float) :
  coord_ok WINDOW_HEIGHT (fmul (uf_val u) (of_Z WINDOW_HEIGHT)) = true.
Proof.
  unfold coord_ok. rewrite height_float.
  destruct (fmul_unit_lt (uf_val u) 15728640 (-15) (uf_ok u)) as [-> ->];
    [change (2 ^ 23) with 8388608; change (2 ^ 24) with 16777216; lia | lia | reflexivity].
Qed.

Lemma random_speed_ok (u : unit_float) : speed_in_range (random_speed (uf_val u)) = true.
Proof.
  unfold speed_in_range.
  destruct (random_speed_range (uf_val u) (uf_ok u)) as (_ & -> & ->). reflexivity.
Qed.

Lemma elapsed_seconds_nonneg (now last : Z) : nonneg (elapsed_seconds now last) = true.
Proof.
  unfold elapsed_seconds. change (of_Z 1000) with (S754_finite false 16384000 (-14)).
  apply fdiv_nonneg, of_Z_nonneg. unfold Uint64_of.
  apply Z.mod_pos_bound. reflexivity.
Qed.

(** An advanced coordinate that fails the wrap test is inside the window. *)
Lemma advance_coord_ok (bound : Z) (mb : positive) (eb : Z) (c dist : spec_float) :
  of_Z bound = S754_finite false mb eb ->
  coord_ok bound c = true -> nonneg dist = true ->
  fge (fadd c dist) (of_Z bound) = false ->
  coord_ok bound (fadd c dist) = true.
Proof.
  intros Hb Hc Hd Hge. unfold coord_ok in *. rewrite Hb in *.
  apply andb_prop in Hc as [Hc _].
  destruct (not_fge_flt (fadd c dist) mb eb) as [-> ->];
    [now apply fadd_nonneg | assumption | reflexivity].
Qed.

Lemma move_star_ok (elapsed : spec_float) (st : app_state) (i : nat) :
  nonneg elapsed = true -> stars_ok st -> stars_ok (move_star elapsed st i).
Proof.
  intros Hel [Hlp Hls Hp Hs Ht]. unfold move_star.
  destruct (points st !! i) as [p|] eqn:Hpi; [|now split].
  destruct (point_speeds st !! i) as [v|] eqn:Hvi; [|now split].
  assert (Hpok : point_ok p = true) by (eapply (Forall_lookup_1 _ _ _ _ Hp); eassumption).
  assert (Hvok : speed_in_range v = true) by (eapply (Forall_lookup_1 _ _ _ _ Hs); eassumption).
  destruct (speed_in_range_finite v Hvok) as (mv & ev & ->).
  pose proof (fmul_nonneg elapsed mv ev Hel) as Hdist.
  unfold point_ok in Hpok. apply andb_prop in Hpok as [Hx Hy].
  destruct (out_of_window _) eqn:Hout.
  - unfold SDL_rand, SDL_randf; cbn [fst snd next source cursor].
    split; cbn [points point_speeds last_time with_stars];
      rewrite ?length_insert; try assumption.
    + apply Forall_insert; [assumption|].
      destruct (negb _); unfold point_ok; cbn [x y].
      * rewrite respawn_x_ok. eapply coord_ok_zero, height_float.
      * rewrite respawn_y_ok, andb_true_r. eapply coord_ok_zero, width_float.
    + apply Forall_insert; [assumption | apply random_speed_ok].
  - unfold out_of_window in Hout. apply orb_false_elim in Hout as [Hox Hoy].
    cbn [advance x y] in Hox, Hoy.
    split; cbn [points point_speeds last_time with_stars];
      rewrite ?length_insert; try assumption.
    apply Forall_insert; [assumption|]. unfold point_ok, advance; cbn [x y].
    rewrite (advance_coord_ok _ _ _ _ _ width_float Hx Hdist Hox).
    rewrite (advance_coord_ok _ _ _ _ _ height_float Hy Hdist Hoy). reflexivity.
Qed.

Lemma foldl_invariant {A B : Type} (P : A -> Prop) (f : A -> B -> A) (l : list B) :
  (forall a b, P a -> P (f a b)) -> forall a, P a -> P (foldl f a l).
Proof. intros Hf. induction l as [|b l IH]; intros a Ha; cbn; auto. Qed.

Lemma move_stars_ok (elapsed : spec_float) (st : app_state) :
  nonneg elapsed = true -> stars_ok st -> stars_ok (move_stars elapsed st).
Proof.
  intros Hel. unfold move_stars. apply foldl_invariant.
  intros a b. now apply move_star_ok.
Qed.

(** *** Seeding *)

Lemma seed_points_spec (n : nat) (st : app_state) :
  (n <= length (point_speeds st))%nat ->
  let st' := foldl seed_point st (seq 0 n) in
  renderer st' = renderer st /\ glowTex st' = glowTex st /\ last_time st' = last_time st /\
  length (points st') = length (points st) /\
  length (point_speeds st') = length (point_speeds st) /\
  (Forall (fun p => point_ok p = true) (points st) ->
   Forall (fun p => point_ok p = true) (points st')) /\
  (forall j v, (j < n)%nat -> point_speeds st' !! j = Some v -> speed_in_range v = true).
Proof.
  induction n as [|n IH]; intros Hn; cbn zeta.
  - cbn. repeat split; auto. intros j v Hj; lia.
  - rewrite seq_S, foldl_app. cbn [foldl Nat.add].
    destruct (IH ltac:(lia)) as (Hr & Hg & Ht & Hlp & Hls & Hp & Hs).
    set (st1 := foldl seed_point st (seq 0 n)) in *.
    unfold seed_point, SDL_randf; cbn [fst snd next source cursor].
    cbn [renderer glowTex last_time points point_speeds with_stars].
    rewrite !length_insert. repeat split; try assumption.
    + intros H0. apply Forall_insert; [auto|].
      unfold point_ok; cbn [x y]. now rewrite respawn_x_ok, respawn_y_ok.
    + intros j v Hj Hv. destruct (Nat.eq_dec j n) as [-> | Hne].
      * rewrite list_lookup_insert_eq in Hv by lia.
        injection Hv as <-. apply random_speed_ok.
      * rewrite list_lookup_insert_ne in Hv by congruence.
        apply (Hs j); [lia | assumption].
Qed.

(** *** The glow texture's loops *)

Lemma same_header_refl (t : SDL_Texture) : same_header t t.
Proof. repeat split. Qed.

Lemma same_header_trans (t1 t2 t3 : SDL_Texture) :
  same_header t1 t2 -> same_header t2 t3 -> same_header t1 t3.
Proof. unfold same_header. intuition congruence. Qed.

Lemma glow_row_spec (radius py : Z) (cols : list Z) :
  ftrunc (of_Z py) = Some py ->
  Forall (fun px => ftrunc (of_Z px) = Some px) cols ->
  forall rd tex, target rd = Some tex ->
  exists tex',
    target (foldl (fun rd px => glow_pixel radius rd py px) rd cols) = Some tex' /\
    queue (foldl (fun rd px => glow_pixel radius rd py px) rd cols) = queue rd /\
    presented (foldl (fun rd px => glow_pixel radius rd py px) rd cols) = presented rd /\
    same_header tex tex' /\
    forall qx qy,
      pixels tex' !! (qx, qy) =
        if decide (qy = py /\ qx ∈ cols) then Some (glow_color radius qx qy)
        else pixels tex !! (qx, qy).
Proof.
  intros Hpy. induction cols as [|px cols IH]; intros Hcols rd tex Ht; cbn [foldl].
  - exists tex.
    split_and!; [assumption | reflexivity | reflexivity | apply same_header_refl |].
    intros qx qy; destruct (decide _) as [[_ H]|]; [|reflexivity];
      now apply not_elem_of_nil in H.
  - apply Forall_cons in Hcols as [Hpx Hcols].
    destruct (IH Hcols (glow_pixel radius rd py px)
                (set_pixel tex px py (glow_color radius px py)))
      as (tex' & Ht' & Hq & Hp & Hh & Hpix).
    { unfold glow_pixel, SDL_RenderPoint, SDL_SetRenderDrawColor.
      cbn [target draw_color]. rewrite Ht, Hpx, Hpy. reflexivity. }
    exists tex'. rewrite Ht', Hq, Hp.
    assert (Hq0 : queue (glow_pixel radius rd py px) = queue rd /\
                  presented (glow_pixel radius rd py px) = presented rd).
    { unfold glow_pixel, SDL_RenderPoint, SDL_SetRenderDrawColor.
      cbn [target draw_color]. rewrite Ht, Hpx, Hpy. split; reflexivity. }
    destruct Hq0 as [-> ->]. split_and!; try reflexivity.
    { eapply same_header_trans; [|exact Hh]. repeat split. }
    intros qx qy. rewrite Hpix. cbn [pixels set_pixel].
    destruct (decide (qy = py /\ qx ∈ cols)) as [[-> Hin]|Hn].
    + rewrite decide_True; [reflexivity | split; [reflexivity | now apply list_elem_of_further]].
    + destruct (decide ((px, py) = (qx, qy))) as [Heq | Hne].
      * injection Heq as -> ->. rewrite lookup_insert_eq.
        rewrite decide_True; [reflexivity | split; [reflexivity | apply list_elem_of_here]].
      * rewrite lookup_insert_ne by assumption.
        rewrite decide_False; [reflexivity|].
        intros [-> Hin]. apply elem_of_cons in Hin as [-> | Hin]; [congruence | tauto].
Qed.

Lemma glow_rows_spec (radius : Z) (rows : list Z) :
  Forall (fun py => ftrunc (of_Z py) = Some py) rows ->
  Forall (fun px => ftrunc (of_Z px) = Some px) (seqZ 0 (radius * 2)) ->
  forall rd tex, target rd = Some tex ->
  exists tex',
    target (foldl (glow_row radius) rd rows) = Some tex' /\
    queue (foldl (glow_row radius) rd rows) = queue rd /\
    presented (foldl (glow_row radius) rd rows) = presented rd /\
    same_header tex tex' /\
    forall qx qy,
      pixels tex' !! (qx, qy) =
        if decide (qy ∈ rows /\ qx ∈ seqZ 0 (radius * 2)) then Some (glow_color radius qx qy)
        else pixels tex !! (qx, qy).
Proof.
  intros Hrows Hcols. induction rows as [|py rows IH]; intros rd tex Ht; cbn [foldl].
  - exists tex.
    split_and!; [assumption | reflexivity | reflexivity | apply same_header_refl |].
    intros qx qy; destruct (decide _) as [[H _]|]; [|reflexivity];
      now apply not_elem_of_nil in H.
  - apply Forall_cons in Hrows as [Hpy Hrows].
    destruct (glow_row_spec radius py (seqZ 0 (radius * 2)) Hpy Hcols rd tex Ht)
      as (tex1 & Ht1 & Hq1 & Hp1 & Hh1 & Hpix1).
    fold (glow_row radius rd py) in Ht1, Hq1, Hp1.
    destruct (IH Hrows (glow_row radius rd py) tex1 Ht1) as (tex' & Ht' & Hq & Hp & Hh & Hpix).
    exists tex'. rewrite Ht', Hq, Hp, Hq1, Hp1.
    split_and!; try reflexivity.
    { eapply same_header_trans; eassumption. }
    intros qx qy. rewrite Hpix, Hpix1.
    destruct (decide (qy ∈ rows /\ qx ∈ seqZ 0 (radius * 2))) as [[Hr Hc]|Hn].
    + rewrite decide_True; [reflexivity | split; [now apply list_elem_of_further | assumption]].
    + destruct (decide (qy = py /\ qx ∈ seqZ 0 (radius * 2))) as [[-> Hc]|Hn'].
      * rewrite decide_True; [reflexivity | split; [apply list_elem_of_here | assumption]].
      * rewrite decide_False; [reflexivity|].
        intros [Hin Hc]. apply elem_of_cons in Hin as [-> | Hin]; tauto.
Qed.

(** The loop counters of a texture of side at most [2 ^ 24] convert to
    [float] exactly. *)
Lemma glow_counters_exact (radius : Z) :
  radius * 2 <= 2 ^ 24 ->
  Forall (fun px => ftrunc (of_Z px) = Some px) (seqZ 0 (radius * 2)).
Proof.
  intros Hr. apply Forall_forall. intros px Hpx. apply elem_of_seqZ in Hpx.
  apply of_Z_exact. lia.
Qed.

(** What [create_glow_texture] returns when the texture is created and its
    side is positive and at most [2 ^ 24]: a texture of side [2 * radius] in additive
    blend mode, alpha modulation untouched since creation, every pixel
    holding the colour computed for it; the renderer is back on the window,
    whose queue is as it was. *)
Lemma create_glow_texture_spec (rd : SDL_Renderer) (radius : Z) :
  0 < radius -> radius * 2 <= 2 ^ 24 ->
  exists tex rd',
    create_glow_texture rd radius = (Some tex, rd') /\
    target rd' = None /\ queue rd' = queue rd /\ presented rd' = presented rd /\
    tex_w tex = radius * 2 /\ tex_h tex = radius * 2 /\
    blend_mode tex = SDL_BLENDMODE_ADD /\ alpha_mod tex = 255 /\
    forall px py, 0 <= px < radius * 2 -> 0 <= py < radius * 2 ->
      pixels tex !! (px, py) = Some (glow_color radius px py).
Proof.
  intros H0 Hr. pose proof (glow_counters_exact radius Hr) as Hexact.
  unfold create_glow_texture, create_glow_texture_with, SDL_CreateTexture.
  assert (Hpos : (0 <? radius * 2) = true) by (apply Z.ltb_lt; lia).
  rewrite Hpos. cbn [andb fmap option_fmap option_map].
  set (tex0 := SDL_SetTextureBlendMode _ _).
  destruct (glow_rows_spec radius (seqZ 0 (radius * 2)) Hexact Hexact
              (SDL_SetRenderTarget rd (Some tex0)) tex0)
    as (tex & Ht & Hq & Hp & (Hw & Hh & Hb & Ha) & Hpix); [reflexivity|].
  exists tex, (SDL_SetRenderTarget (foldl (glow_row radius)
                 (SDL_SetRenderTarget rd (Some tex0)) (seqZ 0 (radius * 2))) None).
  rewrite Ht. cbn [target queue presented SDL_SetRenderTarget] in *.
  split_and!; try assumption; try reflexivity;
    try (rewrite ?Hw, ?Hh, ?Hb, ?Ha; reflexivity).
  intros px py Hx Hy. rewrite Hpix, decide_True; [reflexivity|].
  split; apply elem_of_seqZ; lia.
Qed.

Lemma SDL_AppInit_succeeds (ticks : Z) (st : app_state) :
  SDL_AppInit succeeds ticks st =
    (SDL_APP_CONTINUE,
     with_last_time
       (foldl seed_point
          (with_glowTex (with_renderer st (snd (create_glow_texture (renderer st) 40)))
                        (fst (create_glow_texture (renderer st) 40)))
          (seq 0 NUM_POINTS))
       (Uint64_of ticks)).
Proof.
  unfold SDL_AppInit, succeeds, create_glow_texture.
  cbn [init_succeeds window_and_renderer_created texture_created negb].
  destruct (create_glow_texture_with true (renderer st) 40) as [tex rd]. reflexivity.
Qed.

Lemma seeded_ok (st1 : app_state) (ticks : Z) (tex : SDL_Texture) :
  length (points st1) = NUM_POINTS -> length (point_speeds st1) = NUM_POINTS ->
  Forall (fun p => point_ok p = true) (points st1) ->
  queue (renderer st1) = [] -> presented (renderer st1) = [] ->
  glowTex st1 = Some tex -> alpha_mod tex = 255 ->
  let st := with_last_time (foldl seed_point st1 (seq 0 NUM_POINTS)) (Uint64_of ticks) in
  stars_ok st /\ frames_ok st /\ glow_ok st /\ presented (renderer st) = [].
Proof.
  intros Hlp0 Hls0 Hp0 Hq0 Hpr0 Hg0 Ha0.
  assert (Hn : (NUM_POINTS <= length (point_speeds st1))%nat)
    by (rewrite Hls0; apply Nat.le_refl).
  pose proof (seed_points_spec NUM_POINTS st1 Hn) as H. cbv zeta in H |- *.
  revert H. generalize (foldl seed_point st1 (seq 0 NUM_POINTS)).
  intros st2 (Hr & Hg & Ht & Hlp & Hls & Hpo & Hso).
  split_and!.
  - split; cbn [points point_speeds last_time with_last_time].
    + rewrite Hlp. exact Hlp0.
    + rewrite Hls. exact Hls0.
    + auto.
    + apply Forall_lookup_2. intros j v Hj. apply (Hso j); [|assumption].
      apply lookup_lt_Some in Hj. rewrite Hls, Hls0 in Hj. exact Hj.
    + unfold Uint64_of. apply Z.mod_pos_bound. reflexivity.
  - split; cbn [renderer with_last_time]; rewrite Hr.
    + assumption.
    + rewrite Hpr0. constructor.
  - exists tex. cbn [glowTex renderer with_last_time]. rewrite Hg, Hr, Hpr0.
    split; assumption.
  - cbn [renderer with_last_time]. rewrite Hr. exact Hpr0.
Qed.

Lemma SDL_AppInit_ok (ticks : Z) (gen : rand_state) :
  let st := snd (SDL_AppInit succeeds ticks (static_state gen)) in
  stars_ok st /\ frames_ok st /\ glow_ok st /\ presented (renderer st) = [].
Proof.
  rewrite SDL_AppInit_succeeds. cbn [snd].
  destruct (create_glow_texture_spec (renderer (static_state gen)) 40 ltac:(lia) ltac:(lia))
    as (tex & rd' & -> & Htg & Hq & Hp & _ & _ & _ & Ha & _).
  cbn [fst snd].
  apply (seeded_ok _ ticks tex); cbn [points point_speeds renderer glowTex with_glowTex with_renderer static_state].
  - apply length_replicate.
  - apply length_replicate.
  - apply Forall_replicate. reflexivity.
  - exact Hq.
  - exact Hp.
  - reflexivity.
  - exact Ha.
Qed.

(** *** One frame *)

Lemma presented_enqueue (rd : SDL_Renderer) (c : render_cmd) :
  presented (enqueue rd c) = presented rd.
Proof. reflexivity. Qed.

Lemma queue_enqueue (rd : SDL_Renderer) (c : render_cmd) :
  queue (enqueue rd c) = queue rd ++ [c].
Proof. reflexivity. Qed.

Lemma presented_draw_color (rd : SDL_Renderer) (cr cg cb ca : Z) :
  presented (SDL_SetRenderDrawColor rd cr cg cb ca) = presented rd.
Proof. reflexivity. Qed.

Lemma queue_draw_color (rd : SDL_Renderer) (cr cg cb ca : Z) :
  queue (SDL_SetRenderDrawColor rd cr cg cb ca) = queue rd.
Proof. reflexivity. Qed.

Lemma presented_present (rd : SDL_Renderer) :
  presented (SDL_RenderPresent rd) = presented rd ++ [queue rd].
Proof. reflexivity. Qed.

Lemma queue_present (rd : SDL_Renderer) : queue (SDL_RenderPresent rd) = [].
Proof. reflexivity. Qed.

Lemma presented_render_glow (rd : SDL_Renderer) (tex : option SDL_Texture) (dst : SDL_FRect) :
  presented (render_glow rd tex dst) = presented rd.
Proof. destruct tex; reflexivity. Qed.

Lemma queue_render_glow (rd : SDL_Renderer) (tex : option SDL_Texture) (dst : SDL_FRect) :
  queue (render_glow rd tex dst) = queue rd ++ glow_cmds tex dst.
Proof. destruct tex; [reflexivity | symmetry; apply app_nil_r]. Qed.

Section FrameFacts.
Variables SDL_sinf SDL_cosf : spec_float -> spec_float.

(** The renderer calls of [draw_frame], with the geometry it computes left
  abstract. *)
Lemma draw_frame_calls (now : Z) (st : app_state) :
exists flame ship glowDest shipGlow ambient,
  draw_frame SDL_sinf SDL_cosf now st =
    with_glowTex
      (with_renderer st
         (SDL_RenderPresent
            (render_glow
               (render_glow
                  (render_glow
                     (SDL_RenderGeometry
                        (SDL_RenderGeometry
                           (SDL_RenderPoints
                              (SDL_SetRenderDrawColor
                                 (SDL_RenderClear
                                    (SDL_SetRenderDrawColor (renderer st) 0 0 0 255))
                                 255 255 255 255)
                              (points st))
                           flame)
                        ship)
                     (glowTex st) glowDest)
                  (glowTex st) shipGlow)
               (glowTex st) ambient)))
      ((fun t => SDL_SetTextureAlphaMod t 40) <$> glowTex st).
Proof.
unfold draw_frame, ship_vertices. cbv beta iota zeta.
do 5 eexists. reflexivity.
Qed.

Lemma draw_frame_spec (now : Z) (st : app_state) :
exists frame,
  presented (renderer (draw_frame SDL_sinf SDL_cosf now st)) =
    presented (renderer st) ++ [queue (renderer st) ++ frame] /\
  queue (renderer (draw_frame SDL_sinf SDL_cosf now st)) = [] /\
  frame_points frame = points st /\
  copy_alphas frame =
    match glowTex st with
    | Some tex => [alpha_mod tex; alpha_mod tex; alpha_mod tex]
    | None => []
    end /\
  glowTex (draw_frame SDL_sinf SDL_cosf now st) =
    (fun t => SDL_SetTextureAlphaMod t 40) <$> glowTex st /\
  points (draw_frame SDL_sinf SDL_cosf now st) = points st /\
  point_speeds (draw_frame SDL_sinf SDL_cosf now st) = point_speeds st /\
  last_time (draw_frame SDL_sinf SDL_cosf now st) = last_time st /\
  rand (draw_frame SDL_sinf SDL_cosf now st) = rand st.
Proof.
destruct (draw_frame_calls now st) as (flame & ship & r1 & r2 & r3 & ->).
cbn [renderer points point_speeds last_time rand glowTex with_glowTex with_renderer].
rewrite presented_present, queue_present.
rewrite !presented_render_glow, !queue_render_glow.
unfold SDL_RenderGeometry, SDL_RenderPoints, SDL_RenderClear.
repeat (rewrite presented_enqueue || rewrite presented_draw_color).
repeat (rewrite queue_enqueue || rewrite queue_draw_color).
rewrite <- !app_assoc.
eexists. split; [reflexivity|]. split_and!; try reflexivity.
- unfold frame_points. rewrite !omap_app, !concat_app.
  destruct (glowTex st); cbn [glow_cmds omap list_omap concat app];
    rewrite ?app_nil_r; reflexivity.
- unfold copy_alphas. rewrite !omap_app.
  destruct (glowTex st); cbn [glow_cmds omap list_omap app]; reflexivity.
Qed.

Lemma draw_frame_ok (now : Z) (st : app_state) :
app_ok st -> app_ok (draw_frame SDL_sinf SDL_cosf now st).
Proof.
intros [[Hlp Hls Hp Hs Ht] [Hq Hf] (tex & Hg & Ha)].
destruct (draw_frame_spec now st) as (frame & Hpr & Hq' & Hfp & Hca & Hg' & Hp' & Hs' & Ht' & _).
revert Hpr Hq' Hg' Hp' Hs' Ht'.
generalize (draw_frame SDL_sinf SDL_cosf now st). intros st' Hpr Hq' Hg' Hp' Hs' Ht'.
rewrite Hq in Hpr. cbn [app] in Hpr. rewrite Hg in Hca, Hg'.
split.
- split; rewrite ?Hp', ?Hs', ?Ht'; assumption.
- split; [assumption|]. rewrite Hpr. apply Forall_app. split; [assumption|].
  constructor; [|constructor]. rewrite Hfp.
  eapply Forall_impl; [exact Hp|]. intros p. apply point_ok_in_window.
- exists (SDL_SetTextureAlphaMod tex 40). split; [exact Hg'|]. rewrite Hpr.
  destruct (presented (renderer st)) as [|first later]; cbn [app].
  + split; [reflexivity | constructor].
  + destruct Ha as [Ha Hl]. split; [reflexivity|].
    apply Forall_app. split; [assumption|].
    constructor; [|constructor]. rewrite Hca, Ha. reflexivity.
Qed.

Lemma move_star_frame (elapsed : spec_float) (st : app_state) (i : nat) :
renderer (move_star elapsed st i) = renderer st /\
glowTex (move_star elapsed st i) = glowTex st /\
last_time (move_star elapsed st i) = last_time st.
Proof.
unfold move_star.
destruct (points st !! i); [|auto]. destruct (point_speeds st !! i); [|auto].
destruct (out_of_window _); unfold SDL_rand, SDL_randf; auto.
Qed.

Lemma move_stars_frame (elapsed : spec_float) (st : app_state) :
renderer (move_stars elapsed st) = renderer st /\
glowTex (move_stars elapsed st) = glowTex st /\
last_time (move_stars elapsed st) = last_time st.
Proof.
unfold move_stars. generalize (seq 0 NUM_POINTS). intros l. revert st.
induction l as [|i l IH]; intros st; cbn [foldl]; [auto|].
destruct (IH (move_star elapsed st i)) as (-> & -> & ->). apply move_star_frame.
Qed.

Lemma SDL_AppIterate_ok (ticks : Z) (st : app_state) :
app_ok st ->
fst (SDL_AppIterate SDL_sinf SDL_cosf ticks st) = SDL_APP_CONTINUE /\
app_ok (snd (SDL_AppIterate SDL_sinf SDL_cosf ticks st)).
Proof.
intros [Hst [Hq Hf] (tex & Hg & Ha)]. unfold SDL_AppIterate. cbn [fst snd].
split; [reflexivity|]. apply draw_frame_ok.
pose proof (move_stars_ok _ st (elapsed_seconds_nonneg (Uint64_of ticks) (last_time st)) Hst)
  as [Hlp Hls Hp Hs Ht].
destruct (move_stars_frame (elapsed_seconds (Uint64_of ticks) (last_time st)) st)
  as (Hr' & Hg' & Ht').
revert Hlp Hls Hp Hs Ht Hr' Hg' Ht'.
generalize (move_stars (elapsed_seconds (Uint64_of ticks) (last_time st)) st).
intros st1 Hlp Hls Hp Hs Ht Hr' Hg' Ht'.
split.
- split; cbn [points point_speeds last_time with_last_time]; try assumption.
  unfold Uint64_of. apply Z.mod_pos_bound. reflexivity.
- split; cbn [renderer with_last_time]; rewrite Hr'; assumption.
- exists tex. cbn [renderer glowTex with_last_time]. rewrite Hr', Hg'. split; assumption.
Qed.

Lemma main_loop_ok (passes : list pass) :
forall st, app_ok st -> app_ok (main_loop SDL_sinf SDL_cosf st passes).
Proof.
induction passes as [|p passes IH]; intros st Hok; cbn [main_loop]; [assumption|].
destruct (forallb _ _); [|assumption].
destruct (SDL_AppIterate_ok (ticks_at p) st Hok) as [Hres Hok'].
destruct (SDL_AppIterate SDL_sinf SDL_cosf (ticks_at p) st) as [res st'].
cbn [fst snd] in *. subst res. cbn [continues]. now apply IH.
Qed.

Lemma run_ok (gen : rand_state) (ticks : Z) (passes : list pass) :
app_ok (run SDL_sinf SDL_cosf gen ticks passes).
Proof.
unfold run. apply main_loop_ok.
destruct (SDL_AppInit_ok ticks gen) as (H1 & H2 & H3 & _). now split.
Qed.

End FrameFacts.

(** *** Star by star *)

Lemma move_star_lengths (elapsed : spec_float) (st : app_state) (i : nat) :
  length (points (move_star elapsed st i)) = length (points st) /\
  length (point_speeds (move_star elapsed st i)) = length (point_speeds st).
Proof.
  unfold move_star.
  destruct (points st !! i); [|auto]. destruct (point_speeds st !! i); [|auto].
  destruct (out_of_window _); unfold SDL_rand, SDL_randf;
    cbn [points point_speeds with_stars];
    rewrite ?length_insert; auto.
Qed.

(** A pass of the loop leaves every other star alone. *)
Lemma move_star_other (elapsed : spec_float) (st : app_state) (i j : nat) :
  i <> j ->
  points (move_star elapsed st i) !! j = points st !! j /\
  point_speeds (move_star elapsed st i) !! j = point_speeds st !! j.
Proof.
  intros Hne. unfold move_star.
  destruct (points st !! i); [|auto]. destruct (point_speeds st !! i); [|auto].
  destruct (out_of_window _); unfold SDL_rand, SDL_randf;
    cbn [points point_speeds with_stars];
    rewrite ?list_lookup_insert_ne by assumption; auto.
Qed.

Lemma move_stars_other (elapsed : spec_float) (l : list nat) (j : nat) :
  j ∉ l -> forall st,
  points (foldl (move_star elapsed) st l) !! j = points st !! j /\
  point_speeds (foldl (move_star elapsed) st l) !! j = point_speeds st !! j.
Proof.
  induction l as [|i l IH]; intros Hj st; cbn [foldl]; [auto|].
  apply not_elem_of_cons in Hj as [Hne Hj].
  destruct (IH Hj (move_star elapsed st i)) as [-> ->].
  apply move_star_other. congruence.
Qed.

(** The loop visits star [i] once: what is stored for it afterwards is what
    its own pass stored, run on the state the earlier passes left. *)
Lemma move_stars_at (elapsed : spec_float) (st : app_state) (i : nat) :
  (i < NUM_POINTS)%nat ->
  exists st0,
    points st0 !! i = points st !! i /\
    point_speeds st0 !! i = point_speeds st !! i /\
    points (move_stars elapsed st) !! i = points (move_star elapsed st0 i) !! i /\
    point_speeds (move_stars elapsed st) !! i = point_speeds (move_star elapsed st0 i) !! i.
Proof.
  intros Hi. unfold move_stars.
  assert (Hsplit : seq 0 NUM_POINTS = seq 0 i ++ i :: seq (S i) (NUM_POINTS - S i)).
  { generalize dependent NUM_POINTS. intros n Hn.
    replace n with (i + (1 + (n - S i)))%nat at 1 by lia.
    rewrite seq_app, seq_app. cbn [Nat.add].
    replace (i + 1)%nat with (S i) by lia. reflexivity. }
  rewrite Hsplit, foldl_app. cbn [foldl].
  exists (foldl (move_star elapsed) st (seq 0 i)).
  destruct (move_stars_other elapsed (seq 0 i) i) with (st := st) as [H1 H2].
  { rewrite elem_of_seq. lia. }
  destruct (move_stars_other elapsed (seq (S i) (NUM_POINTS - S i)) i)
    with (st := move_star elapsed (foldl (move_star elapsed) st (seq 0 i)) i) as [H3 H4].
  { rewrite elem_of_seq. lia. }
  auto.
Qed.

(** A star whose advance stays inside the window is stored advanced, with
    its speed untouched. *)
Lemma move_star_inside (elapsed : spec_float) (st : app_state) (i : nat)
    (p : SDL_FPoint) (speed : spec_float) :
  points st !! i = Some p -> point_speeds st !! i = Some speed ->
  out_of_window (advance p (fmul elapsed speed)) = false ->
  points (move_star elapsed st i) !! i = Some (advance p (fmul elapsed speed)) /\
  point_speeds (move_star elapsed st i) !! i = Some speed.
Proof.
  intros Hp Hs Hin. unfold move_star. rewrite Hp, Hs, Hin.
  cbn [points point_speeds with_stars]. split; [|assumption].
  apply list_lookup_insert_eq. now apply lookup_lt_Some in Hp.
Qed.

(** *** No time elapsed *)

Lemma fadd_zero_r (c : spec_float) :
  nonneg_finite c = true -> fadd c (S754_zero false) = c.
Proof. destruct c as [[]|[]| |[] m e]; try discriminate; reflexivity. Qed.

Lemma move_star_still (st : app_state) (i : nat) :
  stars_ok st -> move_star (S754_zero false) st i = st.
Proof.
  intros [Hlp Hls Hp Hs Ht]. unfold move_star.
  destruct (points st !! i) as [p|] eqn:Hpi; [|reflexivity].
  destruct (point_speeds st !! i) as [v|] eqn:Hvi; [|reflexivity].
  assert (Hpok : point_ok p = true) by (eapply (Forall_lookup_1 _ _ _ _ Hp); eassumption).
  assert (Hvok : speed_in_range v = true) by (eapply (Forall_lookup_1 _ _ _ _ Hs); eassumption).
  destruct (speed_in_range_finite v Hvok) as (mv & ev & ->).
  change (fmul (S754_zero false) (S754_finite false mv ev)) with (S754_zero false).
  unfold point_ok, coord_ok in Hpok.
  apply andb_prop in Hpok as [Hx Hy].
  apply andb_prop in Hx as [Hx Hxl]. apply andb_prop in Hy as [Hy Hyl].
  assert (Hadv : advance p (S754_zero false) = p).
  { unfold advance. rewrite !fadd_zero_r by assumption. now destruct p. }
  rewrite Hadv. unfold out_of_window.
  rewrite width_float, height_float in *.
  rewrite (flt_not_fge _ _ _ Hx Hxl), (flt_not_fge _ _ _ Hy Hyl). cbn [orb].
  rewrite list_insert_id by assumption. now destruct st.
Qed.

Lemma move_stars_still (st : app_state) :
  stars_ok st -> move_stars (S754_zero false) st = st.
Proof.
  intros Hok. unfold move_stars. generalize (seq 0 NUM_POINTS). intros l.
  induction l as [|i l IH]; cbn [foldl]; [reflexivity|].
  now rewrite move_star_still.
Qed.

Lemma elapsed_seconds_same (t : Z) :
  0 <= t < 2 ^ 64 -> elapsed_seconds (Uint64_of t) t = S754_zero false.
Proof.
  intros Ht. unfold elapsed_seconds, Uint64_of.
  rewrite (Z.mod_small t) by assumption. rewrite Z.sub_diag. reflexivity.
Qed.

(** *** The glow gradient at radius 40 *)

Lemma forallb_seqZ (f : Z -> bool) (a n : Z) :
  forallb f (seqZ a n) = true -> forall k, a <= k < a + n -> f k = true.
Proof.
  intros H k Hk. rewrite forallb_forall in H. apply H.
  apply list_elem_of_In, elem_of_seqZ. exact Hk.
Qed.

Lemma glow_pixels_40 :
  forallb (fun py => forallb (fun px => glow_pixel_check 40 px py) (seqZ 0 80)) (seqZ 0 80) = true.
Proof. vm_compute. reflexivity. Qed.

Lemma glow_steps_40 : forallb (glow_step_check 40) (seqZ 0 3201) = true.
Proof. vm_compute. reflexivity. Qed.

Lemma glow_pixel_checked (px py : Z) :
  0 <= px < 80 -> 0 <= py < 80 -> glow_pixel_check 40 px py = true.
Proof.
  intros Hx Hy.
  assert (Hpy : 0 <= py < 0 + 80) by lia. assert (Hpx : 0 <= px < 0 + 80) by lia.
  exact (forallb_seqZ (fun qx => glow_pixel_check 40 qx py) 0 80
           (forallb_seqZ _ 0 80 glow_pixels_40 py Hpy) px Hpx).
Qed.

Lemma glow_step_checked (n : Z) : 0 <= n <= 3200 -> glow_step_check 40 n = true.
Proof.
  intros Hn. assert (Hn' : 0 <= n < 0 + 3201) by lia.
  exact (forallb_seqZ _ 0 3201 glow_steps_40 n Hn').
Qed.

Lemma sqdist_range (px py : Z) :
  0 <= px < 80 -> 0 <= py < 80 -> 0 <= sqdist 40 px py <= 3200.
Proof.
  intros Hx Hy. unfold sqdist.
  pose proof (Z.mul_nonneg_nonneg px (80 - px) ltac:(lia) ltac:(lia)).
  pose proof (Z.mul_nonneg_nonneg py (80 - py) ltac:(lia) ltac:(lia)).
  pose proof (Z.square_nonneg (px - 40)). pose proof (Z.square_nonneg (py - 40)). lia.
Qed.

(** Alpha never grows and the computed distance never shrinks as the
    squared distance grows. *)
Lemma glow_table_mono (k : nat) (n : Z) :
  0 <= n -> n + Z.of_nat k <= 3201 ->
  alpha_by_sq 40 (n + Z.of_nat k) <= alpha_by_sq 40 n /\
  fkey (dist_by_sq 40 n) <= fkey (dist_by_sq 40 (n + Z.of_nat k)).
Proof.
  induction k as [|k IH]; intros Hn Hk.
  - replace (n + Z.of_nat 0) with n by lia. lia.
  - destruct IH as [IH1 IH2]; [lia | lia |].
    pose proof (glow_step_checked (n + Z.of_nat k) ltac:(lia)) as Hs.
    unfold glow_step_check in Hs.
    apply andb_prop in Hs as [Hs _]. apply andb_prop in Hs as [Hs Hkey].
    apply andb_prop in Hs as [Ha _].
    replace (n + Z.of_nat (S k)) with (n + Z.of_nat k + 1) by lia. lia.
Qed.

Lemma alpha_by_sq_mono (n1 n2 : Z) :
  0 <= n1 <= n2 -> n2 <= 3201 -> alpha_by_sq 40 n2 <= alpha_by_sq 40 n1.
Proof.
  intros H1 H2. replace n2 with (n1 + Z.of_nat (Z.to_nat (n2 - n1))) by lia.
  apply glow_table_mono; lia.
Qed.

Lemma dist_key_mono (n1 n2 : Z) :
  0 <= n1 <= n2 -> n2 <= 3201 -> fkey (dist_by_sq 40 n1) <= fkey (dist_by_sq 40 n2).
Proof.
  intros H1 H2. replace n2 with (n1 + Z.of_nat (Z.to_nat (n2 - n1))) by lia.
  apply glow_table_mono; lia.
Qed.

(** On floats of exponent at least -149, [flt] is [<] on the keys. *)
Lemma flt_fkey (f g : spec_float) :
  keyed f = true -> keyed g = true -> flt f g = true -> fkey f < fkey g.
Proof.
  intros Hf Hg. unfold flt, fkey.
  assert (Hef : -149 <= expo f)
    by (destruct f; try discriminate; cbn in *; try apply Z.leb_le in Hf; lia).
  assert (Heg : -149 <= expo g)
    by (destruct g; try discriminate; cbn in *; try apply Z.leb_le in Hg; lia).
  assert (Hc : fcompare f g = Some (Fcmp (mant f) (expo f) (mant g) (expo g)))
    by (destruct f, g; try discriminate; reflexivity).
  rewrite Hc, (Fcmp_base (-149)) by assumption.
  destruct (Z.compare_spec (Zscale (-149) (mant f) (expo f)) (Zscale (-149) (mant g) (expo g)));
    intros; try discriminate; assumption.
Qed.

End PointsFacts.

(** * The claims *)

Import Binary32Facts PointsDemo PointsFacts.

Section Claims.
Variables SDL_sinf SDL_cosf : spec_float -> spec_float.

Lemma SDL_AppIterate_eq (ticks : Z) (st : app_state) :
SDL_AppIterate SDL_sinf SDL_cosf ticks st =
  (SDL_APP_CONTINUE,
   draw_frame SDL_sinf SDL_cosf (Uint64_of ticks)
     (with_last_time (move_stars (elapsed_seconds (Uint64_of ticks) (last_time st)) st)
                     (Uint64_of ticks))).
Proof. reflexivity. Qed.

Lemma snd_pair {A B : Type} (a : A) (b : B) : snd (a, b) = b.
Proof. reflexivity. Qed.

Lemma points_with_last_time (st : app_state) (t : Z) :
points (with_last_time st t) = points st /\
point_speeds (with_last_time st t) = point_speeds st /\
renderer (with_last_time st t) = renderer st.
Proof. repeat split. Qed.

Lemma SDL_AppIterate_stars (ticks : Z) (st : app_state) :
points (snd (SDL_AppIterate SDL_sinf SDL_cosf ticks st)) =
  points (move_stars (elapsed_seconds (Uint64_of ticks) (last_time st)) st) /\
point_speeds (snd (SDL_AppIterate SDL_sinf SDL_cosf ticks st)) =
  point_speeds (move_stars (elapsed_seconds (Uint64_of ticks) (last_time st)) st).
Proof.
rewrite SDL_AppIterate_eq, snd_pair.
destruct (draw_frame_spec SDL_sinf SDL_cosf (Uint64_of ticks)
            (with_last_time (move_stars (elapsed_seconds (Uint64_of ticks) (last_time st)) st)
                            (Uint64_of ticks)))
  as (_ & _ & _ & _ & _ & _ & -> & -> & _).
destruct (points_with_last_time
            (move_stars (elapsed_seconds (Uint64_of ticks) (last_time st)) st)
            (Uint64_of ticks)) as (-> & -> & _).
split; reflexivity.
Qed.

Lemma SDL_AppIterate_frame (ticks : Z) (st : app_state) :
queue (renderer st) = [] ->
exists frame,
  presented (renderer (snd (SDL_AppIterate SDL_sinf SDL_cosf ticks st))) =
    presented (renderer st) ++ [frame] /\
  frame_points frame = points (snd (SDL_AppIterate SDL_sinf SDL_cosf ticks st)).
Proof.
intros Hq. destruct (SDL_AppIterate_stars ticks st) as [-> _].
rewrite SDL_AppIterate_eq, snd_pair.
destruct (move_stars_frame (elapsed_seconds (Uint64_of ticks) (last_time st)) st)
  as (Hr & _ & _).
destruct (draw_frame_spec SDL_sinf SDL_cosf (Uint64_of ticks)
            (with_last_time (move_stars (elapsed_seconds (Uint64_of ticks) (last_time st)) st)
                            (Uint64_of ticks)))
  as (frame & -> & _ & Hfp & _).
destruct (points_with_last_time
            (move_stars (elapsed_seconds (Uint64_of ticks) (last_time st)) st)
            (Uint64_of ticks)) as (Hp & _ & Hr').
rewrite Hp in Hfp. rewrite Hr', Hr, Hq. exists frame. split; [reflexivity | exact Hfp].
Qed.

(** C1. In every run of the Points/Ship Demo, at every frame: the points
  the frame starts from lie in the window ([0 <= x < 640] and
  [0 <= y < 480] as binary32 comparisons), so do the points after the
  "Move stars" loop with its wrap check, and the points the frame draws
  are those repositioned points. *)
Theorem stars_stay_in_window (gen : rand_state) (ticks : Z) (passes : list pass) (now : Z) :
let st := run SDL_sinf SDL_cosf gen ticks passes in
let st' := snd (SDL_AppIterate SDL_sinf SDL_cosf now st) in
Forall (fun p => in_window p = true) (points st) /\
Forall (fun p => in_window p = true) (points st') /\
exists frame,
  last (presented (renderer st')) = Some frame /\ frame_points frame = points st'.
Proof.
cbv zeta. pose proof (run_ok SDL_sinf SDL_cosf gen ticks passes) as Hok.
revert Hok. generalize (run SDL_sinf SDL_cosf gen ticks passes). intros st Hok.
destruct (SDL_AppIterate_ok SDL_sinf SDL_cosf now st Hok) as [_ Hok'].
destruct Hok as [[_ _ Hp _ _] [Hq _] _]. destruct Hok' as [[_ _ Hp' _ _] _ _].
split_and!.
- eapply Forall_impl; [exact Hp|]. intros p. apply point_ok_in_window.
- eapply Forall_impl; [exact Hp'|]. intros p. apply point_ok_in_window.
- destruct (SDL_AppIterate_frame now st Hq) as (frame & Hpr & Hfp).
  exists frame. rewrite Hpr, last_snoc. split; [reflexivity | exact Hfp].
Qed.

(** C6. Every speed the program assigns lies in [[30, 960]]: the
  expression both assignment sites evaluate does, for every value
  [SDL_randf] can return, and so does every entry of [point_speeds]
  after [SDL_AppInit] and after any number of frames. *)
Theorem speeds_stay_in_range :
(forall u : unit_float, speed_in_range (random_speed (uf_val u)) = true) /\
(forall (gen : rand_state) (ticks : Z) (passes : list pass),
   Forall (fun v => speed_in_range v = true)
          (point_speeds (run SDL_sinf SDL_cosf gen ticks passes))).
Proof.
split; [exact random_speed_ok|]. intros gen ticks passes.
destruct (run_ok SDL_sinf SDL_cosf gen ticks passes) as [[_ _ _ Hs _] _ _]. exact Hs.
Qed.

(** C9. When [SDL_AppIterate] is called at the tick recorded in
  [last_time], the elapsed time is [+0] and the call leaves [points] and
  [point_speeds] as they were. *)
Theorem no_elapsed_time_keeps_stars (gen : rand_state) (ticks : Z) (passes : list pass) :
let st := run SDL_sinf SDL_cosf gen ticks passes in
let st' := snd (SDL_AppIterate SDL_sinf SDL_cosf (last_time st) st) in
elapsed_seconds (Uint64_of (last_time st)) (last_time st) = zero /\
points st' = points st /\ point_speeds st' = point_speeds st.
Proof.
cbv zeta. pose proof (run_ok SDL_sinf SDL_cosf gen ticks passes) as Hok.
revert Hok. generalize (run SDL_sinf SDL_cosf gen ticks passes). intros st [Hst _ _].
destruct (SDL_AppIterate_stars (last_time st) st) as [-> ->].
rewrite elapsed_seconds_same by apply Hst.
rewrite move_stars_still by assumption. auto.
Qed.

Lemma same_float_eq (f g : spec_float) : same_float f g = true -> f = g.
Proof.
destruct f as [s|s| |s m e], g as [s'|s'| |s' m' e']; cbn; try discriminate.
- intros H. apply eqb_prop in H. congruence.
- intros H. apply eqb_prop in H. congruence.
- reflexivity.
- intros H. apply andb_prop in H as [H He]. apply andb_prop in H as [Hs Hm].
  apply eqb_prop in Hs. apply Pos.eqb_eq in Hm. apply Z.eqb_eq in He. congruence.
Qed.

Lemma add_100_exact_table :
forallb (fun k => same_float (fadd (of_Z k) (of_Z 100)) (of_Z (k + 100))) (seqZ 0 640) = true.
Proof. vm_compute. reflexivity. Qed.

Lemma add_100_exact (k : Z) : 0 <= k < 640 -> fadd (of_Z k) (of_Z 100) = of_Z (k + 100).
Proof.
intros Hk. assert (Hk' : 0 <= k < 0 + 640) by lia.
apply same_float_eq. exact (forallb_seqZ _ 0 640 add_100_exact_table k Hk').
Qed.

Lemma one_second_at_100 (now last : Z) :
Uint64_of (now - last) = 1000 ->
elapsed_seconds now last = of_Z 1 /\
fmul (elapsed_seconds now last) (of_Z 100) = of_Z 100.
Proof. intros H. unfold elapsed_seconds. rewrite H. split; reflexivity. Qed.

(** C5 (as amended). In [SDL_AppIterate], a point whose advance does not
  trigger the wrap check is stored with each coordinate replaced by its
  binary32 sum with the same [elapsed * speed] (a binary32 product), and
  keeps its speed.  With 1000 ticks elapsed the time step is exactly 1.0,
  at speed 100 the distance is exactly 100, and a point at integer
  coordinates moves by exactly (100, 100). *)
Theorem star_advances_by_elapsed_times_speed
  (ticks : Z) (st : app_state) (i : nat) (p : SDL_FPoint) (speed : spec_float) :
let elapsed := elapsed_seconds (Uint64_of ticks) (last_time st) in
let st' := snd (SDL_AppIterate SDL_sinf SDL_cosf ticks st) in
(i < NUM_POINTS)%nat ->
points st !! i = Some p -> point_speeds st !! i = Some speed ->
out_of_window (advance p (fmul elapsed speed)) = false ->
points st' !! i =
  Some {| x := fadd (x p) (fmul elapsed speed); y := fadd (y p) (fmul elapsed speed) |} /\
point_speeds st' !! i = Some speed /\
(forall now last, Uint64_of (now - last) = 1000 ->
   elapsed_seconds now last = of_Z 1 /\
   fmul (elapsed_seconds now last) (of_Z 100) = of_Z 100) /\
(forall kx ky, 0 <= kx < 640 -> 0 <= ky < 480 ->
   advance {| x := of_Z kx; y := of_Z ky |} (of_Z 100) =
     {| x := of_Z (kx + 100); y := of_Z (ky + 100) |}).
Proof.
cbv zeta. intros Hi Hp Hs Hin.
destruct (SDL_AppIterate_stars ticks st) as [-> ->].
destruct (move_stars_at (elapsed_seconds (Uint64_of ticks) (last_time st)) st i Hi)
  as (st0 & Hp0 & Hs0 & -> & ->).
rewrite <- Hp0 in Hp. rewrite <- Hs0 in Hs.
destruct (move_star_inside _ st0 i p speed Hp Hs Hin) as [-> ->].
split_and!; try reflexivity.
- exact one_second_at_100.
- intros kx ky Hx Hy. unfold advance; cbn [x y].
  rewrite !add_100_exact by lia. reflexivity.
Qed.

(** C2 (as amended). In every run, every frame after the first copies the
  glow texture three times with alpha modulation 40, and once a frame has
  been presented the texture's alpha modulation is 40. *)
Theorem glow_alpha_after_first_frame (gen : rand_state) (ticks : Z) (passes : list pass) :
let st := run SDL_sinf SDL_cosf gen ticks passes in
Forall (fun frame => copy_alphas frame = [40; 40; 40]) (tail (presented (renderer st))) /\
(presented (renderer st) = [] \/ alpha_mod <$> glowTex st = Some 40).
Proof.
cbv zeta. destruct (run_ok SDL_sinf SDL_cosf gen ticks passes) as [_ _ (tex & Hg & Ha)].
rewrite Hg. destruct (presented (renderer _)) as [|first later]; cbn [tail].
- split; [constructor | now left].
- destruct Ha as [Ha Hl]. split; [assumption | right].
  cbn [fmap option_fmap option_map]. rewrite Ha. reflexivity.
Qed.

End Claims.

(** C2 (counterexample). The three glow copies of the first frame after
    initialisation are drawn with the alpha modulation the texture was
    created with, 255, not 40; the second frame's are drawn with 40. *)
Lemma first_frame_glow_alpha :
  copy_alphas <$>
    presented (renderer (run no_trig no_trig sample_gen 0
                           [ {| events := []; ticks_at := 16 |};
                             {| events := []; ticks_at := 32 |} ])) =
  [ [255; 255; 255]; [40; 40; 40] ].
Proof. vm_compute. reflexivity. Qed.

(** C5 (witness): star 7 of the sample state, at (10, 20) with speed 100,
    after one second. *)
Lemma star_advances_witness :
  points (snd (SDL_AppIterate no_trig no_trig 1000 sample_state)) !! 7%nat =
    Some {| x := of_Z 110; y := of_Z 120 |}.
Proof.
  destruct (star_advances_by_elapsed_times_speed no_trig no_trig 1000 sample_state 7
              {| x := of_Z 10; y := of_Z 20 |} (of_Z 100)) as (H & _).
  - apply Nat.ltb_lt. reflexivity.
  - reflexivity.
  - reflexivity.
  - reflexivity.
  - rewrite H. reflexivity.
Defined.

(** C5 (counterexample). A run seeds star 0 at
    [x = 15728660 * 2 ^ -19] (just above 30) with speed exactly 100.  One
    second later the star has not wrapped and its [x] is
    [8519682 * 2 ^ -16]: the sum [x + 100] lies halfway between two floats
    and is rounded down, so the star moved by [100 - 2 ^ -17], not by
    exactly 100 (differences are counted in units of [2 ^ -19]). *)
Lemma star_advance_is_rounded :
  let st := run no_trig no_trig rounding_gen 0 [] in
  let st' := snd (SDL_AppIterate no_trig no_trig 1000 st) in
  let x0 := S754_finite false 15728660 (-19) in
  let x1 := S754_finite false 8519682 (-16) in
  points st !! 0%nat = Some {| x := x0; y := of_Z 240 |} /\
  point_speeds st !! 0%nat = Some (of_Z 100) /\
  elapsed_seconds (Uint64_of 1000) (last_time st) = of_Z 1 /\
  fmul (of_Z 1) (of_Z 100) = of_Z 100 /\
  out_of_window (advance {| x := x0; y := of_Z 240 |} (of_Z 100)) = false /\
  points st' !! 0%nat = Some {| x := x1; y := of_Z 340 |} /\
  Zscale (-19) (mant x1) (expo x1) - Zscale (-19) (mant x0) (expo x0) = 52428796 /\
  Zscale (-19) (mant (of_Z 100)) (expo (of_Z 100)) = 52428800 /\
  fsub x1 x0 = S754_finite false 13107199 (-17) /\
  flt (fsub x1 x0) (of_Z 100) = true.
Proof. vm_compute. repeat split. Qed.

(** C4 (counterexample). One pixel right of the centre the program stores
    alpha 248, while [(1 - d) * 255] is 248.625 there: the alpha is that
    value truncated, not that value. *)
Lemma glow_alpha_is_truncated :
  glow_alpha 40 41 40 = 248 /\
  glow_level 40 41 40 = S754_finite false 16293888 (-16) /\
  flt (of_Z 248) (glow_level 40 41 40) = true /\
  feq (of_Z (glow_alpha 40 41 40)) (glow_level 40 41 40) = false.
Proof. vm_compute. repeat split. Qed.

(** C4 (as amended). Every pixel of the glow texture (radius 40) holds the
    warm off-white colour with alpha equal to [(1 - d) * 255] truncated
    toward zero to an integer of [[0, 255]], where [d] is the pixel's
    distance from the centre divided by the radius and clamped to 1, all in
    binary32.  Alpha is 0 wherever the distance is at least the radius, and
    a pixel farther from the centre, by squared pixel distance or by the
    computed [d], never has the larger alpha. *)
Theorem glow_alpha_gradient (rd : SDL_Renderer) :
  exists tex rd',
    create_glow_texture rd 40 = (Some tex, rd') /\
    forall px py, 0 <= px < 80 -> 0 <= py < 80 ->
      pixels tex !! (px, py) =
        Some {| red := 255; green := 255; blue := 200; alpha := glow_alpha 40 px py |} /\
      ftrunc (fmul (fsub (of_Z 1) (glow_dist 40 px py)) (of_Z 255)) =
        Some (glow_alpha 40 px py) /\
      0 <= glow_alpha 40 px py <= 255 /\
      (40 * 40 <= sqdist 40 px py -> glow_alpha 40 px py = 0) /\
      (forall qx qy, 0 <= qx < 80 -> 0 <= qy < 80 ->
         sqdist 40 px py <= sqdist 40 qx qy \/
         flt (glow_dist 40 px py) (glow_dist 40 qx qy) = true ->
         glow_alpha 40 qx qy <= glow_alpha 40 px py).
Proof.
  destruct (create_glow_texture_spec rd 40 ltac:(lia) ltac:(lia))
    as (tex & rd' & E & _ & _ & _ & _ & _ & _ & _ & Hpix).
  exists tex, rd'. split; [exact E|]. intros px py Hx Hy.
  assert (Hfacts : forall qx qy, 0 <= qx < 80 -> 0 <= qy < 80 ->
            ftrunc (glow_level 40 qx qy) = Some (glow_alpha 40 qx qy) /\
            0 <= glow_alpha 40 qx qy <= 255 /\
            glow_alpha 40 qx qy = alpha_by_sq 40 (sqdist 40 qx qy) /\
            keyed (glow_dist 40 qx qy) = true /\
            fkey (glow_dist 40 qx qy) = fkey (dist_by_sq 40 (sqdist 40 qx qy))).
  { intros qx qy Hqx Hqy. pose proof (glow_pixel_checked qx qy Hqx Hqy) as H.
    unfold glow_pixel_check in H.
    apply andb_prop in H as [H Hk]. apply andb_prop in H as [H Hkeyed].
    apply andb_prop in H as [H Ha]. apply andb_prop in H as [_ Ht].
    destruct (ftrunc (glow_level 40 qx qy)) as [t|]; [|discriminate].
    apply andb_prop in Ht as [Ht Hat]. apply andb_prop in Ht as [Ht0 Ht1].
    apply Z.eqb_eq in Hat, Ha, Hk. apply Z.leb_le in Ht0, Ht1.
    split_and!; try assumption; try lia. now rewrite Hat. }
  destruct (Hfacts px py Hx Hy) as (Ht & Hr & Ha & Hkd & Hk).
  pose proof (sqdist_range px py Hx Hy) as Hn.
  split_and!.
  - rewrite Hpix by lia. reflexivity.
  - exact Ht.
  - lia.
  - lia.
  - intros Hout. rewrite Ha.
    pose proof (glow_step_checked (sqdist 40 px py) Hn) as Hs. unfold glow_step_check in Hs.
    apply andb_prop in Hs as [_ Hs]. apply orb_prop in Hs as [Hs | Hs].
    + apply Z.ltb_lt in Hs. lia.
    + now apply Z.eqb_eq in Hs.
  - intros qx qy Hqx Hqy Hfar.
    destruct (Hfacts qx qy Hqx Hqy) as (_ & _ & Ha' & Hkd' & Hk').
    pose proof (sqdist_range qx qy Hqx Hqy) as Hn'.
    rewrite Ha, Ha'. apply alpha_by_sq_mono; [|lia]. split; [lia|].
    destruct Hfar as [Hle | Hlt]; [exact Hle|].
    apply flt_fkey in Hlt; [|assumption|assumption]. rewrite Hk, Hk' in Hlt.
    destruct (Z_le_gt_dec (sqdist 40 px py) (sqdist 40 qx qy)) as [|Hgt]; [assumption|].
    pose proof (dist_key_mono (sqdist 40 qx qy) (sqdist 40 px py) ltac:(lia) ltac:(lia)). lia.
Qed.

(** C4 (witness): the pixels one and two to the right of the centre. *)
Lemma glow_alpha_gradient_witness :
  glow_alpha 40 42 40 <= glow_alpha 40 41 40 <= 255.
Proof.
  destruct (glow_alpha_gradient (renderer (static_state sample_gen))) as (tex & rd' & _ & H).
  destruct (H 41 40 ltac:(lia) ltac:(lia)) as (_ & _ & Hr & _ & Hm).
  split; [|lia]. apply Hm; [lia | lia |]. left. unfold sqdist. lia.
Defined.

(** C7. [SDL_AppEvent] returns [SDL_APP_SUCCESS] exactly for an event of
    type [SDL_EVENT_QUIT] and [SDL_APP_CONTINUE] exactly for every other
    event; it never reports failure. *)
Theorem quit_event_ends_the_run (st : app_state) (event : SDL_Event) :
  (SDL_AppEvent st event = SDL_APP_SUCCESS <-> type event = SDL_EVENT_QUIT) /\
  (SDL_AppEvent st event = SDL_APP_CONTINUE <-> type event <> SDL_EVENT_QUIT) /\
  SDL_AppEvent st event <> SDL_APP_FAILURE.
Proof.
  unfold SDL_AppEvent. destruct (Z.eqb_spec (type event) SDL_EVENT_QUIT) as [He | Hne].
  - split_and!; [split; auto | split; [discriminate | contradiction] | discriminate].
  - split_and!; [split; [discriminate | contradiction] | split; auto | discriminate].
Qed.

Module WindowFacts.
Import WindowDemo.

(** C8. When [SDL_Init] fails the program logs once and returns -1; it
    neither creates a window nor waits.  When it succeeds the program
    creates the window, waits 5000 ms, quits SDL and returns 0. *)
Theorem main_checks_init (w : option positive) :
  let failed := run_main {| init_succeeds := false; created_window := w |} in
  let ran := run_main {| init_succeeds := true; created_window := w |} in
  fst failed = -1 /\
  snd failed = [Call_Init; Call_Log "Failed!"] /\
  existsb is_create_window (snd failed) = false /\
  existsb is_delay (snd failed) = false /\
  fst ran = 0 /\
  snd ran = [Call_Init; Call_CreateWindow "Cavan - SDL3" 320 240 SDL_WINDOW_RESIZABLE;
             Call_Delay 5000; Call_Quit].
Proof. cbv zeta. repeat split. Qed.

(** C10. The window [SDL_CreateWindow] returns is never examined: whatever
    it is, a null window included, the program goes on to wait 5000 ms,
    quit SDL and return 0, exactly as with any other window. *)
Theorem main_ignores_window (w : option positive) :
  let ran := run_main {| init_succeeds := true; created_window := w |} in
  ran = run_main {| init_succeeds := true; created_window := None |} /\
  fst ran = 0 /\
  drop 2 (snd ran) = [Call_Delay 5000; Call_Quit] /\
  existsb is_log (snd ran) = false.
Proof. cbv zeta. repeat split. Qed.

End WindowFacts.

Import Rounding StarNotions.

(** * Further properties *)

(** ** Binary32: what rounding keeps *)

Lemma representable_opp (f : spec_float) : representable (SFopp f) = representable f.
Proof. destruct f; reflexivity. Qed.

Lemma representable_pack (s : bool) (m e : Z) :
  m < 2 ^ 24 -> -149 <= e -> representable (pack s m e) = true.
Proof.
  intros Hm He. unfold pack. destruct m as [|p|p]; try reflexivity.
  destruct (e <=? emax - prec); [|reflexivity]. cbn [representable].
  apply andb_true_intro. split; [apply Z.ltb_lt | apply Z.leb_le]; assumption.
Qed.

(** A mantissa that needs no shift is kept as it is. *)
Lemma round_aux_unshifted (s : bool) (M e : Z) :
  0 < M -> fexp prec emax (Zdigits2 M + e) < e ->
  binary_round_aux prec emax s M e loc_Exact = pack s M e.
Proof.
  intros HM Hlt. unfold binary_round_aux, shr_fexp, shr.
  destruct (fexp prec emax (Zdigits2 M + e) - e) as [|k|k] eqn:Hk; try lia.
  cbn [shr_record_of_loc shr_m loc_of_shr_record round_nearest_even].
  rewrite Hk. cbn [shr_m]. reflexivity.
Qed.

Lemma round_aux_representable (s : bool) (M e : Z) :
  0 < M -> representable (binary_round_aux prec emax s M e loc_Exact) = true.
Proof.
  intros HM. destruct (Z_le_gt_dec e (fexp prec emax (Zdigits2 M + e))) as [Hpre | Hno].
  - destruct (round_aux_spec s M e HM Hpre) as (mr & Hmr & _ & _ & _ & ->).
    rewrite fexp_eq.
    destruct (Z.eqb_spec mr (2 ^ 24)) as [Heq | Hne]; apply representable_pack; lia.
  - rewrite round_aux_unshifted by lia. rewrite fexp_eq in Hno.
    destruct (Zdigits2_bounds M HM) as (Hd0 & _ & Hhi).
    apply representable_pack; [|lia].
    assert (2 ^ Zdigits2 M <= 2 ^ 24) by (apply pow2_le; lia). lia.
Qed.

Lemma binary_round_representable (s : bool) (m : positive) (e : Z) :
  representable (binary_round prec emax s m e) = true.
Proof.
  unfold binary_round. destruct (shl_align m e _) as [mz ez].
  apply round_aux_representable. lia.
Qed.

Lemma fmul_representable (f g : spec_float) : representable (fmul f g) = true.
Proof.
  destruct f as [sf|sf| |sf mf ef], g as [sg|sg| |sg mg eg]; try reflexivity.
  apply round_aux_representable. lia.
Qed.

Lemma fadd_representable (f g : spec_float) :
  representable f = true -> representable g = true -> representable (fadd f g) = true.
Proof.
  destruct f as [[]|[]| |sf mf ef], g as [[]|[]| |sg mg eg]; intros Hf Hg;
    try reflexivity; try assumption.
  unfold fadd, SFadd, binary_normalize.
  destruct (_ + _) as [|p|p]; [reflexivity | apply binary_round_representable..].
Qed.

Section RoundAbove.
Variables (M e : Z) (Bm : positive) (Be : Z).
Hypothesis HM : 0 < M.
Hypothesis Hpre : e <= fexp prec emax (Zdigits2 M + e).
Hypothesis HBm : Zpos Bm < 2 ^ 24.
Hypothesis HBe : -149 <= Be.

Let c := Z.min e Be.
Let E := fexp prec emax (Zdigits2 M + e).

(** Rounding never falls below a representable number that the exact
    value is not below. *)
Lemma round_aux_above :
  Zscale c (Zpos Bm) Be <= Zscale c M e ->
  fle (S754_finite false Bm Be) (binary_round_aux prec emax false M e loc_Exact) = true.
Proof.
  intros Hv.
  destruct (round_aux_spec false M e HM Hpre) as (mr & Hmr & Hnorm & _ & Hlw & Hres).
  destruct (Zdigits2_bounds M HM) as (Hd0 & Hlo & Hhi).
  fold E in Hnorm, Hlw, Hres.
  assert (HE : E = Z.max (Zdigits2 M + e - 24) (-149)) by reflexivity.
  assert (Hce : c <= e) by (unfold c; lia).
  assert (HcB : c <= Be) by (unfold c; lia).
  unfold Zscale in Hv.
  pose proof (pow2_pos (e - c) ltac:(lia)) as Ha.
  pose proof (pow2_pos (Be - c) ltac:(lia)) as Hb.
  pose proof (pow2_pos (E - e) ltac:(lia)) as Hk.
  pose proof (pow2_pos (E - c) ltac:(lia)) as Hec.
  assert (HEc : 2 ^ (E - c) = 2 ^ (E - e) * 2 ^ (e - c)).
  { rewrite <- pow2_add by lia. f_equal; lia. }
  assert (Hval : Zpos Bm * 2 ^ (Be - c) <= mr * 2 ^ (E - c)).
  { destruct (Z_le_gt_dec E Be) as [Hle|Hgt].
    - assert (HW : 2 ^ (Be - c) = 2 ^ (Be - E) * 2 ^ (E - c)).
      { rewrite <- pow2_add by lia. f_equal; lia. }
      pose proof (pow2_pos (Be - E) ltac:(lia)) as Hq.
      assert (Zpos Bm * 2 ^ (Be - E) <= mr).
      { apply Hlw. rewrite HW, HEc in Hv. nia. }
      rewrite HW. nia.
    - assert (HV : 2 ^ (E - c) = 2 ^ (E - Be - 1) * 2 * 2 ^ (Be - c)).
      { change 2 with (2 ^ 1) at 3. rewrite <- !pow2_add by lia. f_equal; lia. }
      pose proof (pow2_pos (E - Be - 1) ltac:(lia)) as Hq.
      specialize (Hnorm ltac:(lia)). rewrite HV.
      change (2 ^ 23) with 8388608 in *. change (2 ^ 24) with 16777216 in *. nia. }
  assert (Hmr0 : 0 < mr) by nia.
  rewrite Hres. destruct (Z.eqb_spec mr (2 ^ 24)) as [Heq | Hne].
  - unfold pack. change (2 ^ 23) with 8388608.
    destruct (Z.leb_spec (E + 1) (emax - prec)) as [_|_]; [|reflexivity].
    apply (fle_finite c); [lia | lia |].
    unfold Zscale. replace (E + 1 - c) with (1 + (E - c)) by lia.
    rewrite pow2_add by lia. subst mr. change (2 ^ 24) with 16777216 in *.
    change (2 ^ 1) with 2. lia.
  - unfold pack. destruct mr as [|p|p]; try lia.
    destruct (Z.leb_spec E (emax - prec)) as [_|_]; [|reflexivity].
    apply (fle_finite c); [lia | lia | exact Hval].
Qed.
End RoundAbove.

Lemma binary_round_above (m : positive) (e : Z) (Bm : positive) (Be : Z) :
  Zpos Bm < 2 ^ 24 -> -149 <= Be ->
  Zscale (Z.min e Be) (Zpos Bm) Be <= Zscale (Z.min e Be) (Zpos m) e ->
  fle (S754_finite false Bm Be) (binary_round prec emax false m e) = true.
Proof.
  intros HBm HBe Hv. unfold binary_round.
  pose proof (shl_align_spec m e (fexp prec emax (Zpos (digits2_pos m) + e))) as Hs.
  destruct (shl_align m e _) as [mz ez]. destruct Hs as (Hez & Hmz & Hdig & Hdn & Hup).
  assert (Hc : Z.min ez Be <= Z.min e Be) by lia.
  apply round_aux_above; try assumption; try lia.
  - cbn [Zdigits2]. rewrite Hdig.
    destruct (Z_le_gt_dec (fexp prec emax (Zpos (digits2_pos m) + e)) e); lia.
  - rewrite Hmz, Zscale_trans by lia.
    rewrite (Zscale_base (Z.min e Be) (Z.min ez Be) (Zpos m) e),
      (Zscale_base (Z.min e Be) (Z.min ez Be) (Zpos Bm) Be) by lia.
    pose proof (pow2_pos (Z.min e Be - Z.min ez Be) ltac:(lia)). nia.
Qed.

Lemma fle_refl_nonneg (f : spec_float) : nonneg f = true -> fle f f = true.
Proof.
  destruct f as [[]|[]| |[] m e]; try discriminate; intros _; try reflexivity.
  apply (fle_finite e); lia.
Qed.

(** Adding a number that is not negative never gives less. *)
Lemma fadd_above (c d : spec_float) :
  nonneg_finite c = true -> representable c = true -> nonneg d = true ->
  fle c (fadd c d) = true.
Proof.
  destruct c as [[]|[]| |[] mc ec]; try discriminate; intros _ Hc;
    destruct d as [[]|[]| |[] md ed]; try discriminate; intros _; try reflexivity.
  - apply flt_fle, flt_zero_finite.
  - apply (fle_finite ec); lia.
  - cbn [representable] in Hc. apply andb_prop in Hc as [Hm He].
    apply Z.ltb_lt in Hm. apply Z.leb_le in He.
    destruct (fadd_finite mc ec md ed) as (S & -> & HS).
    apply binary_round_above; try assumption.
    rewrite HS.
    assert (Hmin : Z.min (Z.min ec ed) ec = Z.min ec ed) by lia. rewrite Hmin.
    pose proof (Zscale_pos (Z.min ec ed) (Zpos md) ed ltac:(lia) ltac:(lia)).
    rewrite Zscale_same. lia.
Qed.

(** *** Signs and ranges through the glow computation *)

Lemma fmul_square_nonneg (f : spec_float) : nonneg f = true -> nonneg (fmul f f) = true.
Proof.
  destruct f as [[]|[]| |[] m e]; try discriminate; intros _; try reflexivity.
  apply round_aux_nonneg. lia.
Qed.

Lemma fadd_nonneg_both (f g : spec_float) :
  nonneg f = true -> nonneg g = true -> nonneg (fadd f g) = true.
Proof.
  destruct f as [[]|[]| |[] mf ef]; try discriminate; intros _;
    destruct g as [[]|[]| |[] mg eg]; try discriminate; intros _; try reflexivity.
  unfold fadd, SFadd, cond_Zopp, binary_normalize. cbn [Z.add].
  apply binary_round_nonneg.
Qed.

Lemma fsqrt_nonneg (f : spec_float) : nonneg f = true -> nonneg (fsqrt f) = true.
Proof.
  destruct f as [[]|[]| |[] m e]; try discriminate; intros _; try reflexivity.
  unfold fsqrt, SFsqrt, SFsqrt_core_binary.
  set (m' := match _ - _ with 0 => Zpos m | Zpos _ => _ | Zneg _ => 0 end).
  pose proof (Z.sqrtrem_sqrt m') as Hq. pose proof (Z.sqrt_nonneg m') as H0.
  destruct (Z.sqrtrem m') as [q r]. cbn [fst] in Hq. subst q.
  apply round_aux_nonneg. exact H0.
Qed.

(** A value with its sign bit clear that a positive bound is not below is
    finite and at most the bound. *)
Lemma not_flt_fle (u : spec_float) (m : positive) (e : Z) :
  nonneg u = true -> flt (S754_finite false m e) u = false ->
  nonneg_finite u = true /\ fle u (S754_finite false m e) = true.
Proof.
  destruct u as [[]|[]| |[] mu eu]; try discriminate; intros _ H.
  - split; [reflexivity | apply flt_fle, flt_zero_finite].
  - split; [reflexivity|].
    apply (fle_finite (Z.min eu e)); try lia.
    destruct (Z_le_gt_dec (Zscale (Z.min eu e) (Zpos mu) eu) (Zscale (Z.min eu e) (Zpos m) e))
      as [|Hgt]; [assumption|exfalso].
    assert (flt (S754_finite false m e) (S754_finite false mu eu) = true)
      by (apply (flt_finite (Z.min eu e)); lia).
    congruence.
Qed.

(** A positive float that is at most 1. *)
Lemma le_one_bounds (m : positive) (e : Z) :
  fle (S754_finite false m e) (S754_finite false 8388608 (-23)) = true ->
  e <= 0 /\ Zpos m <= 2 ^ (- e).
Proof.
  intros H. apply (fle_finite (Z.min e (-23))) in H; try lia. unfold Zscale in H.
  destruct (Z_lt_ge_dec e (-23)) as [Hlo | Hhi].
  - rewrite Z.min_l in H by lia. rewrite Z.sub_diag in H. change (2 ^ 0) with 1 in H.
    assert (Hp : 2 ^ (- e) = 2 ^ 23 * 2 ^ (-23 - e)).
    { rewrite <- pow2_add by lia. f_equal; lia. }
    change (2 ^ 23) with 8388608 in Hp. lia.
  - rewrite Z.min_r in H by lia. rewrite Z.sub_diag in H. change (2 ^ 0) with 1 in H.
    pose proof (pow2_pos (e - -23) ltac:(lia)) as Hq.
    assert (He : e <= 0).
    { destruct (Z_le_gt_dec e 0) as [|Hpos]; [assumption|exfalso].
      assert (2 ^ 24 <= 2 ^ (e - -23)) by (apply pow2_le; lia).
      change (2 ^ 24) with 16777216 in *. nia. }
    split; [assumption|].
    assert (Hp : 2 ^ 23 = 2 ^ (e - -23) * 2 ^ (- e)).
    { rewrite <- pow2_add by lia. f_equal; lia. }
    pose proof (pow2_pos (- e) ltac:(lia)).
    change (2 ^ 23) with 8388608 in *. nia.
Qed.

Lemma fsub_finite (mx : positive) (ex : Z) (my : positive) (ey : Z) :
  fsub (S754_finite false mx ex) (S754_finite false my ey) =
    binary_normalize prec emax
      (Zscale (Z.min ex ey) (Zpos mx) ex - Zscale (Z.min ex ey) (Zpos my) ey)
      (Z.min ex ey) false.
Proof.
  unfold fsub, SFsub, cond_Zopp.
  pose proof (shl_align_spec mx ex (Z.min ex ey)) as Hx.
  pose proof (shl_align_spec my ey (Z.min ex ey)) as Hy.
  change (IntDef.Z.min ex ey) with (Z.min ex ey).
  destruct (shl_align mx ex _) as [ax ez1], (shl_align my ey _) as [ay ez2].
  destruct Hx as (_ & Hx & _ & Hx' & _), Hy as (_ & Hy & _ & Hy' & _).
  rewrite Hx' in Hx by lia. rewrite Hy' in Hy by lia. cbn [fst].
  now rewrite Hx, Hy.
Qed.

(** [1 - d] for [d] in [[0, 1]] is in [[0, 1]] again. *)
Lemma fsub_one_range (d : spec_float) :
  nonneg_finite d = true -> fle d (S754_finite false 8388608 (-23)) = true ->
  nonneg_finite (fsub (S754_finite false 8388608 (-23)) d) = true /\
  fle (fsub (S754_finite false 8388608 (-23)) d) (S754_finite false 8388608 (-23)) = true.
Proof.
  destruct d as [[]|[]| |[] md ed]; try discriminate; intros _ Hle.
  - split; reflexivity.
  - rewrite fsub_finite. set (ez := Z.min (-23) ed).
    apply (fle_finite ez) in Hle; try (unfold ez; lia).
    pose proof (Zscale_pos ez (Zpos md) ed ltac:(unfold ez; lia) ltac:(lia)) as Hd.
    destruct (Zscale ez 8388608 (-23) - Zscale ez (Zpos md) ed) as [|M|M] eqn:HD; try lia.
    + split; reflexivity.
    + cbn [binary_normalize].
      apply (binary_round_le M ez 8388608 (-23));
        [change (2 ^ 23) with 8388608; change (2 ^ 24) with 16777216; lia | lia |].
      assert (Hmin : Z.min ez (-23) = ez) by (unfold ez; lia). rewrite Hmin.
      rewrite Zscale_same. unfold Zscale in *.
      pose proof (pow2_pos (-23 - ez) ltac:(unfold ez; lia)). lia.
Qed.

(** [t * 255] for [t] in [[0, 1]] is in [[0, 255]]. *)
Lemma fmul_255_range (t : spec_float) :
  nonneg_finite t = true -> fle t (S754_finite false 8388608 (-23)) = true ->
  nonneg_finite (fmul t (S754_finite false 16711680 (-16))) = true /\
  fle (fmul t (S754_finite false 16711680 (-16))) (S754_finite false 16711680 (-16)) = true.
Proof.
  destruct t as [[]|[]| |[] mt et]; try discriminate; intros _ Hle.
  - split; reflexivity.
  - destruct (le_one_bounds mt et Hle) as [He Hm].
    unfold fmul, SFmul. cbn [xorb].
    pose proof (pow2_pos (- et) ltac:(lia)) as Hp.
    assert (Hmin : Z.min (et + -16) (-16) = et + -16) by lia.
    destruct (Z_le_gt_dec (et + -16)
                (fexp prec emax (Zdigits2 (Zpos (mt * 16711680)) + (et + -16)))) as [Hpre | Hno].
    + apply (round_aux_le (Zpos (mt * 16711680)) (et + -16) 16711680 (-16));
        [lia | exact Hpre
        | change (2 ^ 23) with 8388608; change (2 ^ 24) with 16777216; lia | lia |].
      rewrite Hmin, Zscale_same. unfold Zscale.
      replace (-16 - (et + -16)) with (- et) by lia.
      rewrite Pos2Z.inj_mul. nia.
    + rewrite round_aux_unshifted by lia. unfold pack.
      destruct (Z.leb_spec (et + -16) (emax - prec)) as [_|Hbad];
        [|unfold emax, prec in Hbad; lia].
      split; [reflexivity|].
      apply (fle_finite (et + -16)); try lia.
      rewrite Zscale_same. unfold Zscale.
      replace (-16 - (et + -16)) with (- et) by lia.
      rewrite Pos2Z.inj_mul. nia.
Qed.

(** Truncating a float of [[0, 255]] gives an integer of [[0, 255]]. *)
Lemma ftrunc_le_255 (f : spec_float) :
  nonneg_finite f = true -> fle f (S754_finite false 16711680 (-16)) = true ->
  exists t, ftrunc f = Some t /\ 0 <= t <= 255.
Proof.
  destruct f as [[]|[]| |[] m e]; try discriminate; intros _ Hle.
  - exists 0. split; [reflexivity | lia].
  - cbn [ftrunc]. eexists. split; [reflexivity|].
    apply (fle_finite (Z.min e (-16))) in Hle; try lia. unfold Zscale in Hle.
    assert (Hm : Zpos m * 2 ^ 16 <= 255 * 2 ^ 16 * 2 ^ (Z.max 0 (- e)) /\
                 (0 <= e -> Zpos m * 2 ^ e <= 255)).
    { destruct (Z_lt_ge_dec e (-16)) as [Hlo | Hhi].
      - rewrite Z.min_l in Hle by lia. rewrite Z.sub_diag in Hle.
        change (2 ^ 0) with 1 in Hle. rewrite Z.max_r by lia.
        assert (Hp : 2 ^ (- e) = 2 ^ 16 * 2 ^ (-16 - e)).
        { rewrite <- pow2_add by lia. f_equal; lia. }
        change (2 ^ 16) with 65536 in *. split; [nia | lia].
      - rewrite Z.min_r in Hle by lia. rewrite Z.sub_diag in Hle.
        change (2 ^ 0) with 1 in Hle.
        destruct (Z_lt_ge_dec e 0) as [Hneg | Hpos].
        + rewrite Z.max_r by lia.
          assert (Hp : 2 ^ 16 = 2 ^ (e - -16) * 2 ^ (- e)).
          { rewrite <- pow2_add by lia. f_equal; lia. }
          pose proof (pow2_pos (- e) ltac:(lia)). pose proof (pow2_pos (e - -16) ltac:(lia)).
          change (2 ^ 16) with 65536 in *. split; [nia | lia].
        + rewrite Z.max_l by lia. change (2 ^ 0) with 1.
          assert (Hp : 2 ^ (e - -16) = 2 ^ e * 2 ^ 16).
          { rewrite <- pow2_add by lia. f_equal; lia. }
          pose proof (pow2_pos e ltac:(lia)).
          change (2 ^ 16) with 65536 in *. split; [nia | nia]. }
    destruct Hm as [Hm Hm'].
    destruct (Z_lt_ge_dec e 0) as [Hneg | Hpos].
    + rewrite Z.shiftl_div_pow2 by lia. rewrite Z.max_r in Hm by lia.
      pose proof (pow2_pos (- e) ltac:(lia)) as Hp.
      split; [apply Z.div_pos; lia|].
      apply Z.div_le_upper_bound; [lia|]. change (2 ^ 16) with 65536 in Hm. nia.
    + rewrite Z.shiftl_mul_pow2 by lia. pose proof (pow2_pos e ltac:(lia)).
      split; [nia | apply Hm'; lia].
Qed.

(** ** Initialisation *)

Lemma insert_prefix_drop {A : Type} (pre l : list A) (a : A) (n : nat) :
  length pre = n -> (n < length l)%nat ->
  <[n := a]> (pre ++ drop n l) = (pre ++ [a]) ++ drop (S n) l.
Proof.
  intros Hpre Hn. rewrite insert_app_r_alt by lia.
  replace (n - length pre)%nat with 0%nat by lia.
  destruct (lookup_lt_is_Some_2 l n Hn) as [b Hb].
  rewrite (drop_S l b n Hb). cbn [insert list_insert]. now rewrite <- app_assoc.
Qed.

(** The seeding loop in closed form: star [i] is built from draws [3 i],
    [3 i + 1] and [3 i + 2] counted from where the source stood. *)
Lemma seed_points_closed (n : nat) (st : app_state) :
  (n <= length (points st))%nat -> (n <= length (point_speeds st))%nat ->
  points (foldl seed_point st (seq 0 n)) =
    (seeded_point (rand st) <$> seq 0 n) ++ drop n (points st) /\
  point_speeds (foldl seed_point st (seq 0 n)) =
    (seeded_speed (rand st) <$> seq 0 n) ++ drop n (point_speeds st) /\
  source (rand (foldl seed_point st (seq 0 n))) = source (rand st) /\
  cursor (rand (foldl seed_point st (seq 0 n))) = (cursor (rand st) + 3 * n)%nat.
Proof.
  induction n as [|n IH]; intros Hp Hs.
  - cbn [seq foldl fmap list_fmap app drop]. split_and!; try reflexivity. lia.
  - rewrite seq_S, foldl_app. cbn [foldl Nat.add].
    destruct (IH ltac:(lia) ltac:(lia)) as (Hpts & Hsp & Hsrc & Hcur).
    revert Hpts Hsp Hsrc Hcur. generalize (foldl seed_point st (seq 0 n)).
    intros st1 Hpts Hsp Hsrc Hcur.
    unfold seed_point, SDL_randf; cbn [fst snd next source cursor].
    cbn [points point_speeds rand with_stars source cursor].
    rewrite Hpts, Hsp, Hsrc, Hcur, !fmap_app, !list_fmap_singleton.
    split_and!.
    + rewrite insert_prefix_drop by (rewrite ?length_fmap, ?length_seq; lia).
      do 2 f_equal. unfold seeded_point, draw_at.
      replace (cursor (rand st) + (3 * n + 1))%nat with (S (cursor (rand st) + 3 * n)) by lia.
      reflexivity.
    + rewrite insert_prefix_drop by (rewrite ?length_fmap, ?length_seq; lia).
      do 2 f_equal. unfold seeded_speed, draw_at.
      replace (cursor (rand st) + (3 * n + 2))%nat with (S (S (cursor (rand st) + 3 * n))) by lia.
      reflexivity.
    + cbn [next source]. exact Hsrc.
    + cbn [next cursor]. lia.
Qed.

(** [SDL_AppInit] once [SDL_Init] and the window have succeeded, whatever
    [SDL_CreateTexture] answers. *)
Lemma SDL_AppInit_started (created : bool) (ticks : Z) (st : app_state) :
  SDL_AppInit (started created) ticks st =
    (SDL_APP_CONTINUE,
     with_last_time
       (foldl seed_point
          (with_glowTex
             (with_renderer st (snd (create_glow_texture_with created (renderer st) 40)))
             (fst (create_glow_texture_with created (renderer st) 40)))
          (seq 0 NUM_POINTS))
       (Uint64_of ticks)).
Proof.
  unfold SDL_AppInit, started.
  cbn [init_succeeds window_and_renderer_created texture_created negb].
  destruct (create_glow_texture_with created (renderer st) 40) as [tex rd]. reflexivity.
Qed.

Lemma SDL_AppInit_result_fst (o : init_outcomes) (ticks : Z) (st : app_state) :
  fst (SDL_AppInit o ticks st) =
    if init_succeeds o && window_and_renderer_created o
    then SDL_APP_CONTINUE else SDL_APP_FAILURE.
Proof.
  destruct o as [[] [] created]; [|reflexivity..].
  change ({| init_succeeds := true; window_and_renderer_created := true;
             texture_created := created |}) with (started created).
  now rewrite SDL_AppInit_started.
Qed.

(** X1. [SDL_AppInit] reports [SDL_APP_CONTINUE] exactly when both
    [SDL_Init] and [SDL_CreateWindowAndRenderer] succeed, and never
    [SDL_APP_SUCCESS].  Otherwise it reports [SDL_APP_FAILURE] and returns
    with the program's variables as they were: no glow texture is created,
    no star is seeded, no random number is drawn and [last_time] is not
    set.  (The message it logs on that path is not part of the state.) *)
Theorem SDL_AppInit_fails_early (o : init_outcomes) (ticks : Z) (st : app_state) :
  (fst (SDL_AppInit o ticks st) = SDL_APP_CONTINUE <->
     init_succeeds o = true /\ window_and_renderer_created o = true) /\
  (fst (SDL_AppInit o ticks st) <> SDL_APP_CONTINUE ->
     SDL_AppInit o ticks st = (SDL_APP_FAILURE, st)) /\
  fst (SDL_AppInit o ticks st) <> SDL_APP_SUCCESS.
Proof.
  rewrite SDL_AppInit_result_fst.
  destruct o as [[] [] created]; cbn [init_succeeds window_and_renderer_created andb];
    split_and!; try discriminate; try reflexivity;
    try (split; [discriminate | intros []; discriminate]);
    try (split; auto); try (intros H; now contradiction H).
Qed.

(** X2. After a successful [SDL_AppInit], star [i] has
    [x = SDL_randf() * 640], [y = SDL_randf() * 480] and speed
    [30 + SDL_randf() * 930] from the random source's draws [3 i], [3 i + 1]
    and [3 i + 2] in this order, and the source has handed out exactly
    [3 * 500] numbers. *)
Theorem SDL_AppInit_seeds_in_order (gen : rand_state) (ticks : Z) :
  let st := snd (SDL_AppInit succeeds ticks (static_state gen)) in
  points st = seeded_point gen <$> seq 0 NUM_POINTS /\
  point_speeds st = seeded_speed gen <$> seq 0 NUM_POINTS /\
  source (rand st) = source gen /\
  cursor (rand st) = (cursor gen + 3 * NUM_POINTS)%nat.
Proof.
  cbv zeta. rewrite SDL_AppInit_succeeds. cbn [snd].
  generalize (snd (create_glow_texture (renderer (static_state gen)) 40)).
  generalize (fst (create_glow_texture (renderer (static_state gen)) 40)).
  intros tex rd.
  assert (H0 : points (with_glowTex (with_renderer (static_state gen) rd) tex) =
                 replicate NUM_POINTS {| x := zero; y := zero |} /\
               point_speeds (with_glowTex (with_renderer (static_state gen) rd) tex) =
                 replicate NUM_POINTS zero /\
               rand (with_glowTex (with_renderer (static_state gen) rd) tex) = gen)
    by (split_and!; reflexivity).
  revert H0. generalize (with_glowTex (with_renderer (static_state gen) rd) tex).
  intros st0 (Hp0 & Hs0 & Hr0).
  destruct (seed_points_closed NUM_POINTS st0) as (Hp & Hs & Hsrc & Hcur).
  { rewrite Hp0, length_replicate. apply Nat.le_refl. }
  { rewrite Hs0, length_replicate. apply Nat.le_refl. }
  revert Hp Hs Hsrc Hcur. generalize (foldl seed_point st0 (seq 0 NUM_POINTS)).
  intros st Hp Hs Hsrc Hcur.
  cbn [points point_speeds rand with_last_time].
  rewrite Hp, Hs, Hsrc, Hcur, Hp0, Hs0, Hr0.
  rewrite (drop_ge (replicate NUM_POINTS _) NUM_POINTS)
    by (rewrite length_replicate; apply Nat.le_refl).
  rewrite (drop_ge (replicate NUM_POINTS _) NUM_POINTS)
    by (rewrite length_replicate; apply Nat.le_refl).
  rewrite 2!app_nil_r. split_and!; reflexivity.
Qed.

(** ** The glow texture *)

(** What [create_glow_texture] paints and what it leaves alone, when the
    texture is created. *)
Lemma create_glow_texture_painted (rd : SDL_Renderer) (radius : Z) :
  0 < radius -> radius * 2 <= 2 ^ 24 ->
  exists tex rd',
    create_glow_texture rd radius = (Some tex, rd') /\
    tex_w tex = radius * 2 /\ tex_h tex = radius * 2 /\
    blend_mode tex = SDL_BLENDMODE_ADD /\ alpha_mod tex = 255 /\
    (forall px py,
       pixels tex !! (px, py) =
         if decide (0 <= px < radius * 2 /\ 0 <= py < radius * 2)
         then Some {| red := 255; green := 255; blue := 200;
                      alpha := glow_alpha radius px py |}
         else None) /\
    target rd' = None /\ queue rd' = queue rd /\ presented rd' = presented rd.
Proof.
  intros H0 Hr. pose proof (glow_counters_exact radius Hr) as Hexact.
  unfold create_glow_texture, create_glow_texture_with, SDL_CreateTexture.
  assert (Hpos : (0 <? radius * 2) = true) by (apply Z.ltb_lt; lia).
  rewrite Hpos. cbn [andb fmap option_fmap option_map].
  destruct (glow_rows_spec radius (seqZ 0 (radius * 2)) Hexact Hexact
              (SDL_SetRenderTarget rd
                 (Some (SDL_SetTextureBlendMode
                          {| tex_w := radius * 2; tex_h := radius * 2;
                             blend_mode := SDL_BLENDMODE_NONE; alpha_mod := 255;
                             pixels := ∅ |} SDL_BLENDMODE_ADD)))
              (SDL_SetTextureBlendMode
                 {| tex_w := radius * 2; tex_h := radius * 2;
                    blend_mode := SDL_BLENDMODE_NONE; alpha_mod := 255;
                    pixels := ∅ |} SDL_BLENDMODE_ADD))
    as (tex & Ht & Hq & Hp & (Hw & Hh & Hb & Ha) & Hpix); [reflexivity|].
  revert Ht Hq Hp.
  generalize (foldl (glow_row radius)
                (SDL_SetRenderTarget rd
                   (Some (SDL_SetTextureBlendMode
                            {| tex_w := radius * 2; tex_h := radius * 2;
                               blend_mode := SDL_BLENDMODE_NONE; alpha_mod := 255;
                               pixels := ∅ |} SDL_BLENDMODE_ADD)))
                (seqZ 0 (radius * 2))).
  intros rd1 Ht Hq Hp. exists tex, (SDL_SetRenderTarget rd1 None).
  rewrite Ht. cbn [target queue presented SDL_SetRenderTarget] in *.
  split_and!; try reflexivity; try assumption.
  intros px py. rewrite Hpix.
  cbn [pixels SDL_SetTextureBlendMode]. rewrite lookup_empty.
  destruct (decide (py ∈ seqZ 0 (radius * 2) /\ px ∈ seqZ 0 (radius * 2))) as [[H1 H2]|Hn].
  - apply elem_of_seqZ in H1, H2. rewrite decide_True by lia. reflexivity.
  - rewrite decide_False; [reflexivity|]. intros [H1 H2]. apply Hn.
    split; apply elem_of_seqZ; lia.
Qed.

(** With no texture bound every pass of the loops queues its point for the
    window. *)
Lemma glow_row_unbound (radius py : Z) (cols : list Z) :
  forall rd, target rd = None ->
    target (foldl (fun rd px => glow_pixel radius rd py px) rd cols) = None /\
    presented (foldl (fun rd px => glow_pixel radius rd py px) rd cols) = presented rd /\
    queue (foldl (fun rd px => glow_pixel radius rd py px) rd cols) =
      queue rd ++
      ((fun px => Cmd_Points (glow_color radius px py) [ {| x := of_Z px; y := of_Z py |} ])
         <$> cols).
Proof.
  induction cols as [|px cols IH]; intros rd Ht; cbn [foldl fmap list_fmap].
  - rewrite app_nil_r. auto.
  - assert (H1 : glow_pixel radius rd py px =
                 enqueue (SDL_SetRenderDrawColor rd 255 255 200 (glow_alpha radius px py))
                   (Cmd_Points (glow_color radius px py)
                      [ {| x := of_Z px; y := of_Z py |} ])).
    { unfold glow_pixel, SDL_RenderPoint. cbn [target SDL_SetRenderDrawColor].
      rewrite Ht. reflexivity. }
    destruct (IH (glow_pixel radius rd py px)) as (-> & -> & ->).
    { rewrite H1. exact Ht. }
    rewrite H1. cbn [presented queue enqueue SDL_SetRenderDrawColor].
    rewrite <- app_assoc. auto.
Qed.

Lemma glow_rows_unbound (radius : Z) (rows : list Z) :
  forall rd, target rd = None ->
    target (foldl (glow_row radius) rd rows) = None /\
    presented (foldl (glow_row radius) rd rows) = presented rd /\
    queue (foldl (glow_row radius) rd rows) =
      queue rd ++ concat (glow_row_points radius <$> rows).
Proof.
  induction rows as [|py rows IH]; intros rd Ht; cbn [foldl fmap list_fmap concat].
  - rewrite app_nil_r. auto.
  - destruct (glow_row_unbound radius py (seqZ 0 (radius * 2)) rd Ht) as (Ht1 & Hp1 & Hq1).
    fold (glow_row radius rd py) in Ht1, Hp1, Hq1.
    destruct (IH (glow_row radius rd py) Ht1) as (-> & -> & ->).
    rewrite Hp1, Hq1, <- app_assoc. auto.
Qed.

Lemma length_glow_rows (radius : Z) (rows : list Z) :
  length (concat (glow_row_points radius <$> rows)) =
    (length rows * Z.to_nat (radius * 2))%nat.
Proof.
  induction rows as [|py rows IH]; [reflexivity|].
  rewrite fmap_cons. cbn [concat]. rewrite length_app, IH.
  unfold glow_row_points. rewrite length_fmap, length_seqZ. cbn [length]. lia.
Qed.

Lemma length_glow_points (radius : Z) :
  length (glow_points radius) = (Z.to_nat (radius * 2) * Z.to_nat (radius * 2))%nat.
Proof. unfold glow_points. now rewrite length_glow_rows, length_seqZ. Qed.

(** What [create_glow_texture] does when [SDL_CreateTexture] returns
    [NULL]: it returns [NULL] and has drawn its points on the window. *)
Lemma create_glow_texture_null (rd : SDL_Renderer) (radius : Z) :
  exists rd',
    create_glow_texture_with false rd radius = (None, rd') /\
    target rd' = None /\ presented rd' = presented rd /\
    queue rd' = queue rd ++ glow_points radius.
Proof.
  unfold create_glow_texture_with, SDL_CreateTexture.
  cbn [andb fmap option_fmap option_map].
  destruct (glow_rows_unbound radius (seqZ 0 (radius * 2)) (SDL_SetRenderTarget rd None))
    as (Ht & Hp & Hq); [reflexivity|].
  revert Ht Hp Hq.
  generalize (foldl (glow_row radius) (SDL_SetRenderTarget rd None) (seqZ 0 (radius * 2))).
  intros rd1 Ht Hp Hq. exists (SDL_SetRenderTarget rd1 None).
  rewrite Ht. cbn [target queue presented SDL_SetRenderTarget] in *.
  split_and!; try reflexivity; assumption.
Qed.

(** X3. [create_glow_texture] for a positive radius whose texture side
    [radius * 2] is at most [2 ^ 24], so that the loop counters reach
    [SDL_RenderPoint] as the same numbers.  When [SDL_CreateTexture]
    returns a texture, the result is that texture, [radius * 2] pixels wide
    and high, in additive blend mode, with the alpha modulation it was
    created with; every pixel of the square holds (255, 255, 200) and the
    alpha computed for it and nothing is stored outside; what was queued
    for the window is untouched.  When [SDL_CreateTexture] returns [NULL]
    the result is [NULL], and since nothing is checked the loops have
    queued their [(radius * 2) ^ 2] points for the window.  Either way the
    renderer is handed back with the window as target and the presented
    frames as they were. *)
Theorem glow_texture_shape (rd : SDL_Renderer) (radius : Z) :
  0 < radius -> radius * 2 <= 16777216 ->
  (exists tex rd',
     create_glow_texture_with true rd radius = (Some tex, rd') /\
     tex_w tex = radius * 2 /\ tex_h tex = radius * 2 /\
     blend_mode tex = SDL_BLENDMODE_ADD /\ alpha_mod tex = 255 /\
     (forall px py,
        pixels tex !! (px, py) =
          if decide (0 <= px < radius * 2 /\ 0 <= py < radius * 2)
          then Some {| red := 255; green := 255; blue := 200;
                       alpha := glow_alpha radius px py |}
          else None) /\
     target rd' = None /\ queue rd' = queue rd /\ presented rd' = presented rd) /\
  (exists rd',
     create_glow_texture_with false rd radius = (None, rd') /\
     target rd' = None /\ presented rd' = presented rd /\
     queue rd' = queue rd ++ glow_points radius /\
     length (glow_points radius) = Z.to_nat (radius * 2 * (radius * 2))).
Proof.
  intros H0 Hr. split.
  - apply (create_glow_texture_painted rd radius H0). exact Hr.
  - destruct (create_glow_texture_null rd radius) as (rd' & E & Ht & Hp & Hq).
    exists rd'. split_and!; try assumption.
    rewrite length_glow_points, (Z2Nat.inj_mul (radius * 2) (radius * 2)) by lia.
    reflexivity.
Qed.

(** X3 (witness): radius 2 on the renderer the program starts with: with a
    texture its centre pixel is opaque and nothing is stored right of the
    square; without one, 16 points are queued. *)
Lemma glow_texture_shape_witness :
  (exists tex rd',
     create_glow_texture_with true (renderer (static_state sample_gen)) 2 = (Some tex, rd') /\
     tex_w tex = 4 /\
     pixels tex !! (2, 2) = Some {| red := 255; green := 255; blue := 200; alpha := 255 |} /\
     pixels tex !! (4, 2) = None) /\
  (exists rd',
     create_glow_texture_with false (renderer (static_state sample_gen)) 2 = (None, rd') /\
     length (queue rd') = 16%nat).
Proof.
  destruct (glow_texture_shape (renderer (static_state sample_gen)) 2)
    as [(tex & rd' & E & Hw & _ & _ & _ & Hpix & _) (rd2 & E2 & _ & _ & Hq & Hlen)]; [lia | lia |].
  split.
  - exists tex, rd'. rewrite !Hpix.
    split_and!; [exact E | exact Hw | reflexivity | reflexivity].
  - exists rd2. split; [exact E2|]. rewrite Hq, length_app, Hlen. reflexivity.
Defined.

Lemma round_aux_opp (m e : Z) (l : location) :
  binary_round_aux prec emax true m e l = SFopp (binary_round_aux prec emax false m e l).
Proof.
  unfold binary_round_aux.
  destruct (shr_fexp prec emax m e l) as [mrs' e'].
  destruct (shr_fexp prec emax _ e' loc_Exact) as [mrs'' e''].
  destruct (shr_m mrs''); try reflexivity. destruct (_ <=? _); reflexivity.
Qed.

Lemma of_Z_opp (p : positive) : of_Z (Zneg p) = SFopp (of_Z (Zpos p)).
Proof.
  unfold of_Z, binary_normalize, binary_round.
  destruct (shl_align p 0 _) as [mz ez]. apply round_aux_opp.
Qed.

Lemma fmul_opp_opp (f : spec_float) : fmul (SFopp f) (SFopp f) = fmul f f.
Proof. destruct f as [[]|[]| |[] m e]; reflexivity. Qed.

(** The square of an integer offset does not see the offset's sign. *)
Lemma of_Z_square_abs (z : Z) :
  fmul (of_Z z) (of_Z z) = fmul (of_Z (Z.abs z)) (of_Z (Z.abs z)).
Proof.
  destruct z as [|p|p]; try reflexivity.
  cbn [Z.abs]. rewrite of_Z_opp. apply fmul_opp_opp.
Qed.

Lemma fadd_comm (f g : spec_float) : fadd f g = fadd g f.
Proof.
  destruct f as [[]|[]| |sf mf ef], g as [[]|[]| |sg mg eg]; try reflexivity.
  unfold fadd, SFadd. rewrite (Z.min_comm ef eg). f_equal. apply Z.add_comm.
Qed.

Lemma glow_dist_abs (radius px py : Z) :
  glow_dist radius px py =
    glow_dist radius (radius + Z.abs (px - radius)) (radius + Z.abs (py - radius)).
Proof.
  unfold glow_dist.
  replace (radius + Z.abs (px - radius) - radius) with (Z.abs (px - radius)) by lia.
  replace (radius + Z.abs (py - radius) - radius) with (Z.abs (py - radius)) by lia.
  rewrite <- !of_Z_square_abs. reflexivity.
Qed.

Lemma glow_dist_swap (radius px py : Z) : glow_dist radius px py = glow_dist radius py px.
Proof. unfold glow_dist. now rewrite fadd_comm. Qed.

(** X4. For every radius, the alpha [create_glow_texture] computes for a
    pixel depends only on the absolute values of its two offsets from the
    centre, and not on which of them is horizontal: the gradient has the
    symmetries of a square about the pixel [(radius, radius)]. *)
Theorem glow_alpha_symmetric (radius px py : Z) :
  glow_alpha radius px py =
    glow_alpha radius (radius + Z.abs (px - radius)) (radius + Z.abs (py - radius)) /\
  glow_alpha radius px py = glow_alpha radius py px /\
  glow_alpha radius (radius - (px - radius)) py = glow_alpha radius px py /\
  glow_alpha radius px (radius - (py - radius)) = glow_alpha radius px py.
Proof.
  unfold glow_alpha, glow_level. split_and!.
  - now rewrite <- glow_dist_abs.
  - now rewrite glow_dist_swap.
  - rewrite (glow_dist_abs radius (radius - (px - radius)) py), (glow_dist_abs radius px py).
    replace (radius - (px - radius) - radius) with (- (px - radius)) by lia.
    now rewrite Z.abs_opp.
  - rewrite (glow_dist_abs radius px (radius - (py - radius))), (glow_dist_abs radius px py).
    replace (radius - (py - radius) - radius) with (- (py - radius)) by lia.
    now rewrite Z.abs_opp.
Qed.

(** A positive integer converts to a positive float or to [+infinity]. *)
Lemma of_Z_pos (p : positive) :
  (exists m e, of_Z (Zpos p) = S754_finite false m e) \/ of_Z (Zpos p) = S754_infinity false.
Proof.
  pose proof (binary_round_nonneg p 0) as Hn.
  assert (Hle : fle (S754_finite false 1 0) (binary_round prec emax false p 0) = true).
  { apply binary_round_above; [reflexivity | lia |].
    unfold Zscale. rewrite Z.min_id, Z.sub_diag. change (2 ^ 0) with 1. lia. }
  unfold of_Z, binary_normalize.
  destruct (binary_round prec emax false p 0) as [[]|[]| |[] m e];
    try discriminate Hn; [| now right | left; eauto].
  rewrite fle_finite_zero in Hle. discriminate.
Qed.

(** X5. For every positive radius the distance computed for the pixel at
    [(radius, radius)] is [+0], well below the clamp, and the alpha stored
    there is 255: the centre of the glow is fully opaque. *)
Theorem glow_centre_is_opaque (radius : Z) :
  0 < radius ->
  glow_dist radius radius radius = S754_zero false /\
  glow_alpha radius radius radius = 255.
Proof.
  intros Hr. unfold glow_alpha, glow_level.
  assert (Hd : glow_dist radius radius radius = S754_zero false).
  { unfold glow_dist. rewrite Z.sub_diag.
    destruct radius as [|p|p]; try lia.
    destruct (of_Z_pos p) as [(m & e & ->) | ->]; reflexivity. }
  rewrite Hd. split; reflexivity.
Qed.

(** X5 (witness): radius 40, as the program calls it. *)
Lemma glow_centre_witness : glow_alpha 40 40 40 = 255.
Proof. apply (glow_centre_is_opaque 40). lia. Defined.

(** A positive [int] converts to a positive finite float. *)
Lemma of_Z_int_finite (r : Z) :
  0 < r -> r <= 2 ^ 31 -> exists m e, of_Z r = S754_finite false m e.
Proof.
  intros H0 Hr. destruct r as [|p|p]; try lia.
  destruct (of_Z_pos p) as [H | H]; [exact H | exfalso].
  destruct (binary_round_le p 0 8388608 8) as [Hfin _];
    [change (2 ^ 23) with 8388608; change (2 ^ 24) with 16777216; lia | lia | |].
  { unfold Zscale. rewrite Z.min_l by lia.
    change (2 ^ (0 - 0)) with 1. change (2 ^ (8 - 0)) with 256.
    change (2 ^ 31) with 2147483648 in Hr. lia. }
  unfold of_Z, binary_normalize in H. rewrite H in Hfin. discriminate.
Qed.

(** The clamped distance is a number of [[0, 1]]. *)
Lemma glow_dist_range (radius px py : Z) :
  0 < radius -> radius * 2 <= 2147483647 ->
  nonneg_finite (glow_dist radius px py) = true /\
  fle (glow_dist radius px py) (of_Z 1) = true.
Proof.
  intros H0 Hr. unfold glow_dist.
  rewrite (of_Z_square_abs (px - radius)), (of_Z_square_abs (py - radius)).
  destruct (of_Z_int_finite radius H0) as (m & e & ->);
    [change (2 ^ 31) with 2147483648; lia|].
  assert (Hd : nonneg (fdiv (fsqrt (fadd (fmul (of_Z (Z.abs (px - radius)))
                                                (of_Z (Z.abs (px - radius))))
                                          (fmul (of_Z (Z.abs (py - radius)))
                                                (of_Z (Z.abs (py - radius))))))
                            (S754_finite false m e)) = true).
  { apply fdiv_nonneg, fsqrt_nonneg, fadd_nonneg_both;
      apply fmul_square_nonneg, of_Z_nonneg, Z.abs_nonneg. }
  revert Hd. generalize (fdiv (fsqrt (fadd (fmul (of_Z (Z.abs (px - radius)))
                                                 (of_Z (Z.abs (px - radius))))
                                           (fmul (of_Z (Z.abs (py - radius)))
                                                 (of_Z (Z.abs (py - radius))))))
                              (S754_finite false m e)).
  intros dist Hd. change (of_Z 1) with (S754_finite false 8388608 (-23)).
  unfold fgt. destruct (flt (S754_finite false 8388608 (-23)) dist) eqn:Hgt.
  - split; reflexivity.
  - now apply not_flt_fle.
Qed.

(** X6. For any positive radius whose double is an [int], and any pixel,
    the float that [create_glow_texture] casts to [Uint8] is finite, has
    its sign bit clear and is at most 255: the cast is always defined, and
    the alpha stored is that float truncated, an integer of [[0, 255]]. *)
Theorem glow_cast_is_defined (radius px py : Z) :
  0 < radius -> radius * 2 <= 2147483647 ->
  nonneg_finite (glow_level radius px py) = true /\
  fle (glow_level radius px py) (of_Z 255) = true /\
  exists t,
    ftrunc (glow_level radius px py) = Some t /\ 0 <= t <= 255 /\
    glow_alpha radius px py = t.
Proof.
  intros H0 Hr. unfold glow_alpha, Uint8_of_float, glow_level.
  destruct (glow_dist_range radius px py H0 Hr) as [Hfin Hle].
  revert Hfin Hle. generalize (glow_dist radius px py). intros d Hfin Hle.
  change (of_Z 1) with (S754_finite false 8388608 (-23)) in *.
  change (of_Z 255) with (S754_finite false 16711680 (-16)).
  destruct (fsub_one_range d Hfin Hle) as [Hfin1 Hle1].
  destruct (fmul_255_range _ Hfin1 Hle1) as [Hfin2 Hle2].
  destruct (ftrunc_le_255 _ Hfin2 Hle2) as (t & Ht & Hrange).
  split_and!; try assumption.
  exists t. rewrite Ht. split_and!; try lia; try reflexivity.
  apply Z.mod_small. lia.
Qed.

(** X6 (witness): radius 40, the pixel one to the right of the centre. *)
Lemma glow_cast_witness : 0 <= glow_alpha 40 41 40 <= 255.
Proof.
  destruct (glow_cast_is_defined 40 41 40) as (_ & _ & t & _ & Hr & ->); [lia | lia |].
  exact Hr.
Defined.

(** ** Initialisation, continued *)

(** The state [SDL_AppInit] leaves when [SDL_Init] and the window have
    succeeded. *)
Lemma SDL_AppInit_ready (created : bool) (gen : rand_state) (ticks : Z) :
  fst (SDL_AppInit (started created) ticks (static_state gen)) = SDL_APP_CONTINUE /\
  last_time (snd (SDL_AppInit (started created) ticks (static_state gen))) = Uint64_of ticks /\
  target (renderer (snd (SDL_AppInit (started created) ticks (static_state gen)))) = None /\
  presented (renderer (snd (SDL_AppInit (started created) ticks (static_state gen)))) = [] /\
  length (points (snd (SDL_AppInit (started created) ticks (static_state gen)))) = NUM_POINTS /\
  length (point_speeds (snd (SDL_AppInit (started created) ticks (static_state gen)))) =
    NUM_POINTS /\
  queue (renderer (snd (SDL_AppInit (started created) ticks (static_state gen)))) =
    (if created then [] else glow_points 40) /\
  if created then
    exists tex,
      glowTex (snd (SDL_AppInit (started created) ticks (static_state gen))) = Some tex /\
      tex_w tex = 80 /\ tex_h tex = 80 /\
      blend_mode tex = SDL_BLENDMODE_ADD /\ alpha_mod tex = 255 /\
      forall px py,
        pixels tex !! (px, py) =
          if decide (0 <= px < 80 /\ 0 <= py < 80)
          then Some {| red := 255; green := 255; blue := 200; alpha := glow_alpha 40 px py |}
          else None
  else glowTex (snd (SDL_AppInit (started created) ticks (static_state gen))) = None.
Proof.
  rewrite SDL_AppInit_started. cbn [fst snd].
  assert (Hcr : exists otex rd',
            create_glow_texture_with created (renderer (static_state gen)) 40 = (otex, rd') /\
            target rd' = None /\ presented rd' = [] /\
            queue rd' = (if created then [] else glow_points 40) /\
            if created then
              exists tex, otex = Some tex /\
                tex_w tex = 80 /\ tex_h tex = 80 /\
                blend_mode tex = SDL_BLENDMODE_ADD /\ alpha_mod tex = 255 /\
                forall px py,
                  pixels tex !! (px, py) =
                    if decide (0 <= px < 80 /\ 0 <= py < 80)
                    then Some {| red := 255; green := 255; blue := 200;
                                 alpha := glow_alpha 40 px py |}
                    else None
            else otex = None).
  { destruct created.
    - destruct (create_glow_texture_painted (renderer (static_state gen)) 40)
        as (tex & rd' & E & Hw & Hh & Hb & Ha & Hpix & Htg & Hq & Hp); [lia | lia |].
      exists (Some tex), rd'. split_and!; try assumption. exists tex. auto 10.
    - destruct (create_glow_texture_null (renderer (static_state gen)) 40)
        as (rd' & E & Htg & Hp & Hq).
      exists None, rd'. split_and!; try assumption; reflexivity. }
  destruct Hcr as (otex & rd' & -> & Htg & Hp & Hq & Htex). cbn [fst snd].
  assert (H0 : length (points (with_glowTex (with_renderer (static_state gen) rd') otex)) =
                 NUM_POINTS /\
               length (point_speeds (with_glowTex (with_renderer (static_state gen) rd') otex)) =
                 NUM_POINTS /\
               renderer (with_glowTex (with_renderer (static_state gen) rd') otex) = rd' /\
               glowTex (with_glowTex (with_renderer (static_state gen) rd') otex) = otex).
  { split_and!; try reflexivity; apply length_replicate. }
  revert H0. generalize (with_glowTex (with_renderer (static_state gen) rd') otex).
  intros st0 (Hlp0 & Hls0 & Hr0 & Hg0).
  assert (Hn : (NUM_POINTS <= length (point_speeds st0))%nat)
    by (rewrite Hls0; apply Nat.le_refl).
  pose proof (seed_points_spec NUM_POINTS st0 Hn) as H. cbv zeta in H.
  revert H. generalize (foldl seed_point st0 (seq 0 NUM_POINTS)).
  intros st (Hr & Hg & _ & Hlp & Hls & _).
  cbn [renderer glowTex last_time points point_speeds with_last_time].
  rewrite Hr, Hg, Hlp, Hls, Hr0, Hg0.
  split_and!; try reflexivity; assumption.
Qed.

(** X7. When [SDL_Init] and the window succeed, [SDL_AppInit] returns
    [SDL_APP_CONTINUE] whatever [SDL_CreateTexture] answers, with
    [last_time] holding the tick count it read, the window as render
    target, nothing presented and 500 entries in each array.  If the
    texture was created, nothing is queued and [glowTex] is the texture
    [create_glow_texture(renderer, 40)] built: 80 by 80, additive
    blending, alpha modulation at its initial 255, every pixel of it
    painted.  If [SDL_CreateTexture] returned [NULL], which nothing checks,
    [glowTex] is [NULL] and the 6400 points of the glow are queued for the
    window. *)
Theorem SDL_AppInit_result (created : bool) (gen : rand_state) (ticks : Z) :
  let st := snd (SDL_AppInit (started created) ticks (static_state gen)) in
  fst (SDL_AppInit (started created) ticks (static_state gen)) = SDL_APP_CONTINUE /\
  last_time st = Uint64_of ticks /\
  target (renderer st) = None /\ presented (renderer st) = [] /\
  length (points st) = NUM_POINTS /\ length (point_speeds st) = NUM_POINTS /\
  queue (renderer st) = (if created then [] else glow_points 40) /\
  Z.of_nat (length (glow_points 40)) = 6400 /\
  if created then
    exists tex,
      glowTex st = Some tex /\
      tex_w tex = 80 /\ tex_h tex = 80 /\
      blend_mode tex = SDL_BLENDMODE_ADD /\ alpha_mod tex = 255 /\
      forall px py,
        pixels tex !! (px, py) =
          if decide (0 <= px < 80 /\ 0 <= py < 80)
          then Some {| red := 255; green := 255; blue := 200; alpha := glow_alpha 40 px py |}
          else None
  else glowTex st = None.
Proof.
  cbv zeta.
  destruct (SDL_AppInit_ready created gen ticks) as (H1 & H2 & H3 & H4 & H5 & H6 & H7 & H8).
  split_and!; try assumption. rewrite length_glow_points. reflexivity.
Qed.

(** ** The "Move stars" loop and the random source *)

Lemma move_star_rand (elapsed : spec_float) (st : app_state) (i : nat) :
  rand (move_star elapsed st i) =
    match points st !! i, point_speeds st !! i with
    | Some p, Some v => if wraps elapsed (p, v) then next (next (next (rand st))) else rand st
    | _, _ => rand st
    end.
Proof.
  unfold move_star, wraps. cbn [fst snd].
  destruct (points st !! i) as [p|]; [|reflexivity].
  destruct (point_speeds st !! i) as [v|]; [|reflexivity].
  destruct (out_of_window _); reflexivity.
Qed.

(** What the wrap branch stores: the next three draws decide the edge, the
    place on it and the new speed. *)
Lemma move_star_wrapped (elapsed : spec_float) (st : app_state) (i : nat)
    (p : SDL_FPoint) (v : spec_float) :
  points st !! i = Some p -> point_speeds st !! i = Some v ->
  wraps elapsed (p, v) = true ->
  points (move_star elapsed st i) !! i =
    Some (respawned (as_int (source (rand st) (cursor (rand st))) mod 2)
                    (uf_val (as_float (source (rand st) (S (cursor (rand st))))))) /\
  point_speeds (move_star elapsed st i) !! i =
    Some (random_speed (uf_val (as_float (source (rand st) (S (S (cursor (rand st)))))))).
Proof.
  intros Hp Hv Hw. unfold move_star. unfold wraps in Hw. cbn [fst snd] in Hw.
  rewrite Hp, Hv, Hw. unfold SDL_rand, SDL_randf; cbn [fst snd next source cursor].
  cbn [points point_speeds with_stars].
  apply lookup_lt_Some in Hp, Hv.
  rewrite !list_lookup_insert_eq by assumption. split; reflexivity.
Qed.

(** After the first [n] passes of the loop the stars from [n] on are as
    they were, and the source has handed out three numbers for each of the
    first [n] stars that wrapped. *)
Lemma move_stars_prefix (elapsed : spec_float) (st : app_state) (n : nat) :
  (n <= length (points st))%nat -> (n <= length (point_speeds st))%nat ->
  (forall j, (n <= j)%nat ->
     points (foldl (move_star elapsed) st (seq 0 n)) !! j = points st !! j /\
     point_speeds (foldl (move_star elapsed) st (seq 0 n)) !! j = point_speeds st !! j) /\
  source (rand (foldl (move_star elapsed) st (seq 0 n))) = source (rand st) /\
  cursor (rand (foldl (move_star elapsed) st (seq 0 n))) =
    (cursor (rand st) +
     3 * length (List.filter (wraps elapsed) (take n (zip (points st) (point_speeds st)))))%nat.
Proof.
  induction n as [|n IH]; intros Hp Hs.
  - cbn [seq foldl take List.filter length]. split_and!; auto.
  - rewrite seq_S, foldl_app. cbn [foldl Nat.add].
    destruct (IH ltac:(lia) ltac:(lia)) as (Hsame & Hsrc & Hcur).
    destruct (Hsame n (Nat.le_refl n)) as [Hpn Hvn].
    revert Hsame Hsrc Hcur Hpn Hvn. generalize (foldl (move_star elapsed) st (seq 0 n)).
    intros st1 Hsame Hsrc Hcur Hpn Hvn.
    destruct (lookup_lt_is_Some_2 (points st) n ltac:(lia)) as [p Hp0].
    destruct (lookup_lt_is_Some_2 (point_speeds st) n ltac:(lia)) as [v Hv0].
    assert (Hz : zip (points st) (point_speeds st) !! n = Some (p, v)).
    { apply lookup_zip_Some. split; assumption. }
    rewrite (take_S_r _ _ _ Hz), List.filter_app, length_app.
    rewrite move_star_rand, Hpn, Hvn, Hp0, Hv0.
    split_and!.
    + intros j Hj. destruct (move_star_other elapsed st1 n j ltac:(lia)) as [-> ->].
      apply Hsame. lia.
    + destruct (wraps elapsed (p, v)); cbn [next source]; exact Hsrc.
    + cbn [List.filter]. destruct (wraps elapsed (p, v)); cbn [next cursor length]; lia.
Qed.

Lemma move_stars_rand (elapsed : spec_float) (st : app_state) :
  length (points st) = NUM_POINTS -> length (point_speeds st) = NUM_POINTS ->
  source (rand (move_stars elapsed st)) = source (rand st) /\
  cursor (rand (move_stars elapsed st)) = (cursor (rand st) + 3 * wrapped_stars elapsed st)%nat.
Proof.
  intros Hp Hs. unfold move_stars, wrapped_stars.
  destruct (move_stars_prefix elapsed st NUM_POINTS) as (_ & Hsrc & Hcur).
  { rewrite Hp. apply Nat.le_refl. }
  { rewrite Hs. apply Nat.le_refl. }
  rewrite take_ge in Hcur.
  - split; assumption.
  - rewrite length_zip, Hp, Hs, Nat.min_id. apply Nat.le_refl.
Qed.

Lemma seq_split (i n : nat) :
  (i < n)%nat -> seq 0 n = seq 0 i ++ i :: seq (S i) (n - S i).
Proof.
  intros Hn. replace n with (i + (1 + (n - S i)))%nat at 1 by lia.
  rewrite seq_app, seq_app. cbn [Nat.add].
  replace (i + 1)%nat with (S i) by lia. reflexivity.
Qed.

(** The loop only ever moves the source forward. *)
Lemma move_stars_rand_forward (elapsed : spec_float) (l : list nat) :
  forall st,
    source (rand (foldl (move_star elapsed) st l)) = source (rand st) /\
    (cursor (rand st) <= cursor (rand (foldl (move_star elapsed) st l)))%nat.
Proof.
  induction l as [|i l IH]; intros st; cbn [foldl]; [auto|].
  destruct (IH (move_star elapsed st i)) as [-> Hle]. rewrite move_star_rand in *.
  destruct (points st !! i) as [p|]; [|auto].
  destruct (point_speeds st !! i) as [v|]; [|auto].
  destruct (wraps elapsed (p, v)); cbn [next source cursor] in *; split; auto; lia.
Qed.

Section Frames.
Variables SDL_sinf SDL_cosf : spec_float -> spec_float.

Lemma SDL_AppIterate_rest (ticks : Z) (st : app_state) :
  rand (snd (SDL_AppIterate SDL_sinf SDL_cosf ticks st)) =
    rand (move_stars (elapsed_seconds (Uint64_of ticks) (last_time st)) st) /\
  last_time (snd (SDL_AppIterate SDL_sinf SDL_cosf ticks st)) = Uint64_of ticks /\
  glowTex (snd (SDL_AppIterate SDL_sinf SDL_cosf ticks st)) =
    (fun t => SDL_SetTextureAlphaMod t 40) <$> glowTex st.
Proof.
  rewrite SDL_AppIterate_eq, snd_pair.
  destruct (draw_frame_spec SDL_sinf SDL_cosf (Uint64_of ticks)
              (with_last_time (move_stars (elapsed_seconds (Uint64_of ticks) (last_time st)) st)
                              (Uint64_of ticks)))
    as (_ & _ & _ & _ & _ & -> & _ & _ & -> & ->).
  destruct (move_stars_frame (elapsed_seconds (Uint64_of ticks) (last_time st)) st)
    as (_ & Hg & _).
  revert Hg. generalize (move_stars (elapsed_seconds (Uint64_of ticks) (last_time st)) st).
  intros st1 Hg. cbn [rand last_time glowTex with_last_time]. rewrite Hg. auto.
Qed.

(** X8. A star whose advance fails the wrap test is not stored advanced:
    [SDL_AppIterate] puts it on the top edge ([y = 0]) when [SDL_rand(2)] is
    not zero and on the left edge ([x = 0]) otherwise, at
    [SDL_randf() * 640] resp. [SDL_randf() * 480] along that edge, and gives
    it the new speed [30 + SDL_randf() * 930]; the three numbers are
    consecutive draws of the random source, taken in this order. *)
Theorem wrapped_star_respawns_on_an_edge
    (ticks : Z) (st : app_state) (i : nat) (p : SDL_FPoint) (speed : spec_float) :
  let elapsed := elapsed_seconds (Uint64_of ticks) (last_time st) in
  let st' := snd (SDL_AppIterate SDL_sinf SDL_cosf ticks st) in
  (i < NUM_POINTS)%nat ->
  points st !! i = Some p -> point_speeds st !! i = Some speed ->
  out_of_window (advance p (fmul elapsed speed)) = true ->
  exists (k : nat) (p' : SDL_FPoint),
    (cursor (rand st) <= k)%nat /\ (k + 3 <= cursor (rand st'))%nat /\
    points st' !! i = Some p' /\
    p' = respawned (as_int (source (rand st) k) mod 2)
                   (uf_val (as_float (source (rand st) (k + 1)%nat))) /\
    (y p' = zero \/ x p' = zero) /\
    point_speeds st' !! i =
      Some (random_speed (uf_val (as_float (source (rand st) (k + 2)%nat)))).
Proof.
  cbv zeta. intros Hi Hp Hv Hout.
  destruct (SDL_AppIterate_stars SDL_sinf SDL_cosf ticks st) as [-> ->].
  destruct (SDL_AppIterate_rest ticks st) as (-> & _ & _).
  revert Hout. generalize (elapsed_seconds (Uint64_of ticks) (last_time st)).
  intros elapsed Hout. unfold move_stars.
  rewrite (seq_split i NUM_POINTS Hi), foldl_app. cbn [foldl].
  generalize (seq (S i) (NUM_POINTS - S i)) (elem_of_seq (S i) (NUM_POINTS - S i) i).
  intros rest Hrest.
  assert (Hnot : i ∉ rest) by (rewrite Hrest; lia). clear Hrest.
  pose proof (lookup_lt_Some _ _ _ Hp) as Hlp. pose proof (lookup_lt_Some _ _ _ Hv) as Hlv.
  destruct (move_stars_prefix elapsed st i ltac:(lia) ltac:(lia)) as (Hsame & Hsrc & Hcur).
  destruct (Hsame i (Nat.le_refl i)) as [Hpi Hvi]. rewrite Hp in Hpi. rewrite Hv in Hvi.
  revert Hsrc Hcur Hpi Hvi. generalize (foldl (move_star elapsed) st (seq 0 i)).
  intros st0 Hsrc Hcur Hpi Hvi.
  destruct (move_star_wrapped elapsed st0 i p speed Hpi Hvi Hout) as [Hp1 Hv1].
  pose proof (move_star_rand elapsed st0 i) as Hr1.
  rewrite Hpi, Hvi in Hr1. unfold wraps in Hr1. cbn [fst snd] in Hr1. rewrite Hout in Hr1.
  destruct (move_stars_other elapsed rest i Hnot (move_star elapsed st0 i)) as [Hp2 Hv2].
  destruct (move_stars_rand_forward elapsed rest (move_star elapsed st0 i)) as [_ Hfw].
  rewrite Hr1 in Hfw. cbn [next cursor] in Hfw.
  exists (cursor (rand st0)), (respawned (as_int (source (rand st) (cursor (rand st0))) mod 2)
                   (uf_val (as_float (source (rand st) (cursor (rand st0) + 1)%nat)))).
  rewrite Hp2, Hv2, Hp1, Hv1, Hsrc.
  replace (cursor (rand st0) + 1)%nat with (S (cursor (rand st0))) by lia.
  replace (cursor (rand st0) + 2)%nat with (S (S (cursor (rand st0)))) by lia.
  split_and!; try reflexivity; try lia.
  unfold respawned. destruct (negb _); cbn [x y]; auto.
Qed.

(** X9. [SDL_AppIterate] calls the random source exactly three times for
    every star that wraps and never otherwise: after the call the source
    has advanced by three times the number of stars whose advance by
    [elapsed * speed] fails the wrap test. *)
Theorem wraps_consume_three_draws (ticks : Z) (st : app_state) :
  let elapsed := elapsed_seconds (Uint64_of ticks) (last_time st) in
  let st' := snd (SDL_AppIterate SDL_sinf SDL_cosf ticks st) in
  length (points st) = NUM_POINTS -> length (point_speeds st) = NUM_POINTS ->
  source (rand st') = source (rand st) /\
  cursor (rand st') = (cursor (rand st) + 3 * wrapped_stars elapsed st)%nat.
Proof.
  cbv zeta. intros Hp Hs.
  destruct (SDL_AppIterate_rest ticks st) as (-> & _ & _).
  now apply move_stars_rand.
Qed.

(** *** The frame *)

(** [draw_frame] with the constants of the ship evaluated: the centre
    (320, 240), the vertices (320, 220), (300, 260) and (340, 260), and
    the corners (285, 205) and (200, 120) of the two fixed glows. *)
Lemma draw_frame_eq (now : Z) (st : app_state) :
  draw_frame SDL_sinf SDL_cosf now st =
    with_glowTex
      (with_renderer st
         (SDL_RenderPresent
            (render_glow
               (render_glow
                  (render_glow
                     (SDL_RenderGeometry
                        (SDL_RenderGeometry
                           (SDL_RenderPoints
                              (SDL_SetRenderDrawColor
                                 (SDL_RenderClear
                                    (SDL_SetRenderDrawColor (renderer st) 0 0 0 255))
                                 255 255 255 255)
                              (points st))
                           (flame_triangle SDL_sinf SDL_cosf now))
                        (ship_triangle SDL_sinf SDL_cosf now))
                     (glowTex st) (thruster_glow SDL_sinf SDL_cosf now))
                  (glowTex st) (square (of_Z 285) (of_Z 205) (of_Z 70)))
               (glowTex st) (square (of_Z 200) (of_Z 120) (of_Z 240)))))
      ((fun t => SDL_SetTextureAlphaMod t 40) <$> glowTex st).
Proof. reflexivity. Qed.

(** What one call of [SDL_AppIterate] presents, from any state. *)
Lemma SDL_AppIterate_draws (ticks : Z) (st : app_state) :
  presented (renderer (snd (SDL_AppIterate SDL_sinf SDL_cosf ticks st))) =
    presented (renderer st) ++
    [queue (renderer st) ++
     frame_of SDL_sinf SDL_cosf (Uint64_of ticks)
       (points (snd (SDL_AppIterate SDL_sinf SDL_cosf ticks st))) (glowTex st)] /\
  queue (renderer (snd (SDL_AppIterate SDL_sinf SDL_cosf ticks st))) = [].
Proof.
  destruct (SDL_AppIterate_stars SDL_sinf SDL_cosf ticks st) as [-> _].
  rewrite SDL_AppIterate_eq, snd_pair.
  destruct (move_stars_frame (elapsed_seconds (Uint64_of ticks) (last_time st)) st)
    as (Hr & Hg & _).
  revert Hr Hg. generalize (move_stars (elapsed_seconds (Uint64_of ticks) (last_time st)) st).
  intros st1 Hr Hg. rewrite draw_frame_eq. unfold frame_of.
  generalize (flame_triangle SDL_sinf SDL_cosf (Uint64_of ticks))
             (ship_triangle SDL_sinf SDL_cosf (Uint64_of ticks))
             (thruster_glow SDL_sinf SDL_cosf (Uint64_of ticks)).
  intros flame ship glowDest.
  cbn [renderer points glowTex with_glowTex with_renderer with_last_time].
  rewrite presented_present, queue_present.
  rewrite !presented_render_glow, !queue_render_glow.
  unfold SDL_RenderGeometry, SDL_RenderPoints, SDL_RenderClear.
  repeat (rewrite presented_enqueue || rewrite presented_draw_color).
  repeat (rewrite queue_enqueue || rewrite queue_draw_color).
  rewrite <- !app_assoc. rewrite Hr, Hg.
  split; reflexivity.
Qed.

Lemma move_stars_lengths (elapsed : spec_float) (st : app_state) :
  length (points (move_stars elapsed st)) = length (points st) /\
  length (point_speeds (move_stars elapsed st)) = length (point_speeds st).
Proof.
  unfold move_stars. generalize (seq 0 NUM_POINTS). intros l. revert st.
  induction l as [|i l IH]; intros st; cbn [foldl]; [auto|].
  destruct (IH (move_star elapsed st i)) as [-> ->]. apply move_star_lengths.
Qed.

Lemma main_loop_invariant (P : app_state -> Prop) :
  (forall ticks st, P st -> P (snd (SDL_AppIterate SDL_sinf SDL_cosf ticks st))) ->
  forall passes st, P st -> P (main_loop SDL_sinf SDL_cosf st passes).
Proof.
  intros Hstep. induction passes as [|p passes IH]; intros st Hst; cbn [main_loop];
    [assumption|].
  destruct (forallb _ _); [|assumption].
  specialize (Hstep (ticks_at p) st Hst). rewrite SDL_AppIterate_eq in *.
  rewrite snd_pair in Hstep. cbn [continues]. now apply IH.
Qed.

Lemma target_enqueue (rd : SDL_Renderer) (c : render_cmd) : target (enqueue rd c) = target rd.
Proof. reflexivity. Qed.

Lemma target_draw_color (rd : SDL_Renderer) (cr cg cb ca : Z) :
  target (SDL_SetRenderDrawColor rd cr cg cb ca) = target rd.
Proof. reflexivity. Qed.

Lemma target_present (rd : SDL_Renderer) : target (SDL_RenderPresent rd) = target rd.
Proof. reflexivity. Qed.

Lemma target_render_glow (rd : SDL_Renderer) (tex : option SDL_Texture) (dst : SDL_FRect) :
  target (render_glow rd tex dst) = target rd.
Proof. destruct tex; reflexivity. Qed.

(** A frame is drawn on whatever target is bound and leaves it bound. *)
Lemma SDL_AppIterate_target (ticks : Z) (st : app_state) :
  target (renderer (snd (SDL_AppIterate SDL_sinf SDL_cosf ticks st))) = target (renderer st).
Proof.
  rewrite SDL_AppIterate_eq, snd_pair.
  destruct (move_stars_frame (elapsed_seconds (Uint64_of ticks) (last_time st)) st)
    as (Hr & _ & _).
  revert Hr. generalize (move_stars (elapsed_seconds (Uint64_of ticks) (last_time st)) st).
  intros st1 Hr.
  destruct (draw_frame_calls SDL_sinf SDL_cosf (Uint64_of ticks)
              (with_last_time st1 (Uint64_of ticks)))
    as (flame & ship & r1 & r2 & r3 & ->).
  cbn [renderer with_glowTex with_renderer with_last_time].
  rewrite target_present, !target_render_glow.
  unfold SDL_RenderGeometry, SDL_RenderPoints, SDL_RenderClear.
  repeat (rewrite target_enqueue || rewrite target_draw_color).
  now rewrite Hr.
Qed.

(** A run in which [SDL_Init] and the window succeed enters the loop. *)
Lemma run_with_started (created : bool) (gen : rand_state) (ticks : Z) (passes : list pass) :
  run_with SDL_sinf SDL_cosf (started created) gen ticks passes =
    main_loop SDL_sinf SDL_cosf
      (snd (SDL_AppInit (started created) ticks (static_state gen))) passes.
Proof.
  unfold run_with.
  destruct (SDL_AppInit_ready created gen ticks) as (Hres & _).
  revert Hres. generalize (SDL_AppInit (started created) ticks (static_state gen)).
  intros [res st]. rewrite snd_pair. cbn [fst]. intros ->. reflexivity.
Qed.

Lemma glow_alpha_mod_after_snoc (frames : list (list render_cmd)) (frame : list render_cmd) :
  glow_alpha_mod_after (frames ++ [frame]) = 40.
Proof. destruct frames; reflexivity. Qed.

(** What is queued for the window between two frames of such a run:
    nothing, except before the first frame of a run whose glow texture
    could not be created, when the points [create_glow_texture] drew on
    the window are. *)
Lemma pending_snoc (created : bool) (frames : list (list render_cmd))
    (frame : list render_cmd) :
  pending created (frames ++ [frame]) = [].
Proof. destruct frames; reflexivity. Qed.

(** The states of a run that enters the loop. *)
Lemma run_state (created : bool) (gen : rand_state) (ticks : Z) (passes : list pass) :
  target (renderer (run_with SDL_sinf SDL_cosf (started created) gen ticks passes)) = None /\
  length (points (run_with SDL_sinf SDL_cosf (started created) gen ticks passes)) =
    NUM_POINTS /\
  queue (renderer (run_with SDL_sinf SDL_cosf (started created) gen ticks passes)) =
    pending created
      (presented (renderer (run_with SDL_sinf SDL_cosf (started created) gen ticks passes))) /\
  if created then
    exists tex,
      glowTex (run_with SDL_sinf SDL_cosf (started created) gen ticks passes) = Some tex /\
      tex_w tex = 80 /\ tex_h tex = 80 /\ blend_mode tex = SDL_BLENDMODE_ADD /\
      alpha_mod tex =
        glow_alpha_mod_after
          (presented (renderer (run_with SDL_sinf SDL_cosf (started created) gen ticks passes))) /\
      forall px py,
        pixels tex !! (px, py) =
          if decide (0 <= px < 80 /\ 0 <= py < 80)
          then Some {| red := 255; green := 255; blue := 200; alpha := glow_alpha 40 px py |}
          else None
  else glowTex (run_with SDL_sinf SDL_cosf (started created) gen ticks passes) = None.
Proof.
  rewrite run_with_started.
  apply (main_loop_invariant
           (fun st =>
              target (renderer st) = None /\
              length (points st) = NUM_POINTS /\
              queue (renderer st) = pending created (presented (renderer st)) /\
              if created then
                exists tex,
                  glowTex st = Some tex /\
                  tex_w tex = 80 /\ tex_h tex = 80 /\ blend_mode tex = SDL_BLENDMODE_ADD /\
                  alpha_mod tex = glow_alpha_mod_after (presented (renderer st)) /\
                  forall px py,
                    pixels tex !! (px, py) =
                      if decide (0 <= px < 80 /\ 0 <= py < 80)
                      then Some {| red := 255; green := 255; blue := 200;
                                   alpha := glow_alpha 40 px py |}
                      else None
              else glowTex st = None)).
  - intros now st (Htg & Hlen & _ & Htex).
    destruct (SDL_AppIterate_rest now st) as (_ & _ & ->).
    destruct (SDL_AppIterate_draws now st) as [-> ->].
    destruct (SDL_AppIterate_stars SDL_sinf SDL_cosf now st) as [-> _].
    destruct (move_stars_lengths (elapsed_seconds (Uint64_of now) (last_time st)) st)
      as [-> _].
    rewrite SDL_AppIterate_target, glow_alpha_mod_after_snoc, pending_snoc.
    split; [assumption|]. split; [assumption|]. split; [reflexivity|]. destruct created.
    + destruct Htex as (tex & -> & Hw & Hh & Hb & _ & Hpix).
      exists (SDL_SetTextureAlphaMod tex 40).
      split_and!; [reflexivity | assumption | assumption | assumption | reflexivity
                  | exact Hpix].
    + rewrite Htex. reflexivity.
  - destruct (SDL_AppInit_ready created gen ticks)
      as (_ & _ & Htg & Hp & Hlen & _ & Hq & Htex).
    split; [assumption|]. split; [assumption|]. rewrite Hp.
    split; [exact Hq|]. destruct created; [|assumption].
    destruct Htex as (tex & Hg & Hw & Hh & Hb & Ha & Hpix).
    exists tex. split_and!; assumption.
Qed.

(** X10. In every run in which [SDL_Init] and the window succeed, whether
    or not [SDL_CreateTexture] then returns a texture, no call leaves a
    texture bound as render target, so every frame is drawn to the window.
    If the texture was created it is never painted again after
    [SDL_AppInit]: it stays 80 by 80 in additive blend mode with the
    pixels [create_glow_texture] stored, and only its alpha modulation
    changes: it is 255 as long as no frame has been presented and 40 from
    the first frame on.  If [SDL_CreateTexture] returned [NULL], [glowTex]
    stays [NULL] for the whole run. *)
Theorem glow_texture_is_never_repainted
    (created : bool) (gen : rand_state) (ticks : Z) (passes : list pass) :
  let st := run_with SDL_sinf SDL_cosf (started created) gen ticks passes in
  target (renderer st) = None /\
  if created then
    exists tex,
      glowTex st = Some tex /\
      tex_w tex = 80 /\ tex_h tex = 80 /\ blend_mode tex = SDL_BLENDMODE_ADD /\
      alpha_mod tex = match presented (renderer st) with [] => 255 | _ :: _ => 40 end /\
      forall px py,
        pixels tex !! (px, py) =
          if decide (0 <= px < 80 /\ 0 <= py < 80)
          then Some {| red := 255; green := 255; blue := 200; alpha := glow_alpha 40 px py |}
          else None
  else glowTex st = None.
Proof.
  cbv zeta. destruct (run_state created gen ticks passes) as (Htg & _ & _ & Htex).
  split; [exact Htg | exact Htex].
Qed.

(** X11. In every run in which [SDL_Init] and the window succeed, whether
    or not the glow texture was created, each call of [SDL_AppIterate]
    returns [SDL_APP_CONTINUE], records the tick count it read in
    [last_time], keeps 500 stars, leaves nothing queued and presents
    exactly one more frame.  The frame is, in this order: a clear to
    opaque black; the 500 stars as moved by this very call, in opaque
    white; the flame triangle, from the middle of the rotated base to the
    two rotated base vertices; the ship triangle, from the rotated apex to
    the same two base vertices; and, if the glow texture was created,
    three copies of it in additive blend, with alpha modulation 255 in the
    first frame and 40 in every later one: one of 80 by 80 centred on the
    flame tip, one of 70 by 70 at (285, 205) and one of 240 by 240 at
    (200, 120).  If the texture was not created no copy is drawn, and the
    first frame starts with the 6400 points that [create_glow_texture]
    drew on the window, ahead of the clear. *)
Theorem frame_commands
    (created : bool) (gen : rand_state) (ticks : Z) (passes : list pass) (t : Z) :
  let st := run_with SDL_sinf SDL_cosf (started created) gen ticks passes in
  let now := Uint64_of t in
  let st' := snd (SDL_AppIterate SDL_sinf SDL_cosf t st) in
  let first := match presented (renderer st) with [] => true | _ :: _ => false end in
  let leftover := if first && negb created then glow_points 40 else [] in
  let copy := fun dst =>
    if created
    then [Cmd_Texture SDL_BLENDMODE_ADD (if first then 255 else 40) dst]
    else [] in
  fst (SDL_AppIterate SDL_sinf SDL_cosf t st) = SDL_APP_CONTINUE /\
  last_time st' = now /\
  length (points st') = NUM_POINTS /\
  queue (renderer st') = [] /\
  presented (renderer st') =
    presented (renderer st) ++
    [leftover ++
     [Cmd_Clear {| red := 0; green := 0; blue := 0; alpha := 255 |};
      Cmd_Points {| red := 255; green := 255; blue := 255; alpha := 255 |} (points st');
      Cmd_Geometry
        [vertex (thruster SDL_sinf SDL_cosf now) 255 100 30 255;
         vertex (ship_base_left SDL_sinf SDL_cosf now) 255 200 30 255;
         vertex (ship_base_right SDL_sinf SDL_cosf now) 255 200 30 255];
      Cmd_Geometry
        [vertex (ship_apex SDL_sinf SDL_cosf now) 0 255 0 255;
         vertex (ship_base_left SDL_sinf SDL_cosf now) 0 200 0 255;
         vertex (ship_base_right SDL_sinf SDL_cosf now) 0 200 0 255]] ++
     copy (square (fsub (fst (flame_tip SDL_sinf SDL_cosf now)) (of_Z 40))
                  (fsub (snd (flame_tip SDL_sinf SDL_cosf now)) (of_Z 40)) (of_Z 80)) ++
     copy (square (of_Z 285) (of_Z 205) (of_Z 70)) ++
     copy (square (of_Z 200) (of_Z 120) (of_Z 240))].
Proof.
  cbv zeta.
  destruct (run_state created gen ticks passes) as (_ & Hlen & Hq & Htex).
  revert Hlen Hq Htex.
  generalize (run_with SDL_sinf SDL_cosf (started created) gen ticks passes).
  intros st Hlen Hq Htex.
  destruct (SDL_AppIterate_rest t st) as (_ & Ht & _).
  destruct (SDL_AppIterate_draws t st) as [Hpr Hq'].
  destruct (SDL_AppIterate_stars SDL_sinf SDL_cosf t st) as [Hp _].
  destruct (move_stars_lengths (elapsed_seconds (Uint64_of t) (last_time st)) st)
    as [Hl _].
  split; [rewrite SDL_AppIterate_eq; reflexivity|].
  split; [exact Ht|].
  split; [rewrite Hp, Hl; exact Hlen|].
  split; [exact Hq'|].
  rewrite Hpr, Hq. unfold frame_of, flame_triangle, ship_triangle, thruster_glow.
  f_equal. f_equal.
  destruct created.
  - destruct Htex as (tex & -> & _ & _ & Hb & Ha & _).
    cbn [glow_cmds]. rewrite Hb, Ha.
    destruct (presented (renderer st)); reflexivity.
  - rewrite Htex. cbn [glow_cmds].
    destruct (presented (renderer st)); reflexivity.
Qed.

(** Nothing [create_glow_texture] queues is a triangle. *)
Lemma frame_geometry_app (l1 l2 : list render_cmd) :
  frame_geometry (l1 ++ l2) = frame_geometry l1 ++ frame_geometry l2.
Proof. apply omap_app. Qed.

Lemma frame_geometry_glow_points (radius : Z) : frame_geometry (glow_points radius) = [].
Proof.
  unfold glow_points. induction (seqZ 0 (radius * 2)) as [|py rows IH]; [reflexivity|].
  rewrite fmap_cons. cbn [concat]. rewrite frame_geometry_app, IH, app_nil_r.
  unfold glow_row_points. induction (seqZ 0 (radius * 2)) as [|px cols IHc]; [reflexivity|].
  rewrite fmap_cons. exact IHc.
Qed.

Lemma frame_geometry_glow_cmds (tex : option SDL_Texture) (dst : SDL_FRect) :
  frame_geometry (glow_cmds tex dst) = [].
Proof. destruct tex; reflexivity. Qed.

Lemma frame_geometry_pending (created : bool) (frames : list (list render_cmd)) :
  frame_geometry (pending created frames) = [].
Proof.
  destruct frames as [|frame frames]; [|reflexivity].
  destruct created; [reflexivity | apply frame_geometry_glow_points].
Qed.

(** X12. In every run in which [SDL_Init] and the window succeed, whether
    or not the glow texture was created, the frame a call of
    [SDL_AppIterate] presents holds exactly two triangles, the flame and
    then the ship.  With [angle] the ship's angle at the tick count read
    and [p1], [p2], [p3] the points (320, 220), (300, 260) and (340, 260)
    rotated by [angle] about (320, 240) in binary32, the ship is [p1],
    [p2], [p3] and the flame is [(tx, ty)], [p2], [p3], where
    [tx = (x2 + x3) * 0.5f] and [ty = (y2 + y3) * 0.5f]: the flame's first
    vertex is the binary32 midpoint of its other two, which are the ship's
    base vertices, and [flame_len] enters none of the six positions. *)
Theorem flame_apex_is_base_midpoint
    (created : bool) (gen : rand_state) (ticks : Z) (passes : list pass) (t : Z) :
  let st := run_with SDL_sinf SDL_cosf (started created) gen ticks passes in
  let st' := snd (SDL_AppIterate SDL_sinf SDL_cosf t st) in
  let angle :=
    fadd (fdiv (SFopp SDL_PI_F) (of_Z 4))
         (fmul (SDL_sinf (fmul (of_Z (Uint64_of t)) (of_ratio 5 1000))) (of_ratio 1 10)) in
  let rotated := fun p =>
    rotate_point (A := binary32_arith SDL_sinf SDL_cosf) (of_Z 320) (of_Z 240) p angle in
  let p1 := rotated (of_Z 320, of_Z 220) in
  let p2 := rotated (of_Z 300, of_Z 260) in
  let p3 := rotated (of_Z 340, of_Z 260) in
  let tx := fmul (fadd (fst p2) (fst p3)) (of_ratio 1 2) in
  let ty := fmul (fadd (snd p2) (snd p3)) (of_ratio 1 2) in
  exists frame,
    last (presented (renderer st')) = Some frame /\
    frame_geometry frame =
      [[vertex (tx, ty) 255 100 30 255; vertex p2 255 200 30 255; vertex p3 255 200 30 255];
       [vertex p1 0 255 0 255; vertex p2 0 200 0 255; vertex p3 0 200 0 255]].
Proof.
  cbv zeta.
  destruct (run_state created gen ticks passes) as (_ & _ & Hq & _).
  revert Hq. generalize (run_with SDL_sinf SDL_cosf (started created) gen ticks passes).
  intros st Hq.
  destruct (SDL_AppIterate_draws t st) as [-> _].
  rewrite last_snoc. eexists. split; [reflexivity|].
  unfold frame_of.
  rewrite !frame_geometry_app, Hq, frame_geometry_pending, !frame_geometry_glow_cmds.
  reflexivity.
Qed.

(** *** The callback loop *)

Lemma events_continue (st : app_state) (p : pass) :
  forallb (fun ev => continues (SDL_AppEvent st ev)) (events p) = negb (has_quit p).
Proof.
  unfold has_quit. induction (events p) as [|ev evs IH]; [reflexivity|].
  cbn [forallb existsb]. rewrite IH. unfold SDL_AppEvent.
  destruct (type ev =? SDL_EVENT_QUIT); reflexivity.
Qed.

Lemma main_loop_frames (passes : list pass) :
  forall st,
    length (presented (renderer (main_loop SDL_sinf SDL_cosf st passes))) =
      (length (presented (renderer st)) + passes_before_quit passes)%nat.
Proof.
  induction passes as [|p passes IH]; intros st; cbn [main_loop passes_before_quit].
  - lia.
  - rewrite events_continue. destruct (has_quit p); cbn [negb]; [lia|].
    destruct (SDL_AppIterate_draws (ticks_at p) st) as [Hpr _].
    rewrite SDL_AppIterate_eq in *. rewrite snd_pair in Hpr. cbn [continues].
    rewrite IH, Hpr, length_app. cbn [length]. lia.
Qed.

Lemma main_loop_stops (passes later : list pass) :
  existsb has_quit passes = true ->
  forall st,
    main_loop SDL_sinf SDL_cosf st (passes ++ later) = main_loop SDL_sinf SDL_cosf st passes.
Proof.
  induction passes as [|p passes IH]; intros Hq st; [discriminate|].
  cbn [app main_loop]. rewrite events_continue.
  cbn [existsb] in Hq. destruct (has_quit p); cbn [negb orb] in *; [reflexivity|].
  rewrite SDL_AppIterate_eq. cbn [continues]. now apply IH.
Qed.

(** X13. Driven by SDL's callback loop, the program presents exactly one
    frame for every pass that comes before the first pass delivering an
    [SDL_EVENT_QUIT], and none from that pass on: whatever passes follow a
    quit event leave the final state as it is. *)
Theorem run_presents_one_frame_per_pass
    (gen : rand_state) (ticks : Z) (passes later : list pass) :
  length (presented (renderer (run SDL_sinf SDL_cosf gen ticks passes))) =
    passes_before_quit passes /\
  (existsb has_quit passes = true ->
   run SDL_sinf SDL_cosf gen ticks (passes ++ later) = run SDL_sinf SDL_cosf gen ticks passes).
Proof.
  unfold run. split.
  - rewrite main_loop_frames.
    destruct (SDL_AppInit_ready true gen ticks) as (_ & _ & _ & Hp & _).
    change ({| init_succeeds := true; window_and_renderer_created := true;
               texture_created := true |}) with (started true).
    rewrite Hp. reflexivity.
  - intros Hq. now apply main_loop_stops.
Qed.

End Frames.

(** X8 (witness): star 7 of the sample state, at (10, 20) with speed 100,
    after ten seconds. *)
Lemma wrapped_star_respawns_witness :
  exists p',
    points (snd (SDL_AppIterate no_trig no_trig 10000 sample_state)) !! 7%nat = Some p' /\
    (y p' = zero \/ x p' = zero).
Proof.
  destruct (wrapped_star_respawns_on_an_edge no_trig no_trig 10000 sample_state 7
              {| x := of_Z 10; y := of_Z 20 |} (of_Z 100))
    as (k & p' & _ & _ & H & _ & Hedge & _).
  - apply Nat.ltb_lt. reflexivity.
  - reflexivity.
  - reflexivity.
  - reflexivity.
  - exists p'. split; assumption.
Defined.

(** X9 (witness): after ten seconds every star of the sample state wraps. *)
Lemma wraps_consume_three_draws_witness :
  cursor (rand (snd (SDL_AppIterate no_trig no_trig 10000 sample_state))) = 1500%nat.
Proof.
  destruct (wraps_consume_three_draws no_trig no_trig 10000 sample_state eq_refl eq_refl)
    as [_ H].
  rewrite H. vm_compute. reflexivity.
Defined.

(** ** Stars only move right and down *)

Lemma seed_point_representable (st : app_state) (i : nat) :
  Forall (fun p => point_representable p = true) (points st) ->
  Forall (fun p => point_representable p = true) (points (seed_point st i)).
Proof.
  intros H. unfold seed_point, SDL_randf; cbn [fst snd points with_stars].
  apply Forall_insert; [assumption|].
  unfold point_representable; cbn [x y]. now rewrite !fmul_representable.
Qed.

Lemma move_star_representable (elapsed : spec_float) (st : app_state) (i : nat) :
  Forall (fun p => point_representable p = true) (points st) ->
  Forall (fun p => point_representable p = true) (points (move_star elapsed st i)).
Proof.
  intros H. unfold move_star.
  destruct (points st !! i) as [p|] eqn:Hp; [|assumption].
  destruct (point_speeds st !! i) as [v|]; [|assumption].
  destruct (out_of_window _).
  - unfold SDL_rand, SDL_randf; cbn [fst snd points with_stars].
    apply Forall_insert; [assumption|].
    destruct (negb _); unfold point_representable; cbn [x y];
      now rewrite fmul_representable.
  - cbn [points with_stars]. apply Forall_insert; [assumption|].
    pose proof (Forall_lookup_1 _ _ _ _ H Hp) as Hrep. cbn beta in Hrep.
    unfold point_representable in *. apply andb_prop in Hrep as [Hx Hy].
    unfold advance; cbn [x y].
    now rewrite !fadd_representable by (assumption || apply fmul_representable).
Qed.

Section Motion.
Variables SDL_sinf SDL_cosf : spec_float -> spec_float.

(** In every run the stored coordinates fit the binary32 format. *)
Lemma run_representable (gen : rand_state) (ticks : Z) (passes : list pass) :
  Forall (fun p => point_representable p = true)
         (points (run SDL_sinf SDL_cosf gen ticks passes)).
Proof.
  unfold run. apply (main_loop_invariant SDL_sinf SDL_cosf
                       (fun st => Forall (fun p => point_representable p = true) (points st))).
  - intros now st H. destruct (SDL_AppIterate_stars SDL_sinf SDL_cosf now st) as [-> _].
    unfold move_stars.
    apply (foldl_invariant (fun s => Forall (fun p => point_representable p = true) (points s)));
      [intros a b; apply move_star_representable | exact H].
  - change ({| init_succeeds := true; window_and_renderer_created := true;
               texture_created := true |}) with succeeds.
    rewrite SDL_AppInit_succeeds, snd_pair.
    generalize (fst (create_glow_texture (renderer (static_state gen)) 40)).
    generalize (snd (create_glow_texture (renderer (static_state gen)) 40)).
    intros rd tex.
    destruct (points_with_last_time
                (foldl seed_point (with_glowTex (with_renderer (static_state gen) rd) tex)
                   (seq 0 NUM_POINTS)) (Uint64_of ticks)) as (-> & _ & _).
    apply (foldl_invariant (fun s => Forall (fun p => point_representable p = true) (points s)));
      [intros a b; apply seed_point_representable|].
    cbn [points with_glowTex with_renderer static_state].
    apply Forall_replicate. reflexivity.
Qed.

(** X14. In every run, a star that [SDL_AppIterate] does not respawn never
    moves left or up: its new [x] is at least its old [x] and its new [y]
    at least its old [y], as binary32 comparisons.  (The time step is never
    negative, speeds are positive, and rounding a sum never takes it below
    a summand.) *)
Theorem unwrapped_star_moves_right_and_down
    (gen : rand_state) (ticks : Z) (passes : list pass) (now : Z)
    (i : nat) (p : SDL_FPoint) (speed : spec_float) :
  let st := run SDL_sinf SDL_cosf gen ticks passes in
  let elapsed := elapsed_seconds (Uint64_of now) (last_time st) in
  let st' := snd (SDL_AppIterate SDL_sinf SDL_cosf now st) in
  points st !! i = Some p -> point_speeds st !! i = Some speed ->
  out_of_window (advance p (fmul elapsed speed)) = false ->
  exists p',
    points st' !! i = Some p' /\
    fle (x p) (x p') = true /\ fle (y p) (y p') = true.
Proof.
  cbv zeta.
  pose proof (run_ok SDL_sinf SDL_cosf gen ticks passes) as Hok.
  pose proof (run_representable gen ticks passes) as Hrep.
  revert Hok Hrep. generalize (run SDL_sinf SDL_cosf gen ticks passes).
  intros st [[Hlp Hls Hp Hs Ht] _ _] Hrep Hpi Hvi Hin.
  assert (Hi : (i < NUM_POINTS)%nat) by (rewrite <- Hlp; eapply lookup_lt_Some; eassumption).
  pose proof (Forall_lookup_1 _ _ _ _ Hp Hpi) as Hpok.
  pose proof (Forall_lookup_1 _ _ _ _ Hs Hvi) as Hvok.
  pose proof (Forall_lookup_1 _ _ _ _ Hrep Hpi) as Hprep.
  cbn beta in Hpok, Hvok, Hprep.
  destruct (speed_in_range_finite speed Hvok) as (mv & ev & ->).
  pose proof (fmul_nonneg _ mv ev (elapsed_seconds_nonneg (Uint64_of now) (last_time st)))
    as Hd.
  destruct (SDL_AppIterate_stars SDL_sinf SDL_cosf now st) as [-> _].
  destruct (move_stars_at (elapsed_seconds (Uint64_of now) (last_time st)) st i Hi)
    as (st0 & Hp0 & Hs0 & -> & _).
  rewrite <- Hp0 in Hpi. rewrite <- Hs0 in Hvi.
  destruct (move_star_inside _ st0 i p _ Hpi Hvi Hin) as [-> _].
  eexists. split; [reflexivity|]. unfold advance; cbn [x y].
  unfold point_ok, coord_ok in Hpok. unfold point_representable in Hprep.
  apply andb_prop in Hpok as [Hx Hy].
  apply andb_prop in Hx as [Hx _]. apply andb_prop in Hy as [Hy _].
  apply andb_prop in Hprep as [Hrx Hry].
  split; apply fadd_above; assumption.
Qed.

End Motion.

(** X14 (witness): star 7 of the sample run, 16 ms after initialisation. *)
Lemma unwrapped_star_witness :
  exists p',
    points (snd (SDL_AppIterate no_trig no_trig 16 (run no_trig no_trig sample_gen 0 []))) !! 7%nat
      = Some p' /\
    fle (of_Z 320) (x p') = true /\ fle (of_Z 240) (y p') = true.
Proof.
  apply (unwrapped_star_moves_right_and_down no_trig no_trig sample_gen 0 [] 16 7
           {| x := of_Z 320; y := of_Z 240 |} (of_Z 495)).
  - vm_compute. reflexivity.
  - vm_compute. reflexivity.
  - vm_compute. reflexivity.
Defined.

(** * Rotation in binary32

    ** Powers of two over the reals *)

Local Open Scope R_scope.

Lemma pow2_IZR (k : Z) : (0 <= k)%Z -> IZR (2 ^ k) = powerRZ 2 k.
Proof.
  intros Hk. rewrite <- (Z2Nat.id k Hk), <- pow_IZR, pow_powerRZ. reflexivity.
Qed.

Lemma pow2R_pos (a : Z) : 0 < powerRZ 2 a.
Proof. apply powerRZ_lt. lra. Qed.

Lemma pow2R_add (a b : Z) : powerRZ 2 (a + b) = powerRZ 2 a * powerRZ 2 b.
Proof. apply powerRZ_add. lra. Qed.

Lemma pow2R_ge_1 (k : Z) : (0 <= k)%Z -> 1 <= powerRZ 2 k.
Proof.
  intros Hk. rewrite <- pow2_IZR by assumption. apply IZR_le.
  pose proof (pow2_pos k Hk). lia.
Qed.

Lemma pow2R_le (a b : Z) : (a <= b)%Z -> powerRZ 2 a <= powerRZ 2 b.
Proof.
  intros Hab. replace b with (a + (b - a))%Z by lia. rewrite pow2R_add.
  pose proof (pow2R_pos a). pose proof (pow2R_ge_1 (b - a) ltac:(lia)). nra.
Qed.

Lemma pow2R_half (a : Z) : powerRZ 2 (a - 1) = powerRZ 2 a / 2.
Proof.
  replace a with ((a - 1) + 1)%Z at 2 by lia. rewrite pow2R_add.
  change (powerRZ 2 1) with (2 * 1). lra.
Qed.

(** ** The value of a rounded result *)

Lemma to_R_finite (s : bool) (m : positive) (e : Z) :
  to_R (S754_finite s m e) = sign_R s * IZR (Zpos m) * powerRZ 2 e.
Proof.
  unfold to_R, sign_R. destruct s; cbn [mant expo]; [|lra].
  change (Z.neg m) with (- Z.pos m)%Z. rewrite opp_IZR. lra.
Qed.

Lemma to_R_pack (s : bool) (m e : Z) :
  (0 <= m)%Z -> (e <= 104)%Z ->
  is_finite (pack s m e) = true /\ to_R (pack s m e) = sign_R s * IZR m * powerRZ 2 e.
Proof.
  intros Hm He. unfold pack. destruct m as [|p|p]; [| |lia].
  - split; [reflexivity|]. unfold to_R. cbn [mant expo]. lra.
  - change (emax - prec)%Z with 104%Z.
    destruct (Z.leb_spec e 104) as [_|]; [|lia].
    split; [reflexivity | apply to_R_finite].
Qed.

Lemma Rabs_sign_R (s : bool) : Rabs (sign_R s) = 1.
Proof.
  destruct s; unfold sign_R, Rabs; destruct (Rcase_abs _); lra.
Qed.

(** Rounding to nearest moves a number below [2 ^ a] by at most
    [2 ^ (a - 25)], half a unit in the last of 24 places, and never out of
    the finite floats while [a] stays within range. *)
Lemma round_aux_R (s : bool) (M e a : Z) :
  (0 < M)%Z -> (-125 <= a <= 100)%Z ->
  IZR M * powerRZ 2 e < powerRZ 2 a ->
  is_finite (binary_round_aux prec emax s M e loc_Exact) = true /\
  Rabs (to_R (binary_round_aux prec emax s M e loc_Exact) - sign_R s * IZR M * powerRZ 2 e)
    <= powerRZ 2 (a - 25).
Proof.
  intros HM Ha Hlt.
  destruct (Zdigits2_bounds M HM) as (Hd0 & Hlo & Hhi).
  assert (Hde : (Zdigits2 M + e <= a)%Z).
  { destruct (Z_le_gt_dec (Zdigits2 M + e) a) as [|Hgt]; [assumption|exfalso].
    assert (powerRZ 2 a <= IZR M * powerRZ 2 e); [|lra].
    apply Rle_trans with (powerRZ 2 (Zdigits2 M - 1 + e)).
    - apply pow2R_le; lia.
    - rewrite pow2R_add, <- pow2_IZR by lia.
      apply Rmult_le_compat_r; [left; apply pow2R_pos|]. apply IZR_le; exact Hlo. }
  destruct (Z_le_gt_dec e (fexp prec emax (Zdigits2 M + e))) as [Hpre | Hno].
  - destruct (round_aux_spec s M e HM Hpre) as (mr & Hmr & _ & Hup & Hlw & ->).
    rewrite fexp_eq in *.
    assert (HE0 : (Zdigits2 M + e - 24 <= a - 24)%Z) by lia.
    revert Hpre Hup Hlw HE0. generalize (Zdigits2 M + e - 24)%Z.
    intros E0 Hpre Hup Hlw HE0.
    assert (HE : (Z.max E0 (-149) <= a - 24)%Z) by lia.
    revert Hpre Hup Hlw HE. generalize (Z.max E0 (-149)). clear E0 HE0.
    intros E Hpre Hup Hlw HE.
    assert (Hk : (0 <= E - e)%Z) by lia.
    pose proof (pow2_pos (E - e) Hk) as HK.
    assert (H1 : ((2 * mr - 1) * 2 ^ (E - e) <= 2 * M)%Z).
    { destruct (Z_le_gt_dec ((2 * mr - 1) * 2 ^ (E - e)) (2 * M)) as [|Hgt]; [assumption|].
      exfalso. specialize (Hup (mr - 1)%Z).
      replace (2 * (mr - 1) + 1)%Z with (2 * mr - 1)%Z in Hup by lia. lia. }
    assert (H2 : (2 * M <= (2 * mr + 1) * 2 ^ (E - e))%Z).
    { destruct (Z_le_gt_dec (2 * M) ((2 * mr + 1) * 2 ^ (E - e))) as [|Hgt]; [assumption|].
      exfalso. specialize (Hlw (mr + 1)%Z).
      replace (2 * (mr + 1) - 1)%Z with (2 * mr + 1)%Z in Hlw by lia. lia. }
    assert (Hval :
      is_finite (if (mr =? 2 ^ 24)%Z then pack s (2 ^ 23) (E + 1) else pack s mr E) = true /\
      to_R (if (mr =? 2 ^ 24)%Z then pack s (2 ^ 23) (E + 1) else pack s mr E) =
        sign_R s * IZR mr * powerRZ 2 E).
    { destruct (Z.eqb_spec mr (2 ^ 24)) as [-> | Hne].
      - destruct (to_R_pack s (2 ^ 23) (E + 1)) as [Hf Hv]; [lia | lia |].
        split; [exact Hf|]. rewrite Hv, pow2R_add.
        change (powerRZ 2 1) with (2 * 1).
        change (2 ^ 23)%Z with 8388608%Z. change (2 ^ 24)%Z with 16777216%Z. lra.
      - apply to_R_pack; lia. }
    destruct Hval as [Hf ->]. split; [exact Hf|].
    replace (sign_R s * IZR mr * powerRZ 2 E - sign_R s * IZR M * powerRZ 2 e)
      with (sign_R s * ((IZR mr * IZR (2 ^ (E - e)) - IZR M) * powerRZ 2 e)).
    2:{ rewrite pow2_IZR by lia.
        replace (powerRZ 2 E) with (powerRZ 2 (E - e) * powerRZ 2 e)
          by (rewrite <- pow2R_add; f_equal; lia).
        ring. }
    rewrite !Rabs_mult, Rabs_sign_R, (Rabs_pos_eq (powerRZ 2 e))
      by (left; apply pow2R_pos).
    assert (Hm : Rabs (IZR mr * IZR (2 ^ (E - e)) - IZR M) <= IZR (2 ^ (E - e)) / 2).
    { apply IZR_le in H1, H2.
      rewrite !mult_IZR in H1, H2. rewrite minus_IZR in H1. rewrite plus_IZR in H2.
      rewrite !mult_IZR in H1, H2.
      apply Rabs_le. split; lra. }
    pose proof (pow2R_pos e) as He.
    apply Rle_trans with (IZR (2 ^ (E - e)) / 2 * powerRZ 2 e).
    + rewrite Rmult_1_l. apply Rmult_le_compat_r; [lra | exact Hm].
    + rewrite pow2_IZR by lia.
      replace (powerRZ 2 (E - e) / 2 * powerRZ 2 e) with (powerRZ 2 (E - 1)).
      * apply pow2R_le. lia.
      * rewrite pow2R_half.
        replace (powerRZ 2 E) with (powerRZ 2 (E - e) * powerRZ 2 e)
          by (rewrite <- pow2R_add; f_equal; lia).
        lra.
  - rewrite round_aux_unshifted by (assumption || lia).
    destruct (to_R_pack s M e) as [Hf Hv]; [lia | lia |].
    split; [exact Hf|]. rewrite Hv.
    replace (_ - _) with 0 by ring. rewrite Rabs_R0. left. apply pow2R_pos.
Qed.

Lemma binary_round_R (s : bool) (m : positive) (e a : Z) :
  (-125 <= a <= 100)%Z ->
  IZR (Zpos m) * powerRZ 2 e < powerRZ 2 a ->
  is_finite (binary_round prec emax s m e) = true /\
  Rabs (to_R (binary_round prec emax s m e) - sign_R s * IZR (Zpos m) * powerRZ 2 e)
    <= powerRZ 2 (a - 25).
Proof.
  intros Ha Hlt. unfold binary_round.
  pose proof (shl_align_spec m e (fexp prec emax (Zpos (digits2_pos m) + e))) as Hs.
  destruct (shl_align m e _) as [mz ez]. destruct Hs as (Hez & Hmz & _).
  assert (Hv : IZR (Zpos mz) * powerRZ 2 ez = IZR (Zpos m) * powerRZ 2 e).
  { rewrite Hmz. unfold Zscale. rewrite mult_IZR, pow2_IZR by lia.
    replace (powerRZ 2 e) with (powerRZ 2 (e - ez) * powerRZ 2 ez)
      by (rewrite <- pow2R_add; f_equal; lia).
    ring. }
  destruct (round_aux_R s (Zpos mz) ez a) as [Hf Hb]; [lia | lia | rewrite Hv; exact Hlt |].
  split; [exact Hf|].
  replace (sign_R s * IZR (Zpos m) * powerRZ 2 e)
    with (sign_R s * IZR (Zpos mz) * powerRZ 2 ez)
    by (rewrite !Rmult_assoc, Hv; reflexivity).
  exact Hb.
Qed.

Lemma binary_normalize_R (z e a : Z) :
  (-125 <= a <= 100)%Z ->
  Rabs (IZR z * powerRZ 2 e) < powerRZ 2 a ->
  is_finite (binary_normalize prec emax z e false) = true /\
  Rabs (to_R (binary_normalize prec emax z e false) - IZR z * powerRZ 2 e)
    <= powerRZ 2 (a - 25).
Proof.
  intros Ha Hlt. pose proof (pow2R_pos e) as He. destruct z as [|p|p]; cbn [binary_normalize].
  - split; [reflexivity|]. unfold to_R. cbn [mant expo].
    replace (_ - _) with 0 by ring. rewrite Rabs_R0. left. apply pow2R_pos.
  - assert (H0 : 0 < IZR (Zpos p)) by (apply IZR_lt; lia).
    rewrite Rabs_pos_eq in Hlt by nra.
    destruct (binary_round_R false p e a Ha Hlt) as [Hf Hb]. split; [exact Hf|].
    unfold sign_R in Hb. rewrite Rmult_1_l in Hb. exact Hb.
  - assert (H0 : 0 < IZR (Zpos p)) by (apply IZR_lt; lia).
    change (Zneg p) with (- Zpos p)%Z in *. rewrite opp_IZR in *.
    replace (- IZR (Zpos p) * powerRZ 2 e) with (- (IZR (Zpos p) * powerRZ 2 e)) in * by ring.
    rewrite Rabs_Ropp, Rabs_pos_eq in Hlt by nra.
    destruct (binary_round_R true p e a Ha Hlt) as [Hf Hb]. split; [exact Hf|].
    unfold sign_R in Hb.
    replace (-1 * IZR (Zpos p) * powerRZ 2 e) with (- (IZR (Zpos p) * powerRZ 2 e)) in Hb
      by ring.
    exact Hb.
Qed.

Lemma to_R_zero (s : bool) : to_R (S754_zero s) = 0.
Proof. unfold to_R. cbn [mant expo]. ring. Qed.

Lemma sign_R_xorb (s1 s2 : bool) : sign_R (xorb s1 s2) = sign_R s1 * sign_R s2.
Proof. destruct s1, s2; unfold sign_R; cbn [xorb]; ring. Qed.

Lemma sign_R_negb (s : bool) : sign_R (negb s) = - sign_R s.
Proof. destruct s; unfold sign_R; cbn [negb]; ring. Qed.

Lemma Rabs_0_le_pow2 (a : Z) : Rabs (0 - 0) <= powerRZ 2 a.
Proof. replace (0 - 0) with 0 by ring. rewrite Rabs_R0. left. apply pow2R_pos. Qed.

(** *** The three operations [rotate_point] uses *)

Lemma fmul_R (x y : float32) (a : Z) :
  is_finite x = true -> is_finite y = true -> (-125 <= a <= 100)%Z ->
  Rabs (to_R x * to_R y) < powerRZ 2 a ->
  is_finite (fmul x y) = true /\
  Rabs (to_R (fmul x y) - to_R x * to_R y) <= powerRZ 2 (a - 25).
Proof.
  destruct x as [sx|sx| |sx mx ex]; try discriminate; intros _;
    destruct y as [sy|sy| |sy my ey]; try discriminate; intros _ Ha Hlt;
    cbn [fmul SFmul]; rewrite ?to_R_zero, ?Rmult_0_l, ?Rmult_0_r;
    try (split; [reflexivity | apply Rabs_0_le_pow2]).
  unfold fmul, SFmul. rewrite !to_R_finite in *.
  assert (Hv : sign_R sx * IZR (Zpos mx) * powerRZ 2 ex *
               (sign_R sy * IZR (Zpos my) * powerRZ 2 ey) =
               sign_R (xorb sx sy) * IZR (Zpos (mx * my)) * powerRZ 2 (ex + ey)).
  { rewrite sign_R_xorb, Pos2Z.inj_mul, mult_IZR, pow2R_add. ring. }
  rewrite Hv in *.
  apply round_aux_R; [lia | exact Ha |].
  rewrite !Rabs_mult, Rabs_sign_R, Rmult_1_l in Hlt.
  rewrite (Rabs_pos_eq (IZR _)), (Rabs_pos_eq (powerRZ _ _)) in Hlt;
    [exact Hlt | left; apply pow2R_pos | apply IZR_le; lia].
Qed.

Lemma shl_align_R (s : bool) (m : positive) (e ez : Z) :
  (ez <= e)%Z ->
  IZR (cond_Zopp s (Zpos (fst (shl_align m e ez)))) * powerRZ 2 ez =
    to_R (S754_finite s m e).
Proof.
  intros Hez. pose proof (shl_align_spec m e ez) as Hs.
  destruct (shl_align m e ez) as [mz ez']. destruct Hs as (_ & Hmz & _ & Heq & _).
  rewrite (Heq Hez) in Hmz. cbn [fst]. rewrite to_R_finite.
  replace (IZR (cond_Zopp s (Zpos mz))) with (sign_R s * IZR (Zpos mz))
    by (destruct s; unfold sign_R; cbn [cond_Zopp];
        [change (Zneg mz) with (- Zpos mz)%Z; rewrite opp_IZR|]; ring).
  rewrite Hmz. unfold Zscale. rewrite mult_IZR, pow2_IZR by lia.
  replace (powerRZ 2 e) with (powerRZ 2 (e - ez) * powerRZ 2 ez)
    by (rewrite <- pow2R_add; f_equal; lia).
  ring.
Qed.

Lemma Rabs_same_le_pow2 (r : R) (a : Z) : Rabs (r - r) <= powerRZ 2 a.
Proof. replace (r - r) with 0 by ring. rewrite Rabs_R0. left. apply pow2R_pos. Qed.

Lemma fadd_R (x y : float32) (a : Z) :
  is_finite x = true -> is_finite y = true -> (-125 <= a <= 100)%Z ->
  Rabs (to_R x + to_R y) < powerRZ 2 a ->
  is_finite (fadd x y) = true /\
  Rabs (to_R (fadd x y) - (to_R x + to_R y)) <= powerRZ 2 (a - 25).
Proof.
  destruct x as [sx|sx| |sx mx ex]; try discriminate; intros _;
    destruct y as [sy|sy| |sy my ey]; try discriminate; intros _ Ha Hlt.
  - rewrite !to_R_zero, Rplus_0_l.
    destruct sx, sy; cbn [fadd SFadd]; rewrite to_R_zero;
      (split; [reflexivity | apply Rabs_0_le_pow2]).
  - rewrite to_R_zero, Rplus_0_l. cbn [fadd SFadd].
    split; [reflexivity | apply Rabs_same_le_pow2].
  - rewrite to_R_zero, Rplus_0_r. cbn [fadd SFadd].
    split; [reflexivity | apply Rabs_same_le_pow2].
  - unfold fadd, SFadd. cbv zeta.
    rewrite <- (shl_align_R sx mx ex (Z.min ex ey)), <- (shl_align_R sy my ey (Z.min ex ey))
      in * by lia.
    rewrite <- Rmult_plus_distr_r, <- plus_IZR in *.
    apply binary_normalize_R; assumption.
Qed.

Lemma fsub_R (x y : float32) (a : Z) :
  is_finite x = true -> is_finite y = true -> (-125 <= a <= 100)%Z ->
  Rabs (to_R x - to_R y) < powerRZ 2 a ->
  is_finite (fsub x y) = true /\
  Rabs (to_R (fsub x y) - (to_R x - to_R y)) <= powerRZ 2 (a - 25).
Proof.
  destruct x as [sx|sx| |sx mx ex]; try discriminate; intros _;
    destruct y as [sy|sy| |sy my ey]; try discriminate; intros _ Ha Hlt.
  - rewrite !to_R_zero, Rminus_0_r.
    destruct sx, sy; cbn [fsub SFsub]; rewrite to_R_zero;
      (split; [reflexivity | apply Rabs_0_le_pow2]).
  - rewrite to_R_zero. cbn [fsub SFsub]. split; [reflexivity|].
    rewrite !to_R_finite, sign_R_negb.
    replace (_ - _) with 0 by ring. rewrite Rabs_R0. left. apply pow2R_pos.
  - rewrite to_R_zero, Rminus_0_r. cbn [fsub SFsub].
    split; [reflexivity | apply Rabs_same_le_pow2].
  - unfold fsub, SFsub. cbv zeta.
    rewrite <- (shl_align_R sx mx ex (Z.min ex ey)), <- (shl_align_R sy my ey (Z.min ex ey))
      in * by lia.
    rewrite <- Rmult_minus_distr_r, <- minus_IZR in *.
    apply binary_normalize_R; assumption.
Qed.

(** ** Error propagation *)

Lemma Rabs_split (A B : R) : Rabs A <= Rabs (A - B) + Rabs B.
Proof. replace A with ((A - B) + B) at 1 by ring. apply Rabs_triang. Qed.

Lemma Rabs_chain (A B C : R) : Rabs (A - C) <= Rabs (A - B) + Rabs (B - C).
Proof. replace (A - C) with ((A - B) + (B - C)) by ring. apply Rabs_triang. Qed.

Lemma Rabs_mult_le (X Y a b : R) : Rabs X <= a -> Rabs Y <= b -> Rabs (X * Y) <= a * b.
Proof.
  intros HX HY. rewrite Rabs_mult.
  apply Rmult_le_compat; auto using Rabs_pos.
Qed.

Lemma Rabs_mult_err (X X0 Y Y0 a b dx dy : R) :
  Rabs X <= a -> Rabs Y0 <= b -> Rabs (X - X0) <= dx -> Rabs (Y - Y0) <= dy ->
  Rabs (X * Y - X0 * Y0) <= a * dy + dx * b.
Proof.
  intros HX HY0 Hdx Hdy.
  replace (X * Y - X0 * Y0) with (X * (Y - Y0) + (X - X0) * Y0) by ring.
  eapply Rle_trans; [apply Rabs_triang|].
  apply Rplus_le_compat; apply Rabs_mult_le; assumption.
Qed.

Lemma pow2R_neg_lit (k : positive) : powerRZ 2 (Zneg k) = / IZR (2 ^ Zpos k).
Proof.
  change (Zneg k) with (- Zpos k)%Z. rewrite powerRZ_neg', pow2_IZR by lia. reflexivity.
Qed.

Lemma pow2R_pos_lit (k : positive) : powerRZ 2 (Zpos k) = IZR (2 ^ Zpos k).
Proof. rewrite pow2_IZR by lia. reflexivity. Qed.

(** One coordinate of [rotate_point]: two products combined by [op], a
    subtraction or an addition, then moved back by [k]. *)
Section Coordinate.
Variables (op : float32 -> float32 -> float32) (opR : R -> R -> R).
Hypothesis op_R :
  forall (x y : float32) (a : Z),
    is_finite x = true -> is_finite y = true -> (-125 <= a <= 100)%Z ->
    Rabs (opR (to_R x) (to_R y)) < powerRZ 2 a ->
    is_finite (op x y) = true /\
    Rabs (to_R (op x y) - opR (to_R x) (to_R y)) <= powerRZ 2 (a - 25).
Hypothesis opR_lipschitz :
  forall X Y X' Y', Rabs (opR X Y - opR X' Y') <= Rabs (X - X') + Rabs (Y - Y').
Hypothesis opR_0 : opR 0 0 = 0.

Lemma coordinate_R (p q c1 c2 k : float32) (P Q g1 g2 : R) (t b : Z) :
  is_finite p = true -> is_finite q = true ->
  is_finite c1 = true -> is_finite c2 = true -> is_finite k = true ->
  (-100 <= t)%Z -> (t + 3 <= b <= 90)%Z ->
  Rabs (to_R p - P) <= powerRZ 2 (t - 24) -> Rabs P <= powerRZ 2 t ->
  Rabs (to_R q - Q) <= powerRZ 2 (t - 24) -> Rabs Q <= powerRZ 2 t ->
  Rabs (to_R c1 - g1) <= powerRZ 2 (-20) -> Rabs g1 <= 1 ->
  Rabs (to_R c2 - g2) <= powerRZ 2 (-20) -> Rabs g2 <= 1 ->
  Rabs (to_R k) <= powerRZ 2 b ->
  is_finite (fadd (op (fmul p c1) (fmul q c2)) k) = true /\
  Rabs (to_R (fadd (op (fmul p c1) (fmul q c2)) k) - (opR (P * g1) (Q * g2) + to_R k))
    <= powerRZ 2 (t - 18) + powerRZ 2 (b - 24).
Proof.
  intros Hp Hq Hc1 Hc2 Hk Ht Hb HpP HP HqQ HQ Hg1 HG1 Hg2 HG2 HK.
  pose proof (pow2R_pos t) as Hu.
  assert (E1 : powerRZ 2 (t + 1) = 2 * powerRZ 2 t).
  { rewrite pow2R_add, (pow2R_pos_lit 1). change (2 ^ 1)%Z with 2%Z. ring. }
  assert (E1e : powerRZ 2 (t + 1 - 25) = powerRZ 2 t / 16777216).
  { replace (t + 1 - 25)%Z with (t + -24)%Z by lia.
    rewrite pow2R_add, (pow2R_neg_lit 24). reflexivity. }
  assert (E2 : powerRZ 2 (t + 2) = 4 * powerRZ 2 t).
  { rewrite pow2R_add, (pow2R_pos_lit 2). change (2 ^ 2)%Z with 4%Z. ring. }
  assert (E2e : powerRZ 2 (t + 2 - 25) = powerRZ 2 t / 8388608).
  { replace (t + 2 - 25)%Z with (t + -23)%Z by lia.
    rewrite pow2R_add, (pow2R_neg_lit 23). reflexivity. }
  assert (E3 : powerRZ 2 (b + 1) = 2 * powerRZ 2 b).
  { rewrite pow2R_add, (pow2R_pos_lit 1). change (2 ^ 1)%Z with 2%Z. ring. }
  assert (E3e : powerRZ 2 (b + 1 - 25) = powerRZ 2 b / 16777216).
  { replace (b + 1 - 25)%Z with (b + -24)%Z by lia.
    rewrite pow2R_add, (pow2R_neg_lit 24). reflexivity. }
  assert (E4 : powerRZ 2 (t - 24) = powerRZ 2 t / 16777216).
  { replace (t - 24)%Z with (t + -24)%Z by lia.
    rewrite pow2R_add, (pow2R_neg_lit 24). reflexivity. }
  assert (E5 : powerRZ 2 (t - 18) = powerRZ 2 t / 262144).
  { replace (t - 18)%Z with (t + -18)%Z by lia.
    rewrite pow2R_add, (pow2R_neg_lit 18). reflexivity. }
  assert (E6 : powerRZ 2 (b - 24) = powerRZ 2 b / 16777216).
  { replace (b - 24)%Z with (b + -24)%Z by lia.
    rewrite pow2R_add, (pow2R_neg_lit 24). reflexivity. }
  assert (E7 : powerRZ 2 (-20) = / 1048576) by apply (pow2R_neg_lit 20).
  assert (Huv : 8 * powerRZ 2 t <= powerRZ 2 b).
  { apply Rle_trans with (powerRZ 2 (t + 3)); [|apply pow2R_le; lia].
    rewrite pow2R_add, (pow2R_pos_lit 3). change (2 ^ 3)%Z with 8%Z. lra. }
  rewrite E4 in HpP, HqQ. rewrite E7 in Hg1, Hg2. rewrite E5, E6.
  revert Hu E1 E1e E2 E2e E3 E3e Huv HpP HP HqQ HQ HK.
  generalize (powerRZ 2 t) (powerRZ 2 b). intros u v Hu E1 E1e E2 E2e E3 E3e Huv HpP HP HqQ HQ HK.
  (* the operands *)
  pose proof (Rabs_split (to_R p) P) as HPf.
  pose proof (Rabs_split (to_R q) Q) as HQf.
  pose proof (Rabs_split (to_R c1) g1) as HC1.
  pose proof (Rabs_split (to_R c2) g2) as HC2.
  assert (HPf' : Rabs (to_R p) <= u * (1 + / 16777216)) by lra.
  assert (HQf' : Rabs (to_R q) <= u * (1 + / 16777216)) by lra.
  assert (HC1' : Rabs (to_R c1) <= 1 + / 1048576) by lra.
  assert (HC2' : Rabs (to_R c2) <= 1 + / 1048576) by lra.
  (* the two products *)
  pose proof (Rabs_mult_le _ _ _ _ HPf' HC1') as Hm1.
  pose proof (Rabs_mult_le _ _ _ _ HQf' HC2') as Hm2.
  destruct (fmul_R p c1 (t + 1) Hp Hc1 ltac:(lia)) as [Hf1 He1]; [rewrite E1; lra|].
  destruct (fmul_R q c2 (t + 1) Hq Hc2 ltac:(lia)) as [Hf2 He2]; [rewrite E1; lra|].
  rewrite E1e in He1, He2.
  pose proof (Rabs_mult_err _ _ _ _ _ _ _ _ HPf' HG1 HpP Hg1) as Hd1.
  pose proof (Rabs_mult_err _ _ _ _ _ _ _ _ HQf' HG2 HqQ Hg2) as Hd2.
  pose proof (Rabs_split (to_R (fmul p c1)) (to_R p * to_R c1)) as HM1.
  pose proof (Rabs_split (to_R (fmul q c2)) (to_R q * to_R c2)) as HM2.
  pose proof (Rabs_chain (to_R (fmul p c1)) (to_R p * to_R c1) (P * g1)) as HD1.
  pose proof (Rabs_chain (to_R (fmul q c2)) (to_R q * to_R c2) (Q * g2)) as HD2.
  (* their combination *)
  pose proof (opR_lipschitz (to_R (fmul p c1)) (to_R (fmul q c2)) 0 0) as Hl0.
  rewrite opR_0, !Rminus_0_r in Hl0.
  destruct (op_R (fmul p c1) (fmul q c2) (t + 2) Hf1 Hf2 ltac:(lia)) as [Hf3 He3];
    [rewrite E2; lra|].
  rewrite E2e in He3.
  pose proof (opR_lipschitz (to_R (fmul p c1)) (to_R (fmul q c2)) (P * g1) (Q * g2)) as Hl.
  pose proof (Rabs_split (to_R (op (fmul p c1) (fmul q c2)))
                (opR (to_R (fmul p c1)) (to_R (fmul q c2)))) as HR.
  pose proof (Rabs_chain (to_R (op (fmul p c1) (fmul q c2)))
                (opR (to_R (fmul p c1)) (to_R (fmul q c2))) (opR (P * g1) (Q * g2))) as HRd.
  (* moving back *)
  pose proof (Rabs_triang (to_R (op (fmul p c1) (fmul q c2))) (to_R k)) as HS.
  destruct (fadd_R (op (fmul p c1) (fmul q c2)) k (b + 1) Hf3 Hk ltac:(lia)) as [Hf4 He4];
    [rewrite E3; lra|].
  rewrite E3e in He4. split; [exact Hf4|].
  pose proof (Rabs_chain (to_R (fadd (op (fmul p c1) (fmul q c2)) k))
                (to_R (op (fmul p c1) (fmul q c2)) + to_R k)
                (opR (P * g1) (Q * g2) + to_R k)) as HT.
  replace (to_R (op (fmul p c1) (fmul q c2)) + to_R k - (opR (P * g1) (Q * g2) + to_R k))
    with (to_R (op (fmul p c1) (fmul q c2)) - opR (P * g1) (Q * g2)) in HT by ring.
  lra.
Qed.

End Coordinate.

(** ** [rotate_point] in binary32 against [rotate_point] over the reals *)

Lemma Rminus_lipschitz (X Y X' Y' : R) :
  Rabs (X - Y - (X' - Y')) <= Rabs (X - X') + Rabs (Y - Y').
Proof.
  replace (X - Y - (X' - Y')) with ((X - X') + - (Y - Y')) by ring.
  eapply Rle_trans; [apply Rabs_triang|]. rewrite Rabs_Ropp. lra.
Qed.

Lemma Rplus_lipschitz (X Y X' Y' : R) :
  Rabs (X + Y - (X' + Y')) <= Rabs (X - X') + Rabs (Y - Y').
Proof.
  replace (X + Y - (X' + Y')) with ((X - X') + (Y - Y')) by ring. apply Rabs_triang.
Qed.

Lemma Rabs_sin_le (x : R) : Rabs (sin x) <= 1.
Proof. apply Rabs_le. pose proof (SIN_bound x). lra. Qed.

Lemma Rabs_cos_le (x : R) : Rabs (cos x) <= 1.
Proof. apply Rabs_le. pose proof (COS_bound x). lra. Qed.

(** The link between the two instances.  When the centre is within
    [2 ^ b] of the origin, the point within [2 ^ t] of the centre on each
    axis, and the library's sine and cosine of the angle within [2 ^ -20]
    of the sine and cosine of some real [theta], the binary32 result is
    finite and each coordinate lies within [2 ^ (t - 18) + 2 ^ (b - 24)] of
    the exact rotation by [theta]. *)
Lemma rotate_point_R (SDL_sinf SDL_cosf : float32 -> float32)
    (cx cy : float32) (p : float32 * float32) (angle : float32) (theta : R) (t b : Z) :
  is_finite cx = true -> is_finite cy = true -> point_is_finite p = true ->
  is_finite (SDL_sinf angle) = true -> is_finite (SDL_cosf angle) = true ->
  (-100 <= t)%Z -> (t + 3 <= b <= 90)%Z ->
  Rabs (to_R (fst p) - to_R cx) <= powerRZ 2 t ->
  Rabs (to_R (snd p) - to_R cy) <= powerRZ 2 t ->
  Rabs (to_R cx) <= powerRZ 2 b -> Rabs (to_R cy) <= powerRZ 2 b ->
  Rabs (to_R (SDL_sinf angle) - sin theta) <= powerRZ 2 (-20) ->
  Rabs (to_R (SDL_cosf angle) - cos theta) <= powerRZ 2 (-20) ->
  point_is_finite (rotate_point (A := binary32_arith SDL_sinf SDL_cosf) cx cy p angle) = true /\
  Rabs (fst (point_to_R (rotate_point (A := binary32_arith SDL_sinf SDL_cosf) cx cy p angle)) -
        fst (rotate_point (A := real_arith) (to_R cx) (to_R cy) (point_to_R p) theta))
    <= powerRZ 2 (t - 18) + powerRZ 2 (b - 24) /\
  Rabs (snd (point_to_R (rotate_point (A := binary32_arith SDL_sinf SDL_cosf) cx cy p angle)) -
        snd (rotate_point (A := real_arith) (to_R cx) (to_R cy) (point_to_R p) theta))
    <= powerRZ 2 (t - 18) + powerRZ 2 (b - 24).
Proof.
  intros Hcx Hcy Hp Hs Hc Ht Hb Hx Hy HCX HCY Hsin Hcos.
  destruct p as [x y]. unfold point_is_finite in Hp. cbn [fst snd] in *.
  apply andb_true_iff in Hp. destruct Hp as [Hfx Hfy].
  unfold rotate_point, point_to_R, point_is_finite.
  cbn [add sub mul sinf cosf binary32_arith real_arith fst snd].
  assert (Hlt : powerRZ 2 t < powerRZ 2 (t + 1)).
  { rewrite pow2R_add, (pow2R_pos_lit 1). change (2 ^ 1)%Z with 2%Z.
    pose proof (pow2R_pos t). lra. }
  destruct (fsub_R x cx (t + 1) Hfx Hcx ltac:(lia) ltac:(lra)) as [Hftx Hetx].
  destruct (fsub_R y cy (t + 1) Hfy Hcy ltac:(lia) ltac:(lra)) as [Hfty Hety].
  replace (t + 1 - 25)%Z with (t - 24)%Z in Hetx, Hety by lia.
  destruct (coordinate_R fsub Rminus fsub_R Rminus_lipschitz ltac:(ring)
              (fsub x cx) (fsub y cy) (SDL_cosf angle) (SDL_sinf angle) cx
              (to_R x - to_R cx) (to_R y - to_R cy) (cos theta) (sin theta) t b)
    as [Hf1 He1]; try assumption; try apply Rabs_sin_le; try apply Rabs_cos_le.
  destruct (coordinate_R fadd Rplus fadd_R Rplus_lipschitz ltac:(ring)
              (fsub x cx) (fsub y cy) (SDL_sinf angle) (SDL_cosf angle) cy
              (to_R x - to_R cx) (to_R y - to_R cy) (sin theta) (cos theta) t b)
    as [Hf2 He2]; try assumption; try apply Rabs_sin_le; try apply Rabs_cos_le.
  rewrite Hf1, Hf2. split; [reflexivity|]. split; assumption.
Qed.

(** ** Distances *)

Lemma sqrt_sum_squares_le (a b : R) : sqrt (a * a + b * b) <= Rabs a + Rabs b.
Proof.
  pose proof (Rabs_pos a) as Ha. pose proof (Rabs_pos b) as Hb.
  rewrite <- (sqrt_square (Rabs a + Rabs b)) by lra.
  apply sqrt_le_1_alt.
  assert (Ha2 : Rabs a * Rabs a = a * a) by (rewrite <- Rabs_mult; apply Rabs_pos_eq; nra).
  assert (Hb2 : Rabs b * Rabs b = b * b) by (rewrite <- Rabs_mult; apply Rabs_pos_eq; nra).
  nra.
Qed.

Lemma distance_dist_euc (p q : R * R) :
  distance p q = dist_euc (fst p) (snd p) (fst q) (snd q).
Proof. reflexivity. Qed.

Lemma distance_le_abs (p q : R * R) :
  distance p q <= Rabs (fst p - fst q) + Rabs (snd p - snd q).
Proof. apply sqrt_sum_squares_le. Qed.

Lemma distance_sym (p q : R * R) : distance p q = distance q p.
Proof. unfold distance. f_equal. ring. Qed.

Lemma distance_triangle (p q r : R * R) : distance p q <= distance p r + distance r q.
Proof. rewrite !distance_dist_euc. apply triangle. Qed.

(** Moving the two end points moves their distance by no more than the
    moves add up to. *)
Lemma distance_perturb (p q p0 q0 : R * R) :
  Rabs (distance p q - distance p0 q0) <=
    Rabs (fst p - fst p0) + Rabs (snd p - snd p0) +
    (Rabs (fst q - fst q0) + Rabs (snd q - snd q0)).
Proof.
  pose proof (distance_le_abs p p0) as Hp. pose proof (distance_le_abs q q0) as Hq.
  pose proof (distance_triangle p q p0) as H1.
  pose proof (distance_triangle p0 q q0) as H2.
  pose proof (distance_triangle p0 q0 p) as H3.
  pose proof (distance_triangle p q0 q) as H4.
  rewrite (distance_sym q0 q) in H2. rewrite (distance_sym p0 p) in H3.
  apply Rabs_le. split; lra.
Qed.

Lemma rotate_point_distance (cx cy angle : R) (p q : R * R) :
  distance (rotate_point (A := real_arith) cx cy p angle)
           (rotate_point (A := real_arith) cx cy q angle) = distance p q.
Proof.
  unfold distance, rotate_point; cbn [add sub mul sinf cosf real_arith fst snd].
  f_equal. pose proof (sin2_cos2 angle) as H. unfold Rsqr in H.
  destruct p as [px py], q as [qx qy]; cbn [fst snd].
  transitivity (((px - qx) * (px - qx) + (py - qy) * (py - qy)) *
                (sin angle * sin angle + cos angle * cos angle)); [ring|].
  rewrite H. ring.
Qed.

(** ** The ship *)

Lemma to_R_of_Z_320 : to_R (of_Z 320) = 320.
Proof.
  change (of_Z 320) with (S754_finite false 10485760 (-15)).
  rewrite to_R_finite, (pow2R_neg_lit 15). change (2 ^ 15)%Z with 32768%Z.
  unfold sign_R. lra.
Qed.

Lemma to_R_of_Z_240 : to_R (of_Z 240) = 240.
Proof.
  change (of_Z 240) with (S754_finite false 15728640 (-16)).
  rewrite to_R_finite, (pow2R_neg_lit 16). change (2 ^ 16)%Z with 65536%Z.
  unfold sign_R. lra.
Qed.

Lemma to_R_of_Z_220 : to_R (of_Z 220) = 220.
Proof.
  change (of_Z 220) with (S754_finite false 14417920 (-16)).
  rewrite to_R_finite, (pow2R_neg_lit 16). change (2 ^ 16)%Z with 65536%Z.
  unfold sign_R. lra.
Qed.

Lemma to_R_of_Z_300 : to_R (of_Z 300) = 300.
Proof.
  change (of_Z 300) with (S754_finite false 9830400 (-15)).
  rewrite to_R_finite, (pow2R_neg_lit 15). change (2 ^ 15)%Z with 32768%Z.
  unfold sign_R. lra.
Qed.

Lemma to_R_of_Z_340 : to_R (of_Z 340) = 340.
Proof.
  change (of_Z 340) with (S754_finite false 11141120 (-15)).
  rewrite to_R_finite, (pow2R_neg_lit 15). change (2 ^ 15)%Z with 32768%Z.
  unfold sign_R. lra.
Qed.

Lemma to_R_of_Z_260 : to_R (of_Z 260) = 260.
Proof.
  change (of_Z 260) with (S754_finite false 8519680 (-15)).
  rewrite to_R_finite, (pow2R_neg_lit 15). change (2 ^ 15)%Z with 32768%Z.
  unfold sign_R. lra.
Qed.

(** The ship's vertices as [draw_frame] computes them before rotation. *)
Lemma ship_vertices_eq (SDL_sinf SDL_cosf : float32 -> float32) :
  ship_vertices (A := binary32_arith SDL_sinf SDL_cosf)
    (fmul (of_Z WINDOW_WIDTH) (of_ratio 1 2)) (fmul (of_Z WINDOW_HEIGHT) (of_ratio 1 2))
    (of_Z 20) =
  ((of_Z 320, of_Z 220), (of_Z 300, of_Z 260), (of_Z 340, of_Z 260)).
Proof. vm_compute. reflexivity. Qed.

Lemma centre_eq :
  fmul (of_Z WINDOW_WIDTH) (of_ratio 1 2) = of_Z 320 /\
  fmul (of_Z WINDOW_HEIGHT) (of_ratio 1 2) = of_Z 240.
Proof. vm_compute. split; reflexivity. Qed.

(** A point within 32 of the window centre on each axis, rotated about the
    centre. *)
Lemma ship_vertex_R (SDL_sinf SDL_cosf : float32 -> float32) (angle : float32) (theta : R)
    (p : float32 * float32) :
  is_finite (SDL_sinf angle) = true -> is_finite (SDL_cosf angle) = true ->
  Rabs (to_R (SDL_sinf angle) - sin theta) <= / 1048576 ->
  Rabs (to_R (SDL_cosf angle) - cos theta) <= / 1048576 ->
  point_is_finite p = true ->
  Rabs (to_R (fst p) - 320) <= 32 -> Rabs (to_R (snd p) - 240) <= 32 ->
  point_is_finite
    (rotate_point (A := binary32_arith SDL_sinf SDL_cosf) (of_Z 320) (of_Z 240) p angle) = true /\
  Rabs (fst (point_to_R (rotate_point (A := binary32_arith SDL_sinf SDL_cosf)
                           (of_Z 320) (of_Z 240) p angle)) -
        fst (rotate_point (A := real_arith) 320 240 (point_to_R p) theta))
    <= / 8192 + / 32768 /\
  Rabs (snd (point_to_R (rotate_point (A := binary32_arith SDL_sinf SDL_cosf)
                           (of_Z 320) (of_Z 240) p angle)) -
        snd (rotate_point (A := real_arith) 320 240 (point_to_R p) theta))
    <= / 8192 + / 32768.
Proof.
  intros Hs Hc Hsin Hcos Hp Hx Hy.
  pose proof (rotate_point_R SDL_sinf SDL_cosf (of_Z 320) (of_Z 240) p angle theta 5 9) as H.
  rewrite to_R_of_Z_320, to_R_of_Z_240 in H.
  change (5 - 18)%Z with (-13)%Z in H. change (9 - 24)%Z with (-15)%Z in H.
  rewrite (pow2R_neg_lit 13), (pow2R_neg_lit 15), (pow2R_neg_lit 20), (pow2R_pos_lit 5),
    (pow2R_pos_lit 9) in H.
  change (2 ^ 13)%Z with 8192%Z in H. change (2 ^ 15)%Z with 32768%Z in H.
  change (2 ^ 20)%Z with 1048576%Z in H. change (2 ^ 5)%Z with 32%Z in H.
  change (2 ^ 9)%Z with 512%Z in H.
  apply H; try assumption; try reflexivity; try lia.
  - rewrite Rabs_pos_eq; lra.
  - rewrite Rabs_pos_eq; lra.
Qed.

(** Two such points: the distance between their rotated images against
    the distance between them. *)
Lemma ship_pair_R (SDL_sinf SDL_cosf : float32 -> float32) (angle : float32) (theta : R)
    (p q : float32 * float32) :
  is_finite (SDL_sinf angle) = true -> is_finite (SDL_cosf angle) = true ->
  Rabs (to_R (SDL_sinf angle) - sin theta) <= / 1048576 ->
  Rabs (to_R (SDL_cosf angle) - cos theta) <= / 1048576 ->
  point_is_finite p = true ->
  Rabs (to_R (fst p) - 320) <= 32 -> Rabs (to_R (snd p) - 240) <= 32 ->
  point_is_finite q = true ->
  Rabs (to_R (fst q) - 320) <= 32 -> Rabs (to_R (snd q) - 240) <= 32 ->
  point_is_finite
    (rotate_point (A := binary32_arith SDL_sinf SDL_cosf) (of_Z 320) (of_Z 240) p angle) = true /\
  point_is_finite
    (rotate_point (A := binary32_arith SDL_sinf SDL_cosf) (of_Z 320) (of_Z 240) q angle) = true /\
  Rabs (distance
          (point_to_R (rotate_point (A := binary32_arith SDL_sinf SDL_cosf)
                         (of_Z 320) (of_Z 240) p angle))
          (point_to_R (rotate_point (A := binary32_arith SDL_sinf SDL_cosf)
                         (of_Z 320) (of_Z 240) q angle)) -
        distance (point_to_R p) (point_to_R q)) <= / 1000.
Proof.
  intros Hs Hc Hsin Hcos Hp Hpx Hpy Hq Hqx Hqy.
  destruct (ship_vertex_R SDL_sinf SDL_cosf angle theta p Hs Hc Hsin Hcos Hp Hpx Hpy)
    as (Hfp & Hp1 & Hp2).
  destruct (ship_vertex_R SDL_sinf SDL_cosf angle theta q Hs Hc Hsin Hcos Hq Hqx Hqy)
    as (Hfq & Hq1 & Hq2).
  split; [exact Hfp|]. split; [exact Hfq|].
  rewrite <- (rotate_point_distance 320 240 theta (point_to_R p) (point_to_R q)).
  eapply Rle_trans; [apply distance_perturb|]. lra.
Qed.

Lemma ship_point_near (x y : Z) :
  (288 <= x <= 352)%Z -> (208 <= y <= 272)%Z ->
  to_R (of_Z x) = IZR x -> to_R (of_Z y) = IZR y ->
  Rabs (to_R (fst (of_Z x, of_Z y)) - 320) <= 32 /\
  Rabs (to_R (snd (of_Z x, of_Z y)) - 240) <= 32.
Proof.
  intros Hx Hy Ex Ey. cbn [fst snd]. rewrite Ex, Ey.
  destruct Hx as [Hx1 Hx2], Hy as [Hy1 Hy2].
  apply IZR_le in Hx1, Hx2, Hy1, Hy2.
  split; apply Rabs_le; split; lra.
Qed.

(** C3.  In binary32, as [draw_frame] runs it: for every angle at which
    [SDL_sinf] and [SDL_cosf] return finite floats within [2 ^ -20] of the
    sine and the cosine of one real number, rotating the ship's three
    vertices about the window centre with [rotate_point] gives finite
    points, and for any two of them the Euclidean distance after the
    rotation is within 1/1000 of the distance before it. *)
Theorem rotate_point_is_rigid
    (SDL_sinf SDL_cosf : float32 -> float32) (angle : float32) (theta : R) :
  is_finite (SDL_sinf angle) = true -> is_finite (SDL_cosf angle) = true ->
  Rabs (to_R (SDL_sinf angle) - sin theta) <= / 1048576 ->
  Rabs (to_R (SDL_cosf angle) - cos theta) <= / 1048576 ->
  let F32 := binary32_arith SDL_sinf SDL_cosf in
  let cx := fmul (of_Z WINDOW_WIDTH) (of_ratio 1 2) in
  let cy := fmul (of_Z WINDOW_HEIGHT) (of_ratio 1 2) in
  let '(p1, p2, p3) := ship_vertices (A := F32) cx cy (of_Z 20) in
  Forall (fun p =>
    Forall (fun q =>
      let p' := rotate_point (A := F32) cx cy p angle in
      let q' := rotate_point (A := F32) cx cy q angle in
      point_is_finite p' = true /\ point_is_finite q' = true /\
      Rabs (distance (point_to_R p') (point_to_R q') -
            distance (point_to_R p) (point_to_R q)) <= / 1000)
      [p1; p2; p3])
    [p1; p2; p3].
Proof.
  intros Hs Hc Hsin Hcos. cbv zeta. rewrite ship_vertices_eq.
  destruct centre_eq as [-> ->].
  destruct (ship_point_near 320 220 ltac:(lia) ltac:(lia) to_R_of_Z_320 to_R_of_Z_220)
    as [H1x H1y].
  destruct (ship_point_near 300 260 ltac:(lia) ltac:(lia) to_R_of_Z_300 to_R_of_Z_260)
    as [H2x H2y].
  destruct (ship_point_near 340 260 ltac:(lia) ltac:(lia) to_R_of_Z_340 to_R_of_Z_260)
    as [H3x H3y].
  repeat first [apply Forall_cons_2 | apply Forall_nil_2];
    apply (ship_pair_R SDL_sinf SDL_cosf angle theta); try assumption; reflexivity.
Qed.

(** C3 (witness): a library whose [SDL_sinf] returns 0 and whose
    [SDL_cosf] returns 1, the sine and cosine of 0. *)
Lemma rotate_point_is_rigid_witness :
  let F32 := binary32_arith (fun _ => S754_zero false) (fun _ => of_Z 1) in
  let cx := fmul (of_Z WINDOW_WIDTH) (of_ratio 1 2) in
  let cy := fmul (of_Z WINDOW_HEIGHT) (of_ratio 1 2) in
  let '(p1, p2, p3) := ship_vertices (A := F32) cx cy (of_Z 20) in
  Forall (fun p =>
    Forall (fun q =>
      let p' := rotate_point (A := F32) cx cy p (S754_zero false) in
      let q' := rotate_point (A := F32) cx cy q (S754_zero false) in
      point_is_finite p' = true /\ point_is_finite q' = true /\
      Rabs (distance (point_to_R p') (point_to_R q') -
            distance (point_to_R p) (point_to_R q)) <= / 1000)
      [p1; p2; p3])
    [p1; p2; p3].
Proof.
  apply (rotate_point_is_rigid (fun _ => S754_zero false) (fun _ => of_Z 1)
           (S754_zero false) 0).
  - reflexivity.
  - reflexivity.
  - rewrite sin_0, to_R_zero, Rminus_0_r, Rabs_R0. lra.
  - rewrite cos_0. change (of_Z 1) with (S754_finite false 8388608 (-23)).
    rewrite to_R_finite, (pow2R_neg_lit 23). change (2 ^ 23)%Z with 8388608%Z.
    unfold sign_R. replace (_ - _) with 0 by lra. rewrite Rabs_R0. lra.
Defined.

(** X15. [rotate_point] as the program runs it, in binary32, rotates by
    the angle whose sine and cosine the library returns.  For a centre and
    a point whose coordinates are finite and at most 1024 in magnitude,
    and an angle at which [SDL_sinf] and [SDL_cosf] return finite floats
    within [2 ^ -20] of [sin theta] and [cos theta], the result is finite
    and each of its coordinates lies within 1/100 of the point rotated by
    [theta] about the centre,
    [(cx + (x - cx) cos theta - (y - cy) sin theta,
      cy + (x - cx) sin theta + (y - cy) cos theta)],
    which is what [rotate_point] computes over the real numbers. *)
Theorem rotate_point_accuracy
    (SDL_sinf SDL_cosf : float32 -> float32)
    (cx cy : float32) (p : float32 * float32) (angle : float32) (theta : R) :
  is_finite cx = true -> is_finite cy = true -> point_is_finite p = true ->
  Rabs (to_R cx) <= 1024 -> Rabs (to_R cy) <= 1024 ->
  Rabs (to_R (fst p)) <= 1024 -> Rabs (to_R (snd p)) <= 1024 ->
  is_finite (SDL_sinf angle) = true -> is_finite (SDL_cosf angle) = true ->
  Rabs (to_R (SDL_sinf angle) - sin theta) <= / 1048576 ->
  Rabs (to_R (SDL_cosf angle) - cos theta) <= / 1048576 ->
  let out := rotate_point (A := binary32_arith SDL_sinf SDL_cosf) cx cy p angle in
  let exact := rotate_point (A := real_arith) (to_R cx) (to_R cy) (point_to_R p) theta in
  point_is_finite out = true /\
  Rabs (fst (point_to_R out) - fst exact) <= / 100 /\
  Rabs (snd (point_to_R out) - snd exact) <= / 100 /\
  fst exact =
    to_R cx + (to_R (fst p) - to_R cx) * cos theta - (to_R (snd p) - to_R cy) * sin theta /\
  snd exact =
    to_R cy + (to_R (fst p) - to_R cx) * sin theta + (to_R (snd p) - to_R cy) * cos theta.
Proof.
  intros Hcx Hcy Hp HCX HCY HX HY Hs Hc Hsin Hcos. cbv zeta.
  pose proof (rotate_point_R SDL_sinf SDL_cosf cx cy p angle theta 11 14) as H.
  change (11 - 18)%Z with (-7)%Z in H. change (14 - 24)%Z with (-10)%Z in H.
  rewrite (pow2R_neg_lit 7), (pow2R_neg_lit 10), (pow2R_neg_lit 20), (pow2R_pos_lit 11),
    (pow2R_pos_lit 14) in H.
  change (2 ^ 7)%Z with 128%Z in H. change (2 ^ 10)%Z with 1024%Z in H.
  change (2 ^ 20)%Z with 1048576%Z in H. change (2 ^ 11)%Z with 2048%Z in H.
  change (2 ^ 14)%Z with 16384%Z in H.
  pose proof (Rabs_triang (to_R (fst p)) (- to_R cx)) as Tx.
  pose proof (Rabs_triang (to_R (snd p)) (- to_R cy)) as Ty.
  rewrite Rabs_Ropp in Tx, Ty.
  destruct H as (Hf & Hx & Hy); try assumption; try lia; try (unfold Rminus; lra); try lra.
  split; [exact Hf|]. split; [lra|]. split; [lra|].
  unfold rotate_point, point_to_R. cbn [add sub mul sinf cosf real_arith fst snd].
  split; ring.
Qed.

(** X15 (witness): the base-left vertex of the ship about the window
    centre, with a library whose [SDL_sinf] returns 0 and whose
    [SDL_cosf] returns 1. *)
Lemma rotate_point_accuracy_witness :
  point_is_finite
    (rotate_point (A := binary32_arith (fun _ => S754_zero false) (fun _ => of_Z 1))
       (of_Z 320) (of_Z 240) (of_Z 300, of_Z 260) (S754_zero false)) = true.
Proof.
  destruct (rotate_point_accuracy (fun _ => S754_zero false) (fun _ => of_Z 1)
              (of_Z 320) (of_Z 240) (of_Z 300, of_Z 260) (S754_zero false) 0)
    as [H _].
  - reflexivity.
  - reflexivity.
  - reflexivity.
  - rewrite to_R_of_Z_320, Rabs_pos_eq; lra.
  - rewrite to_R_of_Z_240, Rabs_pos_eq; lra.
  - cbn [fst]. rewrite to_R_of_Z_300, Rabs_pos_eq; lra.
  - cbn [snd]. rewrite to_R_of_Z_260, Rabs_pos_eq; lra.
  - reflexivity.
  - reflexivity.
  - rewrite sin_0, to_R_zero, Rminus_0_r, Rabs_R0. lra.
  - rewrite cos_0. change (of_Z 1) with (S754_finite false 8388608 (-23)).
    rewrite to_R_finite, (pow2R_neg_lit 23). change (2 ^ 23)%Z with 8388608%Z.
    unfold sign_R. replace (_ - _) with 0 by lra. rewrite Rabs_R0. lra.
  - exact H.
Defined.
